(** * RL-Risk: the battle simulator and the AI decision interface

    A shallow embedding of [src/riskai.py]: the memoised Monte-Carlo battle
    simulator [AI.simulate] and the decision methods of the classes [AI],
    [BetterAI] and [StupidAI].

    Conventions of the embedding.
    - Python integers are [Z].
    - A Python float is a binary64 number, modelled by the rational it
      denotes ([Q]; both zeros are 0).  [float(n)] and the division round to
      the nearest double, ties to even, subnormal quotients included, and
      [float(n)] raises [OverflowError] beyond the doubles.  Numeric equality
      ([==] in Python) is [Qeq].
    - The [random] module is a process-wide source of randomness: a tape of
      raw draws together with the number of draws consumed so far.
    - Exceptions are values of [exn]; a call either returns or raises.
    - The class attribute [_sim_cache] is a finite map keyed by the pair
      [(n_atk, n_def)].
    - The attributes of the territories that change during a game
      ([owner], [forces]) and their connections are read from a [Board].
    - A generator ([attack]) is its suspended state together with the
      function [next] resumes it with, which reads the board of that
      moment.  A closure made by a generator reads the variables of the
      generator when it is called: it is a function of the state the
      generator is then in. *)

From Stdlib Require Import ZArith QArith Qabs Qcanon List Bool Lia Permutation Sorted.
From Stdlib Require Import SpecFloat.
From stdpp Require Import base option list gmap fin_maps strings.

Local Open Scope Z_scope.

(** ** Python runtime: exceptions, numbers, the random module *)

Inductive exn : Type :=
| ZeroDivisionError
| NotImplementedError
| IndexError
| ValueError
| OverflowError
| NameError.

Inductive outcome (A : Type) : Type :=
| Return (v : A)
| Raise (e : exn).
Arguments Return {A} v.
Arguments Raise {A} e.

(** A number is an [int] or a [float]. *)
Inductive num : Type :=
| Int (z : Z)
| Float (q : Q).

Definition num_value (x : num) : Q :=
  match x with
  | Int z => inject_Z z
  | Float q => q
  end.

(** *** Floats: binary64, rounded to nearest, ties to even *)

(** The integer nearest to [n / d], for [d > 0]; of two equally near, the
    even one. *)
Definition rne (n d : Z) : Z :=
  let k := n / d in
  match 2 * (n mod d) ?= d with
  | Lt => k
  | Gt => k + 1
  | Eq => if Z.even k then k else k + 1
  end.

(** [floor(log2(a / b))] for positive [a] and [b]. *)
Definition ilog2 (a b : Z) : Z :=
  let e := Z.log2 a - Z.log2 b in
  if (if 0 <=? e then b * 2 ^ e <=? a else b <=? a * 2 ^ (- e)) then e else e - 1.

(** The double nearest to [a / b], for positive [a] and [b], as [m * 2 ^ p]:
    [p] leaves [a / b] 53 significant bits, and is no less than -1074, the
    exponent of the least subnormal double. *)
Definition round_pos (a b : Z) : Z * Z :=
  let p := Z.max (ilog2 a b - 52) (-1074) in
  if 0 <=? p then (rne a (b * 2 ^ p), p) else (rne (a * 2 ^ (- p)) b, p).

(** The rational [m * 2 ^ p], in lowest terms. *)
Definition dyadic (m p : Z) : Q :=
  Qred (if 0 <=? p then inject_Z (m * 2 ^ p) else m # Z.to_pos (2 ^ (- p))).

(** The double nearest to [q] (the exponent unbounded above). *)
Definition round64 (q : Q) : Q :=
  let q := Qred q in
  match Qnum q with
  | 0 => 0%Q
  | Zpos a => let '(m, p) := round_pos (Zpos a) (Zpos (Qden q)) in dyadic m p
  | Zneg a => let '(m, p) := round_pos (Zpos a) (Zpos (Qden q)) in dyadic (- m) p
  end.

(** [float(n)] for an integer [n]: the nearest double, [OverflowError] when
    that is beyond the largest double. *)
Definition float (n : Z) : outcome Q :=
  let f := round64 (inject_Z n) in
  if Qle_bool (inject_Z (2 ^ 1024)) (Qabs f) then Raise OverflowError else Return f.

(** [float(x) / y] for integers [x] and [y]: [x] is converted, then [y];
    a zero divisor raises [ZeroDivisionError]; the quotient is rounded (it is
    no larger than [float(x)], [y] being an integer, so it is a double). *)
Definition float_div (x y : Z) : outcome num :=
  match float x with
  | Raise e => Raise e
  | Return fx =>
      match float y with
      | Raise e => Raise e
      | Return fy =>
          if Qeq_bool fy 0 then Raise ZeroDivisionError
          else Return (Float (round64 (fx / fy)))
      end
  end.

(** [sum(l)] *)
Definition sum (l : list Z) : Z := fold_left Z.add l 0.

Module random.

(** The state of the generator: the tape of raw draws and the number of
    draws already consumed. *)
Record rng : Type := mkRng { tape : nat -> Z; draws : nat }.

Definition advance (g : rng) : rng :=
  {| tape := tape g; draws := S (draws g) |}.

(** [random.randint(lo, hi)]: an integer of [lo..hi] (used with
    [lo <= hi] only). *)
Definition randint (lo hi : Z) (g : rng) : Z * rng :=
  (lo + tape g (draws g) mod (hi - lo + 1), advance g).

(** [random.choice(seq)]: an element of [seq]; [IndexError] on an empty
    sequence (no draw is consumed then). *)
Definition choice {A : Type} (seq : list A) (g : rng) : outcome A * rng :=
  match seq with
  | [] => (Raise IndexError, g)
  | x :: _ =>
      let i := Z.to_nat (tape g (draws g) mod Z.of_nat (length seq)) in
      (Return (nth i seq x), advance g)
  end.

(** [x[i], x[j] = x[j], x[i]] for positions of the list. *)
Definition swap {A : Type} (x : list A) (i j : nat) : list A :=
  match x !! i, x !! j with
  | Some xi, Some xj => <[j := xi]> (<[i := xj]> x)
  | _, _ => x
  end.

(** The loop of [random.shuffle(x)]: for [i] from [len(x) - 1] down to 1,
    [x[i]] is exchanged with [x[j]] for a [j] drawn from [0..i]. *)
Fixpoint shuffle_from {A : Type} (i : nat) (x : list A) (g : rng) : list A * rng :=
  match i with
  | O => (x, g)
  | S i' =>
      let j := Z.to_nat (tape g (draws g) mod Z.of_nat (S i)) in
      shuffle_from i' (swap x i j) (advance g)
  end.

Definition shuffle {A : Type} (x : list A) (g : rng) : list A * rng :=
  shuffle_from (length x - 1) x g.

End random.
Import random.

(** [sorted(l, key=key, reverse=reverse)]: the stable sort of [l] by [key],
    ascending, or descending when [reverse] is set. *)
Section Sorted.
Context {A : Type} (key : A -> Z) (reverse : bool).

Definition goes_before (x y : A) : bool :=
  if reverse then key y <=? key x else key x <=? key y.

Fixpoint insert_sorted (x : A) (l : list A) : list A :=
  match l with
  | [] => [x]
  | y :: l' => if goes_before x y then x :: y :: l' else y :: insert_sorted x l'
  end.

Fixpoint sorted (l : list A) : list A :=
  match l with
  | [] => []
  | x :: l' => insert_sorted x (sorted l')
  end.

(** The order [sorted] puts its result in. *)
Definition in_order (x y : A) : Prop :=
  if reverse then key y <= key x else key x <= key y.
End Sorted.

(** ** The game objects the decision methods read *)

(** [x.area], with its attribute [x.area.name]. *)
Record Area : Type := mkArea { area_name : string }.

(** A territory, with the attributes the decision methods below read. *)
Record Territory : Type := mkTerritory {
  name : string;
  area : Area;
  border : bool
}.

Global Instance Area_eq_dec : EqDecision Area.
Proof. solve_decision. Defined.

Global Instance Territory_eq_dec : EqDecision Territory.
Proof. solve_decision. Defined.

Global Instance Territory_countable : Countable Territory.
Proof.
  refine (inj_countable'
            (fun t => (name t, area_name (area t), border t))
            (fun '(n, a, b) => mkTerritory n (mkArea a) b) _).
  by intros [? [?] ?].
Defined.

(** [self.player]: [territories] lists the territories the player owns. *)
Record Player : Type := mkPlayer { territories : list Territory }.

(** An AI object: [self.player], and [self.area_priority] as [start] of
    [BetterAI] leaves it. *)
Record Self : Type := mkSelf {
  player : Player;
  area_priority : list string
}.

Global Instance Player_eq_dec : EqDecision Player.
Proof. solve_decision. Defined.

(** [self.world]: [areas] lists the keys of the dictionary [world.areas],
    the names of the areas, in the order [list(self.world.areas)] gives
    them. *)
Record World : Type := mkWorld { areas : list string }.

(** The attributes of the territories that change while the game is played,
    and their connections: [t.owner] (a player, or [None]), [t.forces] and
    [t.connect]. *)
Record Board : Type := mkBoard {
  owner : Territory -> option Player;
  forces : Territory -> Z;
  connect : Territory -> list Territory
}.

(** A decision method reads the AI object and draws from [random]. *)
Definition M (A : Type) : Type := rng -> outcome A * rng.

Definition ret {A : Type} (v : A) : M A := fun g => (Return v, g).
Definition raise {A : Type} (e : exn) : M A := fun g => (Raise e, g).
Definition bind {A B : Type} (m : M A) (k : A -> M B) : M B :=
  fun g =>
    match m g with
    | (Return v, g') => k v g'
    | (Raise e, g') => (Raise e, g')
    end.
Definition lift {A : Type} (r : outcome A) : M A := fun g => (r, g).

Notation "'let!' x ':=' m 'in' k" := (bind m (fun x => k))
  (at level 10, x name, m at level 100, k at level 200).

(** [l.index(x)] *)
Fixpoint index (l : list string) (x : string) : outcome Z :=
  match l with
  | [] => Raise ValueError
  | y :: l' =>
      if bool_decide (y = x) then Return 0
      else match index l' x with
           | Return i => Return (i + 1)
           | Raise e => Raise e
           end
  end.

(** The keys [key(x)] of the elements of a list, computed before the list is
    sorted; the first failing key raises. *)
Fixpoint with_keys {A : Type} (key : A -> outcome Z) (l : list A) : outcome (list (Z * A)) :=
  match l with
  | [] => Return []
  | x :: l' =>
      match key x with
      | Raise e => Raise e
      | Return k =>
          match with_keys key l' with
          | Raise e => Raise e
          | Return kl => Return ((k, x) :: kl)
          end
      end
  end.

(** [sorted(l, key=key)] for a key that may raise. *)
Definition sorted_by {A : Type} (key : A -> outcome Z) (l : list A) : outcome (list A) :=
  match with_keys key l with
  | Raise e => Raise e
  | Return kl => Return (map snd (sorted fst false kl))
  end.

(** The truth value of a list argument that may be [None]. *)
Definition truthy {A : Type} (l : option (list A)) : bool :=
  match l with
  | Some (_ :: _) => true
  | _ => false
  end.

(** [result[t] += 1] on a [collections.defaultdict(int)]. *)
Definition incr (t : Territory) (result : gmap Territory Z) : gmap Territory Z :=
  <[t := default 0 (result !! t) + 1]> result.

(** [(src, dest, atk_strategy, move_strategy)] *)
Definition AttackOrder : Type :=
  Territory * Territory * option (Z -> Z -> bool) * option (Z -> Z).

(** ** The class [AI]: the battle simulator and the base decision methods *)

(** The tuple [(probability_of_victory, avg_surviving_attackers,
    avg_surviving_defenders)] returned by [simulate]. *)
Record stats : Type := mkStats {
  probability_of_victory : num;
  avg_surviving_attackers : num;
  avg_surviving_defenders : num
}.

(** The process state [simulate] works on: the class attribute [_sim_cache]
    and the generator of the [random] module. *)
Record process : Type := mkProcess {
  _sim_cache : gmap (Z * Z) stats;
  rand : rng
}.

Module AI.

(** [[random.randint(1, 6) for i in range(n)]] *)
Fixpoint roll (n : nat) (g : rng) : list Z * rng :=
  match n with
  | O => ([], g)
  | S n' =>
      let '(x, g1) := randint 1 6 g in
      let '(xs, g2) := roll n' g1 in
      (x :: xs, g2)
  end.

(** The body of [for aa, dd in zip(atk_roll, def_roll)]. *)
Definition compare_pair (ad : Z * Z) (p : Z * Z) : Z * Z :=
  let '(a, d) := ad in
  let '(aa, dd) := p in
  if dd <? aa then (a, d - 1) else (a - 1, d).

Definition compare_rolls (atk_roll def_roll : list Z) (a d : Z) : Z * Z :=
  fold_left compare_pair (combine atk_roll def_roll) (a, d).

(** One iteration of the loop [while a > 1 and d > 0]. *)
Definition exchange (a d : Z) (g : rng) : Z * Z * rng :=
  let atk_dice := Z.min (a - 1) 3 in
  let '(atk_raw, g1) := roll (Z.to_nat atk_dice) g in
  let atk_roll := sorted id true atk_raw in
  let def_dice := Z.min d 2 in
  let '(def_raw, g2) := roll (Z.to_nat def_dice) g1 in
  let def_roll := sorted id true def_raw in
  let '(a', d') := compare_rolls atk_roll def_roll a d in
  (a', d', g2).

(** The loop [while a > 1 and d > 0], run for at most [fuel] iterations;
    [None] when the fuel does not suffice. *)
Fixpoint battle_loop (fuel : nat) (a d : Z) (g : rng) : option (Z * Z * rng) :=
  if (1 <? a) && (0 <? d) then
    match fuel with
    | O => None
    | S fuel' =>
        let '(a', d', g') := exchange a d g in
        battle_loop fuel' a' d' g'
    end
  else Some (a, d, g).

(** The loop with the fuel [a + d], which always suffices
    (see [battle_loop_fuel] and [battle_unfold]). *)
Definition battle (a d : Z) (g : rng) : Z * Z * rng :=
  default (a, d, g) (battle_loop (Z.to_nat (a + d)) a d g).

(** The accumulators of the loop over the tests. *)
Record tally : Type := mkTally {
  a_survive : list Z;
  d_survive : list Z;
  victory : Z
}.

(** The body of [for i in range(tests)]. *)
Definition test (n_atk n_def : Z) (tg : tally * rng) : tally * rng :=
  let '(t, g) := tg in
  let '(a, d, g') := battle n_atk n_def g in
  if d =? 0
  then (mkTally (a_survive t ++ [a]) (d_survive t) (victory t + 1), g')
  else (mkTally (a_survive t) (d_survive t ++ [d]) (victory t), g').

Fixpoint run_tests (n : nat) (n_atk n_def : Z) (tg : tally * rng) : tally * rng :=
  match n with
  | O => tg
  | S n' => run_tests n' n_atk n_def (test n_atk n_def tg)
  end.

(** The tuple stored in the cache, its components evaluated left to
    right. *)
Definition summary (t : tally) (tests : Z) : outcome stats :=
  match float_div (victory t) tests with
  | Raise e => Raise e
  | Return p =>
      match (if victory t =? 0 then Return (Int 0)
             else float_div (sum (a_survive t)) (victory t)) with
      | Raise e => Raise e
      | Return sa =>
          match (if tests - victory t =? 0 then Return (Int 0)
                 else float_div (sum (d_survive t)) (tests - victory t)) with
          | Raise e => Raise e
          | Return sd => Return (mkStats p sa sd)
          end
      end
  end.

Definition simulate (n_atk n_def tests : Z) (s : process) : outcome stats * process :=
  match _sim_cache s !! (n_atk, n_def) with
  | Some v => (Return v, s)
  | None =>
      let '(t, g) :=
        run_tests (Z.to_nat tests) n_atk n_def (mkTally [] [] 0, rand s) in
      match summary t tests with
      | Raise e => (Raise e, mkProcess (_sim_cache s) g)
      | Return v => (Return v, mkProcess (<[(n_atk, n_def) := v]> (_sim_cache s)) g)
      end
  end.

(** *** The hooks and decision methods of the base class *)

Definition start (self : Self) : M unit := ret tt.

Definition end_ (self : Self) : M unit := ret tt.

Definition event {Msg : Type} (self : Self) (msg : Msg) : M unit := ret tt.

Definition initial_placement (self : Self) (empty : option (list Territory))
    (remaining : Z) : M Territory :=
  raise NotImplementedError.

Definition reinforce (self : Self) (available : Z) : M (gmap Territory Z) :=
  raise NotImplementedError.

Definition attack (self : Self) : M (list AttackOrder) :=
  raise NotImplementedError.

Definition freemove (self : Self) : M (option (Territory * Territory * Z)) :=
  ret None.

End AI.

(** ** The class [BetterAI] *)

Module BetterAI.

Definition area_key (self : Self) (x : Territory) : outcome Z :=
  index (area_priority self) (area_name (area x)).

Definition priority (self : Self) : outcome (list Territory) :=
  match sorted_by (area_key self)
          (filter (fun t => border t = true) (territories (player self))) with
  | Raise e => Raise e
  | Return priority =>
      let priority :=
        filter (fun t => area t = area (hd t priority)) priority in
      Return (match priority with
              | [] => territories (player self)
              | _ :: _ => priority
              end)
  end.

Definition initial_placement (self : Self) (empty : option (list Territory))
    (available : Z) : M Territory :=
  if truthy empty then
    let! empty := lift (sorted_by (area_key self) (default [] empty)) in
    match empty with
    | [] => raise IndexError
    | t :: _ => ret t
    end
  else
    let! priority := lift (priority self) in
    choice priority.

(** The loop [while available], run for at most [fuel] iterations. *)
Fixpoint reinforce_loop (fuel : nat) (priority : list Territory)
    (result : gmap Territory Z) (available : Z) (g : rng)
    : option (outcome (gmap Territory Z) * rng) :=
  if available =? 0 then Some (Return result, g)
  else
    match fuel with
    | O => None
    | S fuel' =>
        match choice priority g with
        | (Raise e, g') => Some (Raise e, g')
        | (Return t, g') =>
            reinforce_loop fuel' priority (incr t result) (available - 1) g'
        end
    end.

Definition reinforce (fuel : nat) (self : Self) (available : Z) (g : rng)
    : option (outcome (gmap Territory Z) * rng) :=
  match priority self with
  | Raise e => Some (Raise e, g)
  | Return priority => reinforce_loop fuel priority ∅ available g
  end.

(** [start] sets [self.area_priority] to the shuffled names of the areas of
    [self.world]; the AI object it leaves is returned. *)
Definition start (world : World) (self : Self) : M Self :=
  fun g =>
    let '(area_priority, g') := shuffle (areas world) g in
    (Return (mkSelf (player self) area_priority), g').

Definition freemove (b : Board) (self : Self) : M (option (Territory * Territory * Z)) :=
  let srcs :=
    sorted (forces b) false
           (filter (fun t => border t = false) (territories (player self))) in
  match last srcs with
  | Some src =>
      let n := forces b src - 1 in
      let! priority := lift (priority self) in
      match priority with
      | [] => raise IndexError
      | dest :: _ => ret (Some (src, dest, n))
      end
  | None => ret None
  end.

(** [attack] is a generator.  Its orders name the territories in one branch
    and hold the territory objects in the other.  The attack strategy of the
    second branch is a closure over the variables [total] and [adj] of the
    generator: it reads them, and [adj.forces], when it is called, not when
    it is made. *)
Inductive place : Type :=
| ByName (n : string)
| ByObject (t : Territory).

(** [adjacent], as computed when the loop reaches [t]. *)
Definition adjacent (b : Board) (t : Territory) : list Territory :=
  filter (fun a => owner b a <> owner b t /\ forces b a + 3 <= forces b t) (connect b t).

(** A generator, suspended or exhausted: its variables [total] and [adj],
    unbound until they are first assigned; the territory whose targets are
    being yielded, with the targets still to come; and the territories the
    outer loop has not reached. *)
Record attack_state : Type := mkAttack {
  total : option Z;
  adj : option Territory;
  pending : option (Territory * list Territory);
  remaining : list Territory
}.

(** An attack strategy, called with the generator in some state and on some
    board. *)
Definition strategy : Type := attack_state -> Board -> Z -> Z -> outcome bool.

Definition order : Type := place * place * strategy * option (Z -> Z).

(** [lambda a, d: a > d] *)
Definition outnumber : strategy := fun _ _ a d => Return (d <? a).

(** [lambda a, d: a > d + total - adj.forces + 3] *)
Definition outweigh : strategy := fun st b a d =>
  match total st with
  | None => Raise NameError
  | Some total =>
      match adj st with
      | None => Raise NameError
      | Some adj => Return (d + total - forces b adj + 3 <? a)
      end
  end.

(** The order for the only member of [adjacent]. *)
Definition single_order (t a : Territory) : order :=
  (ByName (name t), ByName (name a), outnumber, None).

(** The order for [adj], one of several members of [adjacent]. *)
Definition shared_order (t adj : Territory) : order :=
  (ByObject t, ByObject adj, outweigh, Some (fun _ => 1)).

(** Calling [attack()] creates the generator; nothing runs yet. *)
Definition attack (self : Self) : attack_state :=
  mkAttack None None None (territories (player self)).

(** The outer loop, run on the board [b] until the next [yield] or to its
    end.  The branch for other than one target assigns [total] also when
    there is no target at all. *)
Fixpoint attack_from (b : Board) (total : option Z) (adj : option Territory)
    (ts : list Territory) : option order * attack_state :=
  match ts with
  | [] => (None, mkAttack total adj None [])
  | t :: ts' =>
      if 1 <? forces b t then
        match adjacent b t with
        | [a] => (Some (single_order t a), mkAttack total adj None ts')
        | l =>
            let total := Some (sum (map (forces b) l)) in
            match l with
            | [] => attack_from b total adj ts'
            | x :: more =>
                (Some (shared_order t x), mkAttack total (Some x) (Some (t, more)) ts')
            end
        end
      else attack_from b total adj ts'
  end.

(** [next(gen)] on the board [b]: the next order, or [None] when the
    generator is exhausted, and the generator as it is left. *)
Definition attack_next (b : Board) (st : attack_state) : option order * attack_state :=
  match pending st with
  | Some (t, x :: more) =>
      (Some (shared_order t x), mkAttack (total st) (Some x) (Some (t, more)) (remaining st))
  | _ => attack_from b (total st) (adj st) (remaining st)
  end.

(** The orders of a generator run to its end, at most [fuel] of them, on a
    board that does not change meanwhile, and the generator as it is
    left. *)
Fixpoint attack_all (fuel : nat) (b : Board) (st : attack_state)
    : list order * attack_state :=
  match fuel with
  | O => ([], st)
  | S fuel' =>
      match attack_next b st with
      | (None, st') => ([], st')
      | (Some o, st') =>
          let '(os, st'') := attack_all fuel' b st' in (o :: os, st'')
      end
  end.

(** Inherited from [AI]. *)
Definition end_ := AI.end_.
Definition event {Msg : Type} := @AI.event Msg.

End BetterAI.

(** ** The class [StupidAI] *)

Module StupidAI.

Definition initial_placement (self : Self) (empty : option (list Territory))
    (remaining : Z) : M Territory :=
  if truthy empty then choice (default [] empty)
  else
    let! t := choice (territories (player self)) in
    ret t.

(** The loop [for i in range(available)] over [n] remaining iterations. *)
Fixpoint reinforce_loop (n : nat) (border : list Territory)
    (result : gmap Territory Z) : M (gmap Territory Z) :=
  match n with
  | O => ret result
  | S n' =>
      let! t := choice border in
      reinforce_loop n' border (incr t result)
  end.

Definition reinforce (self : Self) (available : Z) : M (gmap Territory Z) :=
  let border := filter (fun t => border t = true) (territories (player self)) in
  reinforce_loop (Z.to_nat available) border ∅.

(** [attack] is a generator: the territory whose connections are being
    gone through, with those still to come, and the territories the outer
    loop has not reached. *)
Record attack_state : Type := mkAttack {
  pending : option (Territory * list Territory);
  remaining : list Territory
}.

(** Calling [attack()] creates the generator; nothing runs yet. *)
Definition attack (self : Self) : attack_state :=
  mkAttack None (territories (player self)).

(** The two tests of the inner loop. *)
Definition attackable (b : Board) (self : Self) (t a : Territory) : bool :=
  bool_decide (owner b a <> Some (player self)) && (forces b a <? forces b t).

(** The inner loop [for a in t.connect], run on the board [b] until the next
    [yield]. *)
Fixpoint attack_scan (b : Board) (self : Self) (t : Territory) (adj : list Territory)
    : option (Territory * list Territory) :=
  match adj with
  | [] => None
  | a :: adj' =>
      if attackable b self t a then Some (a, adj') else attack_scan b self t adj'
  end.

(** The outer loop, run on the board [b] until the next [yield]. *)
Fixpoint attack_from (b : Board) (self : Self) (ts : list Territory)
    : option (AttackOrder * attack_state) :=
  match ts with
  | [] => None
  | t :: ts' =>
      match attack_scan b self t (connect b t) with
      | Some (a, adj') => Some ((t, a, None, None), mkAttack (Some (t, adj')) ts')
      | None => attack_from b self ts'
      end
  end.

(** [next(gen)] on the board [b]: the next order and the generator suspended
    again, or [None] when the generator is exhausted. *)
Definition attack_next (b : Board) (self : Self) (st : attack_state)
    : option (AttackOrder * attack_state) :=
  match pending st with
  | Some (t, adj) =>
      match attack_scan b self t adj with
      | Some (a, adj') => Some ((t, a, None, None), mkAttack (Some (t, adj')) (remaining st))
      | None => attack_from b self (remaining st)
      end
  | None => attack_from b self (remaining st)
  end.

(** The orders of a generator run to its end, at most [fuel] of them, on a
    board that does not change meanwhile. *)
Fixpoint attack_all (fuel : nat) (b : Board) (self : Self) (st : attack_state)
    : list AttackOrder :=
  match fuel with
  | O => []
  | S fuel' =>
      match attack_next b self st with
      | None => []
      | Some (o, st') => o :: attack_all fuel' b self st'
      end
  end.

(** Inherited from [AI]. *)
Definition start := AI.start.
Definition end_ := AI.end_.
Definition event {Msg : Type} := @AI.event Msg.
Definition freemove := AI.freemove.

End StupidAI.

(** ** Notions the statements below are phrased with *)

(** The number of positions at which both sides have a die. *)
Definition paired (atk_roll def_roll : list Z) : nat :=
  Nat.min (length atk_roll) (length def_roll).

(** The paired positions the attacker wins (a strictly greater die), and
    those the defender wins (all the others). *)
Definition defender_losses (atk_roll def_roll : list Z) : Z :=
  Z.of_nat (length (List.filter (fun i => nth i def_roll 0 <? nth i atk_roll 0)
                                (seq 0 (paired atk_roll def_roll)))).

Definition attacker_losses (atk_roll def_roll : list Z) : Z :=
  Z.of_nat (length (List.filter (fun i => nth i atk_roll 0 <=? nth i def_roll 0)
                                (seq 0 (paired atk_roll def_roll)))).

(** A list of dice in descending order. *)
Definition descending (l : list Z) : Prop :=
  forall i j : nat, (i <= j < length l)%nat -> nth j l 0 <= nth i l 0.

(** The final [(a, d)] of [n] battles fought one after the other. *)
Fixpoint outcomes (n : nat) (n_atk n_def : Z) (g : rng) : list (Z * Z) :=
  match n with
  | O => []
  | S n' =>
      let '(a, d, g') := AI.battle n_atk n_def g in
      (a, d) :: outcomes n' n_atk n_def g'
  end.

Definition attacker_won (o : Z * Z) : bool := snd o =? 0.

Definition wins (os : list (Z * Z)) : Z :=
  Z.of_nat (length (List.filter attacker_won os)).

Definition attacker_samples (os : list (Z * Z)) : list Z :=
  map fst (List.filter attacker_won os).

Definition defender_samples (os : list (Z * Z)) : list Z :=
  map snd (List.filter (fun o => negb (attacker_won o)) os).

(** The double nearest to a non-negative integer [n], written out: [n]
    itself up to 53 bits, and beyond that [n] rounded to 53 bits. *)
Definition nearest (n : Z) : Z :=
  let e := Z.log2 n in
  if e <=? 52 then n else rne n (2 ^ (e - 52)) * 2 ^ (e - 52).

(** The rational a float of the Standard Library's specification of
    IEEE 754 denotes, and the operations of the model computed by that
    specification, to compare the two. *)
Definition spec_value (f : spec_float) : option Q :=
  match f with
  | S754_zero _ => Some 0%Q
  | S754_finite s m e => Some (dyadic (if s then Zneg m else Zpos m) e)
  | _ => None
  end.

Definition spec_float_of (n : Z) : spec_float := binary_normalize 53 1024 n 0 false.

Definition spec_float_div (x y : Z) : option Q :=
  spec_value (SFdiv 53 1024 (spec_float_of x) (spec_float_of y)).

(** A sequence of calls [simulate(n_atk, n_def, tests)], whatever they
    return or raise. *)
Definition run_calls (calls : list (Z * Z * Z)) (s : process) : process :=
  fold_left (fun s c => let '(n_atk, n_def, tests) := c in
                        snd (AI.simulate n_atk n_def tests s)) calls s.

(** The sum of the values of a reinforcement dictionary. *)
Definition total (result : gmap Territory Z) : Z :=
  map_fold (fun _ v acc => v + acc) 0 result.

(** The entries of a dictionary are non-negative counts on territories of
    [pool]. *)
Definition counts_on (pool : list Territory) (result : gmap Territory Z) : Prop :=
  forall t n, result !! t = Some n -> 0 <= n /\ In t pool.

(** Every territory of [l] lies in an area that [self.area_priority]
    lists, as is the case once [start] has run. *)
Definition areas_known (self : Self) (l : list Territory) : Prop :=
  Forall (fun t => In (area_name (area t)) (area_priority self)) l.

(** The orders of [StupidAI.attack] written as the nested loops over one
    board: for each owned territory, in turn, its connections that pass the
    two tests. *)
Definition stupid_orders (b : Board) (self : Self) (ts : list Territory) : list AttackOrder :=
  flat_map (fun t => map (fun a => (t, a, None, None))
                         (List.filter (StupidAI.attackable b self t) (connect b t))) ts.

(** The orders a suspended generator of [StupidAI.attack] has yet to yield
    on a board that stays as it is. *)
Definition stupid_orders_left (b : Board) (self : Self) (st : StupidAI.attack_state)
    : list AttackOrder :=
  match StupidAI.pending st with
  | Some (t, adj) =>
      map (fun a => (t, a, None, None)) (List.filter (StupidAI.attackable b self t) adj)
  | None => []
  end ++ stupid_orders b self (StupidAI.remaining st).

(** A generator of [StupidAI.attack] as the calls of [next] leave it, on
    boards with the connections [c]: it is going through connections of an
    owned territory, and has owned territories left. *)
Definition stupid_state_ok (c : Territory -> list Territory) (self : Self)
    (st : StupidAI.attack_state) : Prop :=
  (forall t adj, StupidAI.pending st = Some (t, adj) ->
                 In t (territories (player self)) /\ incl adj (c t)) /\
  incl (StupidAI.remaining st) (territories (player self)).

(** The orders of [BetterAI.attack] for one territory, and for a list of
    them, written as the loop body over one board. *)
Definition better_orders_of (b : Board) (t : Territory) : list BetterAI.order :=
  if 1 <? forces b t then
    match BetterAI.adjacent b t with
    | [a] => [BetterAI.single_order t a]
    | l => map (BetterAI.shared_order t) l
    end
  else [].

Definition better_orders (b : Board) (ts : list Territory) : list BetterAI.order :=
  flat_map (better_orders_of b) ts.

Definition better_orders_left (b : Board) (st : BetterAI.attack_state)
    : list BetterAI.order :=
  match BetterAI.pending st with
  | Some (t, l) => map (BetterAI.shared_order t) l
  | None => []
  end ++ better_orders b (BetterAI.remaining st).

(** The last element of a list, or [d] for the empty list. *)
Definition last_or {A : Type} (d : option A) (l : list A) : option A :=
  fold_left (fun _ x => Some x) l d.

(** The variables [total] and [adj] of [BetterAI.attack] after the loop body
    for one territory, after those for a list of them, and at the end of a
    generator. *)
Definition better_frame_of (b : Board) (fr : option Z * option Territory) (t : Territory)
    : option Z * option Territory :=
  if 1 <? forces b t then
    match BetterAI.adjacent b t with
    | [_] => fr
    | l => (Some (sum (map (forces b) l)), last_or (snd fr) l)
    end
  else fr.

Definition better_frame (b : Board) (ts : list Territory) (fr : option Z * option Territory)
    : option Z * option Territory :=
  fold_left (better_frame_of b) ts fr.

Definition better_frame_left (b : Board) (st : BetterAI.attack_state)
    : option Z * option Territory :=
  better_frame b (BetterAI.remaining st)
    (BetterAI.total st,
     match BetterAI.pending st with
     | Some (_, l) => last_or (BetterAI.adj st) l
     | None => BetterAI.adj st
     end).

(** What holds of a generator of [BetterAI.attack] running on the board [b]:
    the territories to come are the player's; and while the targets of [t]
    are being yielded, [t] is the player's and has more than one piece,
    [total] is the sum of the forces of its targets, [adj] is the target
    yielded last and the targets to come are those after it. *)
Definition better_state_ok (b : Board) (self : Self) (st : BetterAI.attack_state) : Prop :=
  (forall t more, BetterAI.pending st = Some (t, more) ->
     In t (territories (player self)) /\ 1 < forces b t /\
     BetterAI.total st = Some (sum (map (forces b) (BetterAI.adjacent b t))) /\
     exists pre x, BetterAI.adj st = Some x /\
                   BetterAI.adjacent b t = pre ++ x :: more) /\
  incl (BetterAI.remaining st) (territories (player self)).

(** Concrete processes and agents for the examples. *)
Definition tape_of (l : list Z) : nat -> Z := fun n => nth n l 0.

Definition generator (l : list Z) : rng := mkRng (tape_of l) 0.

Definition fresh (l : list Z) : process := mkProcess ∅ (generator l).

(** A process with an empty cache whose next dice are 6, 5 against 1, 1 and
    then 2, 3 against 4, 5; what [simulate(3, 2, 2)] returns on it, and the
    process it leaves. *)
Definition example_process : process := fresh [5; 4; 0; 0; 1; 2; 3; 4].

Definition example_stats : stats := mkStats (Float (1 / 2)) (Float (3 / 1)) (Float (2 / 1)).

Definition example_cached : process := snd (AI.simulate 3 2 2 example_process).

Definition alaska : Territory := mkTerritory "Alaska" (mkArea "North America") true.
Definition peru : Territory := mkTerritory "Peru" (mkArea "South America") true.
Definition chile : Territory := mkTerritory "Chile" (mkArea "South America") false.
Definition brazil : Territory := mkTerritory "Brazil" (mkArea "South America") true.

Definition agent : Self :=
  mkSelf (mkPlayer [alaska; peru; chile; brazil]) ["South America"; "North America"].

(** An agent all of whose territories are interior. *)
Definition inland_agent : Self :=
  mkSelf (mkPlayer [chile]) ["South America"; "North America"].

(** A board for the examples: the agent of the examples holds its four
    territories with 9, 7, 4 and 2 forces; Kamchatka and Argentina are held
    by someone else with 2 and 3 forces. *)
Definition kamchatka : Territory := mkTerritory "Kamchatka" (mkArea "Asia") true.
Definition argentina : Territory := mkTerritory "Argentina" (mkArea "South America") true.

Definition example_board : Board :=
  mkBoard
    (fun t => if bool_decide (t = kamchatka \/ t = argentina)
              then Some (mkPlayer [kamchatka; argentina])
              else Some (mkPlayer [alaska; peru; chile; brazil]))
    (fun t => if bool_decide (t = alaska) then 9
              else if bool_decide (t = peru) then 7
              else if bool_decide (t = chile) then 4
              else if bool_decide (t = brazil) then 2
              else if bool_decide (t = kamchatka) then 2
              else 3)
    (fun t => if bool_decide (t = alaska) then [kamchatka; argentina]
              else if bool_decide (t = peru) then [chile; brazil; argentina]
              else if bool_decide (t = chile) then [peru]
              else if bool_decide (t = brazil) then [peru; argentina]
              else if bool_decide (t = kamchatka) then [alaska]
              else [alaska; peru; brazil]).

(** * Properties *)

(** ** The random module *)

Lemma roll_length n g : length (fst (AI.roll n g)) = n.
Proof.
  revert g. induction n as [|n IH]; intros g; simpl; [reflexivity|].
  specialize (IH (advance g)). destruct (AI.roll n (advance g)); simpl in *. lia.
Qed.

Lemma roll_tape n g : tape (snd (AI.roll n g)) = tape g.
Proof.
  revert g. induction n as [|n IH]; intros g; simpl; [reflexivity|].
  specialize (IH (advance g)). destruct (AI.roll n (advance g)); simpl in *. exact IH.
Qed.

Lemma roll_draws n g : draws (snd (AI.roll n g)) = (draws g + n)%nat.
Proof.
  revert g. induction n as [|n IH]; intros g; simpl; [lia|].
  specialize (IH (advance g)). destruct (AI.roll n (advance g)); simpl in *. lia.
Qed.

Lemma roll_range n g : Forall (fun x => 1 <= x <= 6) (fst (AI.roll n g)).
Proof.
  revert g. induction n as [|n IH]; intros g; simpl; [constructor|].
  specialize (IH (advance g)). destruct (AI.roll n (advance g)); simpl in *.
  constructor; [|exact IH].
  pose proof (Z.mod_pos_bound (tape g (draws g)) (6 - 1 + 1)). lia.
Qed.

Lemma choice_In {A : Type} (seq : list A) (g : rng) :
  seq <> [] ->
  exists x, In x seq /\ choice seq g = (Return x, advance g).
Proof.
  destruct seq as [|x seq']; [congruence|]. intros _.
  unfold choice. eexists; split; [|reflexivity].
  apply nth_In.
  pose proof (Z.mod_pos_bound (tape g (draws g)) (Z.of_nat (length (x :: seq')))) as Hb.
  simpl length in *. lia.
Qed.

(** ** [sorted] *)

Section SortedFacts.
Context {A : Type} (key : A -> Z) (reverse : bool).

Lemma insert_sorted_perm x l : Permutation (insert_sorted key reverse x l) (x :: l).
Proof.
  induction l as [|y l IH]; simpl; [reflexivity|].
  destruct (goes_before key reverse x y); [reflexivity|].
  rewrite IH. apply perm_swap.
Qed.

Lemma sorted_perm l : Permutation (sorted key reverse l) l.
Proof.
  induction l as [|x l IH]; simpl; [reflexivity|].
  rewrite insert_sorted_perm. by constructor.
Qed.

Lemma sorted_length l : length (sorted key reverse l) = length l.
Proof. apply Permutation_length, sorted_perm. Qed.

Lemma sorted_In x l : In x (sorted key reverse l) <-> In x l.
Proof.
  split; apply Permutation_in; [|symmetry]; apply sorted_perm.
Qed.

Lemma goes_before_true x y :
  goes_before key reverse x y = true -> in_order key reverse x y.
Proof. unfold goes_before, in_order. destruct reverse; intros H; lia. Qed.

Lemma goes_before_false x y :
  goes_before key reverse x y = false -> in_order key reverse y x.
Proof. unfold goes_before, in_order. destruct reverse; intros H; lia. Qed.

Lemma in_order_trans x y z :
  in_order key reverse x y -> in_order key reverse y z -> in_order key reverse x z.
Proof. unfold in_order. destruct reverse; lia. Qed.

Lemma insert_sorted_ordered x l :
  StronglySorted (in_order key reverse) l ->
  StronglySorted (in_order key reverse) (insert_sorted key reverse x l).
Proof.
  induction l as [|y l IH]; intros Hs; simpl.
  - repeat constructor.
  - inversion Hs as [|? ? Hl Hy]; subst.
    destruct (goes_before key reverse x y) eqn:Hc.
    + apply goes_before_true in Hc.
      constructor; [exact Hs|]. constructor; [exact Hc|].
      eapply Forall_impl; [exact Hy|]. intros z Hz. simpl in Hz.
      eapply in_order_trans; eauto.
    + apply goes_before_false in Hc.
      constructor; [apply IH; exact Hl|].
      eapply Permutation_Forall; [symmetry; apply insert_sorted_perm|].
      by constructor.
Qed.

Lemma sorted_ordered l : StronglySorted (in_order key reverse) (sorted key reverse l).
Proof.
  induction l as [|x l IH]; simpl; [constructor|].
  by apply insert_sorted_ordered.
Qed.
End SortedFacts.

Lemma sorted_descending (l : list Z) : descending (sorted id true l).
Proof.
  pose proof (sorted_ordered id true l) as Hs.
  generalize dependent (sorted id true l). clear l.
  intros l Hs. induction Hs as [|x l Hs IH Hx]; intros i j Hij; simpl in *; [lia|].
  destruct j as [|j].
  - assert (i = 0%nat) by lia. subst. lia.
  - destruct i as [|i].
    + rewrite Forall_forall in Hx. unfold in_order, id in Hx.
      apply Hx, list_elem_of_In, nth_In. lia.
    + apply IH. lia.
Qed.

(** ** One exchange of dice *)

Lemma filter_map_S (f : nat -> bool) (l : list nat) :
  length (List.filter f (map S l)) = length (List.filter (fun i => f (S i)) l).
Proof.
  induction l as [|i l IH]; simpl; [reflexivity|].
  destruct (f (S i)); simpl; lia.
Qed.

Lemma paired_cons x atk y def : paired (x :: atk) (y :: def) = S (paired atk def).
Proof. reflexivity. Qed.

Lemma attacker_losses_cons x atk y def :
  attacker_losses (x :: atk) (y :: def) =
  (if x <=? y then 1 else 0) + attacker_losses atk def.
Proof.
  unfold attacker_losses. rewrite paired_cons, <- cons_seq, <- seq_shift.
  cbn [List.filter nth]. pose proof (filter_map_S
    (fun i => nth i (x :: atk) 0 <=? nth i (y :: def) 0) (seq 0 (paired atk def))) as E.
  cbn [nth] in E. destruct (x <=? y); cbn [length]; lia.
Qed.

Lemma defender_losses_cons x atk y def :
  defender_losses (x :: atk) (y :: def) =
  (if y <? x then 1 else 0) + defender_losses atk def.
Proof.
  unfold defender_losses. rewrite paired_cons, <- cons_seq, <- seq_shift.
  cbn [List.filter nth]. pose proof (filter_map_S
    (fun i => nth i (y :: def) 0 <? nth i (x :: atk) 0) (seq 0 (paired atk def))) as E.
  cbn [nth] in E. destruct (y <? x); cbn [length]; lia.
Qed.

Lemma losses_nil_r atk : attacker_losses atk [] = 0 /\ defender_losses atk [] = 0.
Proof.
  unfold attacker_losses, defender_losses, paired.
  rewrite Nat.min_0_r. split; reflexivity.
Qed.

Lemma compare_rolls_losses atk_roll def_roll a d :
  AI.compare_rolls atk_roll def_roll a d =
  (a - attacker_losses atk_roll def_roll, d - defender_losses atk_roll def_roll).
Proof.
  unfold AI.compare_rolls.
  revert def_roll a d. induction atk_roll as [|x atk IH]; intros def a d.
  - simpl. f_equal; unfold attacker_losses, defender_losses; simpl; lia.
  - destruct def as [|y def].
    + destruct (losses_nil_r (x :: atk)) as [-> ->]. simpl. f_equal; lia.
    + rewrite attacker_losses_cons, defender_losses_cons.
      cbn [combine fold_left AI.compare_pair].
      destruct (Z.ltb_spec y x) as [Hlt|Hge].
      * rewrite IH. destruct (Z.leb_spec x y); [lia|]. f_equal; lia.
      * rewrite IH. destruct (Z.leb_spec x y); [|lia]. f_equal; lia.
Qed.

Lemma losses_total atk_roll def_roll :
  attacker_losses atk_roll def_roll + defender_losses atk_roll def_roll =
  Z.of_nat (paired atk_roll def_roll).
Proof.
  revert def_roll. induction atk_roll as [|x atk IH]; intros def.
  - reflexivity.
  - destruct def as [|y def].
    + destruct (losses_nil_r (x :: atk)) as [-> ->].
      unfold paired. rewrite Nat.min_0_r. reflexivity.
    + rewrite attacker_losses_cons, defender_losses_cons, paired_cons.
      specialize (IH def).
      destruct (Z.ltb_spec y x), (Z.leb_spec x y); lia.
Qed.

Lemma losses_nonneg atk_roll def_roll :
  0 <= attacker_losses atk_roll def_roll /\ 0 <= defender_losses atk_roll def_roll.
Proof. unfold attacker_losses, defender_losses. lia. Qed.

(** The rolls of one exchange, as the loop body computes them. *)
Lemma exchange_rolls a d g :
  let atk_raw := fst (AI.roll (Z.to_nat (Z.min (a - 1) 3)) g) in
  let g1 := snd (AI.roll (Z.to_nat (Z.min (a - 1) 3)) g) in
  let def_raw := fst (AI.roll (Z.to_nat (Z.min d 2)) g1) in
  let g2 := snd (AI.roll (Z.to_nat (Z.min d 2)) g1) in
  let atk_roll := sorted id true atk_raw in
  let def_roll := sorted id true def_raw in
  AI.exchange a d g =
  (a - attacker_losses atk_roll def_roll, d - defender_losses atk_roll def_roll, g2).
Proof.
  intros atk_raw g1 def_raw g2 atk_roll def_roll. unfold AI.exchange.
  destruct (AI.roll (Z.to_nat (Z.min (a - 1) 3)) g) as [ar h1] eqn:E1.
  subst atk_raw g1. simpl in *.
  destruct (AI.roll (Z.to_nat (Z.min d 2)) h1) as [dr h2] eqn:E2.
  subst def_raw g2 atk_roll def_roll. simpl.
  rewrite compare_rolls_losses. reflexivity.
Qed.

Lemma exchange_paired a d g :
  1 < a -> 0 < d ->
  let atk_raw := fst (AI.roll (Z.to_nat (Z.min (a - 1) 3)) g) in
  let g1 := snd (AI.roll (Z.to_nat (Z.min (a - 1) 3)) g) in
  let def_raw := fst (AI.roll (Z.to_nat (Z.min d 2)) g1) in
  Z.of_nat (paired (sorted id true atk_raw) (sorted id true def_raw)) =
  Z.min (Z.min (a - 1) 3) (Z.min d 2).
Proof.
  intros Ha Hd atk_raw g1 def_raw. unfold paired.
  rewrite !sorted_length. subst atk_raw def_raw. rewrite !roll_length. lia.
Qed.

(** An exchange entered with [a > 1] and [d > 0] removes one or two pieces
    in all, and leaves [a >= 1] and [d >= 0]. *)
Lemma exchange_decreases a d g :
  1 < a -> 0 < d ->
  let '(a', d', g') := AI.exchange a d g in
  a + d - 2 <= a' + d' <= a + d - 1 /\ 1 <= a' <= a /\ 0 <= d' <= d.
Proof.
  intros Ha Hd. rewrite exchange_rolls.
  pose proof (exchange_paired a d g Ha Hd) as Hp. cbv zeta in Hp.
  match goal with
  | |- context [attacker_losses ?x ?y] =>
      pose proof (losses_total x y); pose proof (losses_nonneg x y)
  end.
  lia.
Qed.

(** ** The battle loop *)

Lemma battle_loop_exit fuel a d g :
  (1 <? a) && (0 <? d) = false -> AI.battle_loop fuel a d g = Some (a, d, g).
Proof. intros H. destruct fuel; simpl; rewrite H; reflexivity. Qed.

Lemma battle_loop_step fuel a d g :
  (1 <? a) && (0 <? d) = true ->
  AI.battle_loop (S fuel) a d g =
  (let '(a', d', g') := AI.exchange a d g in AI.battle_loop fuel a' d' g').
Proof. intros H. simpl. rewrite H. reflexivity. Qed.

(** With [a + d] iterations of fuel, or more, the loop runs to its exit; the
    result does not depend on the fuel given. *)
Lemma battle_loop_fuel fuel a d g :
  (Z.to_nat (a + d) <= fuel)%nat ->
  exists a' d' g',
    AI.battle_loop fuel a d g = Some (a', d', g') /\
    (1 <? a') && (0 <? d') = false /\
    (forall fuel', (Z.to_nat (a + d) <= fuel')%nat ->
                   AI.battle_loop fuel' a d g = Some (a', d', g')).
Proof.
  revert a d g. induction fuel as [fuel IH] using lt_wf_ind. intros a d g Hf.
  destruct ((1 <? a) && (0 <? d)) eqn:Hc.
  - pose proof Hc as Hc'. apply andb_true_iff in Hc' as [Ha Hd].
    apply Z.ltb_lt in Ha, Hd.
    pose proof (exchange_decreases a d g Ha Hd) as Hx.
    destruct (AI.exchange a d g) as [[a1 d1] g1] eqn:Ex.
    destruct fuel as [|fuel]; [lia|].
    destruct (IH fuel ltac:(lia) a1 d1 g1 ltac:(lia)) as (a' & d' & g' & H1 & H2 & H3).
    exists a', d', g'. split; [|split].
    + rewrite battle_loop_step, Ex by exact Hc. exact H1.
    + exact H2.
    + intros fuel' Hf'. destruct fuel' as [|fuel']; [lia|].
      rewrite battle_loop_step, Ex by exact Hc. apply H3. lia.
  - exists a, d, g. split; [|split].
    + by apply battle_loop_exit.
    + exact Hc.
    + intros. by apply battle_loop_exit.
Qed.

(** [battle] is the loop of the source: it tests the condition, runs one
    exchange and starts over. *)
Lemma battle_unfold a d g :
  AI.battle a d g =
  if (1 <? a) && (0 <? d)
  then let '(a', d', g') := AI.exchange a d g in AI.battle a' d' g'
  else (a, d, g).
Proof.
  unfold AI.battle at 1.
  destruct ((1 <? a) && (0 <? d)) eqn:Hc.
  - pose proof Hc as Hc'. apply andb_true_iff in Hc' as [Ha Hd].
    apply Z.ltb_lt in Ha, Hd.
    pose proof (exchange_decreases a d g Ha Hd) as Hx.
    destruct (AI.exchange a d g) as [[a1 d1] g1] eqn:Ex.
    destruct (Z.to_nat (a + d)) as [|fuel] eqn:Hn; [lia|].
    rewrite battle_loop_step, Ex by exact Hc.
    destruct (battle_loop_fuel fuel a1 d1 g1 ltac:(lia)) as (a' & d' & g' & H1 & _ & H3).
    rewrite H1. unfold AI.battle. rewrite (H3 (Z.to_nat (a1 + d1))) by lia. reflexivity.
  - by rewrite battle_loop_exit.
Qed.

Lemma battle_exit a d g :
  (1 <? a) && (0 <? d) = false -> AI.battle a d g = (a, d, g).
Proof. intros H. rewrite battle_unfold, H. reflexivity. Qed.

Lemma battle_loop_battle fuel a d g :
  (Z.to_nat (a + d) <= fuel)%nat ->
  AI.battle_loop fuel a d g = Some (AI.battle a d g).
Proof.
  intros Hf. destruct (battle_loop_fuel fuel a d g Hf) as (a' & d' & g' & H1 & _ & H3).
  unfold AI.battle. rewrite (H3 (Z.to_nat (a + d))) by lia. exact H1.
Qed.

Lemma battle_final a d g :
  let '(a', d', g') := AI.battle a d g in (1 <? a') && (0 <? d') = false.
Proof.
  destruct (battle_loop_fuel (Z.to_nat (a + d)) a d g ltac:(lia))
    as (a' & d' & g' & H1 & H2 & _).
  unfold AI.battle. rewrite H1. exact H2.
Qed.

(** ** Floats *)

(** Rounding to the nearest integer, ties to even. *)
Lemma rne_cases n d :
  0 < d ->
  (rne n d = n / d /\ 2 * (n mod d) <= d) \/ (rne n d = n / d + 1 /\ d <= 2 * (n mod d)).
Proof.
  intros Hd. unfold rne. cbv zeta.
  destruct (Z.compare_spec (2 * (n mod d)) d) as [E|E|E].
  - destruct (Z.even (n / d)); [left|right]; split; lia.
  - left. split; lia.
  - right. split; lia.
Qed.

Lemma rne_exact k d : 0 < d -> rne (k * d) d = k.
Proof.
  intros Hd. unfold rne. cbv zeta. rewrite Z.mod_mul, Z.div_mul by lia.
  destruct (Z.compare_spec (2 * 0) d); lia.
Qed.

Lemma rne_bounds n d L U :
  0 < d -> L * d <= n -> n <= U * d -> L <= rne n d <= U.
Proof.
  intros Hd HL HU.
  pose proof (Z.div_mod n d ltac:(lia)) as Hdm.
  pose proof (Z.mod_pos_bound n d Hd) as Hr.
  assert (HLk : L <= n / d) by (apply Z.div_le_lower_bound; lia).
  destruct (rne_cases n d Hd) as [[-> H]|[-> H]].
  - split; [exact HLk|]. apply Z.div_le_upper_bound; lia.
  - split; [lia|]. assert (n / d < U); [|lia].
    apply Z.div_lt_upper_bound; [lia|].
    destruct (Z.eq_dec n (U * d)) as [->|Hne]; [|lia].
    rewrite Z.mod_mul in H; lia.
Qed.

Lemma rne_mono n1 n2 d : 0 < d -> n1 <= n2 -> rne n1 d <= rne n2 d.
Proof.
  intros Hd Hn.
  pose proof (Z.div_le_mono n1 n2 d Hd Hn) as Hk.
  pose proof (Z.div_mod n1 d ltac:(lia)) as H1. pose proof (Z.mod_pos_bound n1 d Hd) as Hr1.
  pose proof (Z.div_mod n2 d ltac:(lia)) as H2. pose proof (Z.mod_pos_bound n2 d Hd) as Hr2.
  destruct (Z.eq_dec (n1 / d) (n2 / d)) as [E|E].
  - unfold rne. cbv zeta. rewrite E.
    assert (Hr : n1 mod d <= n2 mod d) by nia.
    destruct (Z.compare_spec (2 * (n1 mod d)) d), (Z.compare_spec (2 * (n2 mod d)) d);
      destruct (Z.even (n2 / d)); lia.
  - destruct (rne_cases n1 d Hd) as [[-> _]|[-> _]], (rne_cases n2 d Hd) as [[-> _]|[-> _]]; lia.
Qed.

(** The binary exponent of a quotient. *)
Lemma pow2_pos e : 0 < 2 ^ e \/ e < 0.
Proof. destruct (Z.lt_ge_cases e 0); [by right|left]. by apply Z.pow_pos_nonneg. Qed.

Lemma ilog2_lower a b :
  0 < a -> 0 < b ->
  (0 <= ilog2 a b -> b * 2 ^ ilog2 a b <= a) /\
  (ilog2 a b < 0 -> b <= a * 2 ^ (- ilog2 a b)).
Proof.
  intros Ha Hb. unfold ilog2. cbv zeta.
  pose proof (Z.log2_spec a Ha) as [Ha1 Ha2]. pose proof (Z.log2_spec b Hb) as [Hb1 Hb2].
  pose proof (Z.log2_nonneg a) as Hla. pose proof (Z.log2_nonneg b) as Hlb.
  rewrite Z.pow_succ_r in Ha2, Hb2 by assumption.
  set (la := Z.log2 a) in *. set (lb := Z.log2 b) in *.
  pose proof (Z.pow_pos_nonneg 2 la ltac:(lia) Hla) as Hpa.
  pose proof (Z.pow_pos_nonneg 2 lb ltac:(lia) Hlb) as Hpb.
  destruct (Z.leb_spec 0 (la - lb)) as [He|He].
  - destruct (Z.leb_spec (b * 2 ^ (la - lb)) a) as [Ht|Ht]; [split; lia|].
    split; intros H.
    + assert (E : 2 ^ la = 2 ^ lb * 2 * 2 ^ (la - lb - 1)).
      { replace la with (lb + 1 + (la - lb - 1)) at 1 by lia.
        rewrite !Z.pow_add_r by lia. reflexivity. }
      assert (0 < 2 ^ (la - lb - 1)) by (apply Z.pow_pos_nonneg; lia).
      nia.
    + assert (Hl : lb = la) by lia. replace (- (la - lb - 1)) with 1 by lia.
      rewrite Hl in *. change (2 ^ 1) with 2. lia.
  - destruct (Z.leb_spec b (a * 2 ^ (- (la - lb)))) as [Ht|Ht]; [split; lia|].
    split; intros H; [lia|].
    replace (- (la - lb - 1)) with (lb + 1 - la) by lia.
    assert (E : 2 ^ la * 2 ^ (lb + 1 - la) = 2 * 2 ^ lb).
    { rewrite <- Z.pow_add_r by lia. replace (la + (lb + 1 - la)) with (Z.succ lb) by lia.
      apply Z.pow_succ_r. lia. }
    assert (0 < 2 ^ (lb + 1 - la)) by (apply Z.pow_pos_nonneg; lia).
    nia.
Qed.

Lemma ilog2_int n : 0 < n -> ilog2 n 1 = Z.log2 n.
Proof.
  intros Hn. unfold ilog2. cbv zeta. change (Z.log2 1) with 0. rewrite Z.sub_0_r.
  pose proof (Z.log2_nonneg n). pose proof (Z.log2_spec n Hn) as [H1 _].
  destruct (Z.leb_spec 0 (Z.log2 n)); [|lia].
  destruct (Z.leb_spec (1 * 2 ^ Z.log2 n) n); lia.
Qed.

(** The rounded value depends on the number only, not on the fraction that
    denotes it; rounding commutes with the sign. *)
Lemma Qred_inject_Z n : Qred (inject_Z n) = inject_Z n.
Proof. apply Qred_identity. simpl. apply Z.gcd_1_r. Qed.

Lemma round64_Qeq (q q' : Q) : (q == q')%Q -> round64 q = round64 q'.
Proof. intros H. unfold round64. by rewrite (Qred_complete q q' H). Qed.

Lemma round64_zero (q : Q) : (q == 0)%Q -> round64 q = 0%Q.
Proof. intros H. rewrite (round64_Qeq q 0 H). reflexivity. Qed.

Lemma dyadic_nonneg m p : 0 <= p -> dyadic m p = inject_Z (m * 2 ^ p).
Proof.
  intros Hp. unfold dyadic. destruct (Z.leb_spec 0 p); [|lia]. apply Qred_inject_Z.
Qed.

Lemma dyadic_neg m p : p < 0 -> (dyadic m p == m # Z.to_pos (2 ^ (- p)))%Q.
Proof.
  intros Hp. unfold dyadic. destruct (Z.leb_spec 0 p); [lia|]. apply Qred_correct.
Qed.

Lemma dyadic_opp m p : dyadic (- m) p = (- dyadic m p)%Q.
Proof.
  unfold dyadic. rewrite <- Qred_opp. destruct (0 <=? p).
  - rewrite Z.mul_opp_l. reflexivity.
  - reflexivity.
Qed.

Lemma round64_opp (q : Q) : round64 (- q) = (- round64 q)%Q.
Proof.
  unfold round64. rewrite Qred_opp. destruct (Qred q) as [a b]. simpl.
  destruct a as [|a|a]; simpl.
  - reflexivity.
  - destruct (round_pos (Z.pos a) (Z.pos b)) as [m p]. apply dyadic_opp.
  - destruct (round_pos (Z.pos a) (Z.pos b)) as [m p].
    rewrite dyadic_opp. destruct (dyadic m p) as [x y]. unfold Qopp. simpl.
    by rewrite Z.opp_involutive.
Qed.

(** A positive rational, reduced. *)
Lemma round64_positive (q : Q) :
  (0 < q)%Q ->
  exists a b, 0 < a /\ (a # b == q)%Q /\
              round64 q = (let '(m, p) := round_pos a (Zpos b) in dyadic m p).
Proof.
  intros Hq. unfold round64. pose proof (Qred_correct q) as Hr.
  destruct (Qred q) as [a b]. simpl.
  assert (Ha : 0 < a).
  { rewrite <- Hr in Hq. unfold Qlt in Hq. simpl in Hq. lia. }
  exists a, b. split; [exact Ha|]. split; [exact Hr|].
  destruct a; try lia. reflexivity.
Qed.

(** Rounding keeps a number within bounds that are doubles themselves: 0
    and 1, and integers of at most 53 bits. *)
Lemma pow2_le_1 e : 0 <= e -> 2 ^ e <= 1 -> e = 0.
Proof.
  intros He H. destruct (Z.eq_dec e 0) as [|Hne]; [assumption|].
  pose proof (Z.pow_le_mono_r 2 1 e ltac:(lia) ltac:(lia)). change (2 ^ 1) with 2 in *. lia.
Qed.

Lemma round64_unit (q : Q) :
  (0 <= q)%Q -> (q <= 1)%Q -> (0 <= round64 q)%Q /\ (round64 q <= 1)%Q.
Proof.
  intros H0 H1. destruct (Qlt_le_dec 0 q) as [Hpos|Hneg].
  - destruct (round64_positive q Hpos) as (a & b & Ha & Hq & ->).
    assert (Hab : a <= Zpos b).
    { rewrite <- Hq in H1. unfold Qle in H1. simpl in H1. lia. }
    unfold round_pos. cbv zeta.
    destruct (ilog2_lower a (Zpos b) Ha ltac:(lia)) as [Hl1 Hl2].
    assert (He : ilog2 a (Zpos b) <= 0).
    { destruct (Z.lt_ge_cases (ilog2 a (Zpos b)) 0) as [|Hge]; [lia|].
      specialize (Hl1 Hge).
      pose proof (Z.pow_pos_nonneg 2 (ilog2 a (Z.pos b)) ltac:(lia) Hge).
      assert (2 ^ ilog2 a (Z.pos b) <= 1) by nia.
      rewrite (pow2_le_1 _ Hge); lia. }
    set (p := Z.max (ilog2 a (Z.pos b) - 52) (-1074)).
    assert (Hp : p < 0) by lia.
    destruct (Z.leb_spec 0 p); [lia|].
    assert (Hk : 0 < 2 ^ (- p)) by (apply Z.pow_pos_nonneg; lia).
    destruct (rne_bounds (a * 2 ^ (- p)) (Zpos b) 0 (2 ^ (- p))) as [Hm1 Hm2]; [lia|lia|nia|].
    rewrite (dyadic_neg _ p Hp). unfold Qle. simpl. rewrite Z2Pos.id by exact Hk. lia.
  - rewrite round64_zero; [split; [apply Qle_refl|discriminate]|].
    by apply Qle_antisym.
Qed.

Lemma round64_between (lo hi : Z) (q : Q) :
  1 <= lo -> hi < 2 ^ 53 ->
  (inject_Z lo <= q)%Q -> (q <= inject_Z hi)%Q ->
  (inject_Z lo <= round64 q)%Q /\ (round64 q <= inject_Z hi)%Q.
Proof.
  intros Hlo Hhi H1 H2.
  assert (Hpos : (0 < q)%Q).
  { eapply Qlt_le_trans; [|exact H1]. unfold Qlt. simpl. lia. }
  destruct (round64_positive q Hpos) as (a & b & Ha & Hq & ->).
  rewrite <- Hq in H1, H2. unfold Qle in H1, H2. simpl in H1, H2.
  unfold round_pos. cbv zeta.
  destruct (ilog2_lower a (Zpos b) Ha ltac:(lia)) as [Hl1 _].
  assert (He : ilog2 a (Zpos b) <= 52).
  { destruct (Z.lt_ge_cases (ilog2 a (Zpos b)) 0) as [|Hge]; [lia|].
    specialize (Hl1 Hge).
    assert (2 ^ ilog2 a (Z.pos b) < 2 ^ 53) by nia.
    apply Z.pow_lt_mono_r_iff in H; lia. }
  set (p := Z.max (ilog2 a (Z.pos b) - 52) (-1074)).
  assert (Hp : p <= 0) by lia.
  destruct (Z.leb_spec 0 p) as [Hp0|Hp0].
  - assert (p = 0) as -> by lia. change (2 ^ 0) with 1. rewrite Z.mul_1_r.
    destruct (rne_bounds a (Zpos b) lo hi) as [Hm1 Hm2]; [lia|lia|lia|].
    rewrite dyadic_nonneg by lia. change (2 ^ 0) with 1. rewrite Z.mul_1_r.
    rewrite <- !Zle_Qle. lia.
  - assert (Hk : 0 < 2 ^ (- p)) by (apply Z.pow_pos_nonneg; lia).
    destruct (rne_bounds (a * 2 ^ (- p)) (Zpos b) (lo * 2 ^ (- p)) (hi * 2 ^ (- p)))
      as [Hm1 Hm2]; [lia|nia|nia|].
    rewrite (dyadic_neg _ p Hp0). unfold Qle. simpl. rewrite Z2Pos.id by exact Hk. lia.
Qed.

(** The conversion of a non-negative integer: exact up to [2 ^ 53], within
    half a unit of the 53rd bit beyond, within the binade, monotone. *)
Lemma nearest_exact n : 0 <= n <= 2 ^ 53 -> nearest n = n.
Proof.
  intros Hn. unfold nearest. cbv zeta. destruct (Z.leb_spec (Z.log2 n) 52) as [|He]; [reflexivity|].
  assert (Hpos : 0 < n).
  { destruct (Z.eq_dec n 0) as [->|]; [simpl in He; lia|lia]. }
  pose proof (Z.log2_spec n Hpos) as [H1 H2].
  assert (Hle : Z.log2 n <= 53).
  { pose proof (Z.log2_le_mono n (2 ^ 53) ltac:(lia)) as H.
    rewrite Z.log2_pow2 in H by lia. exact H. }
  assert (E : Z.log2 n = 53) by lia. rewrite E in *.
  assert (n = 2 ^ 53) as -> by lia. reflexivity.
Qed.

Lemma nearest_error n :
  0 < n -> 2 * Z.abs (nearest n - n) <= 2 ^ (Z.log2 n - 52).
Proof.
  intros Hn. unfold nearest. cbv zeta.
  destruct (Z.leb_spec (Z.log2 n) 52) as [He|He].
  - rewrite Z.sub_diag. change (2 * Z.abs 0) with 0. apply Z.pow_nonneg. lia.
  - set (D := 2 ^ (Z.log2 n - 52)).
    assert (HD : 0 < D) by (apply Z.pow_pos_nonneg; lia).
    pose proof (Z.div_mod n D ltac:(lia)) as Hdm.
    pose proof (Z.mod_pos_bound n D HD) as Hm.
    destruct (rne_cases n D HD) as [[-> H]|[-> H]]; nia.
Qed.

Lemma nearest_binade n :
  0 < n -> 2 ^ Z.log2 n <= nearest n <= 2 ^ (Z.log2 n + 1).
Proof.
  intros Hn. pose proof (Z.log2_spec n Hn) as [H1 H2]. pose proof (Z.log2_nonneg n) as He.
  rewrite Z.pow_succ_r in H2 by assumption.
  rewrite Z.pow_add_r by lia. change (2 ^ 1) with 2.
  unfold nearest. cbv zeta. destruct (Z.leb_spec (Z.log2 n) 52) as [|Hb]; [lia|].
  set (p := Z.log2 n - 52) in *.
  assert (E : 2 ^ Z.log2 n = 2 ^ 52 * 2 ^ p).
  { rewrite <- Z.pow_add_r by lia. f_equal. lia. }
  assert (Hk : 0 < 2 ^ p) by (apply Z.pow_pos_nonneg; lia).
  destruct (rne_bounds n (2 ^ p) (2 ^ 52) (2 ^ 53)) as [Hm1 Hm2]; [lia|lia|lia|].
  nia.
Qed.

Lemma nearest_mono v t : 0 < v -> v <= t -> nearest v <= nearest t.
Proof.
  intros Hv Hvt. pose proof (Z.log2_le_mono v t Hvt) as Hl.
  pose proof (nearest_binade v Hv) as [_ Hbv]. pose proof (nearest_binade t ltac:(lia)) as [Hbt _].
  destruct (Z.eq_dec (Z.log2 v) (Z.log2 t)) as [E|E].
  - unfold nearest. cbv zeta. rewrite E. destruct (Z.leb_spec (Z.log2 t) 52); [lia|].
    assert (Hk : 0 < 2 ^ (Z.log2 t - 52)) by (apply Z.pow_pos_nonneg; lia).
    pose proof (rne_mono v t _ Hk Hvt). nia.
  - assert (2 ^ (Z.log2 v + 1) <= 2 ^ Z.log2 t).
    { apply Z.pow_le_mono_r; lia. }
    lia.
Qed.

Lemma rne_1 n : rne n 1 = n.
Proof. pose proof (rne_exact n 1 ltac:(lia)) as H. by rewrite Z.mul_1_r in H. Qed.

Lemma round64_int n : 0 <= n -> round64 (inject_Z n) = inject_Z (nearest n).
Proof.
  intros Hn. destruct (Z.eq_dec n 0) as [->|Hne]; [reflexivity|].
  assert (Hpos : 0 < n) by lia.
  unfold round64. rewrite Qred_inject_Z. simpl.
  destruct n as [|a|a]; try lia.
  unfold round_pos. cbv zeta. rewrite (ilog2_int (Zpos a) Hpos).
  pose proof (Z.log2_nonneg (Zpos a)) as He.
  rewrite Z.max_l by lia. unfold nearest. cbv zeta.
  set (n := Zpos a) in *. set (e := Z.log2 n) in *.
  destruct (Z.leb_spec 0 (e - 52)) as [Hp|Hp].
  - rewrite Z.mul_1_l, dyadic_nonneg by lia.
    destruct (Z.leb_spec e 52) as [He52|He52]; [|reflexivity].
    assert (e - 52 = 0) as -> by lia. change (2 ^ 0) with 1.
    by rewrite rne_1, Z.mul_1_r.
  - destruct (Z.leb_spec e 52) as [He52|He52]; [|lia].
    rewrite rne_1. unfold dyadic. destruct (Z.leb_spec 0 (e - 52)); [lia|].
    rewrite <- (Qred_inject_Z n). apply Qred_complete.
    assert (Hk : 0 < 2 ^ (- (e - 52))) by (apply Z.pow_pos_nonneg; lia).
    unfold Qeq. simpl. rewrite Z2Pos.id by exact Hk. lia.
Qed.

(** [float(n)] *)
Lemma Qle_bool_inject x y : Qle_bool (inject_Z x) (inject_Z y) = (x <=? y).
Proof. unfold Qle_bool. simpl. by rewrite !Z.mul_1_r. Qed.

Lemma float_small n : 0 <= n < 2 ^ 1023 -> float n = Return (inject_Z (nearest n)).
Proof.
  intros Hn. unfold float. cbv zeta. rewrite round64_int by lia.
  assert (Hb : 0 <= nearest n < 2 ^ 1024).
  { destruct (Z.eq_dec n 0) as [->|Hne]; [split; [reflexivity|reflexivity]|].
    pose proof (nearest_binade n ltac:(lia)) as [H1 H2].
    assert (Hl : Z.log2 n < 1023) by (apply Z.log2_lt_pow2; lia).
    assert (2 ^ (Z.log2 n + 1) <= 2 ^ 1023) by (apply Z.pow_le_mono_r; lia).
    pose proof (Z.pow_pos_nonneg 2 (Z.log2 n) ltac:(lia) (Z.log2_nonneg n)).
    assert (2 ^ 1023 < 2 ^ 1024) by (apply Z.pow_lt_mono_r; lia).
    lia. }
  change (Qabs (inject_Z (nearest n))) with (inject_Z (Z.abs (nearest n))).
  rewrite Qle_bool_inject, Z.abs_eq by lia.
  destruct (Z.leb_spec (2 ^ 1024) (nearest n)); [lia|reflexivity].
Qed.

Lemma float_exact n : 0 <= n <= 2 ^ 53 -> float n = Return (inject_Z n).
Proof.
  intros Hn. assert (2 ^ 53 < 2 ^ 1023) by (apply Z.pow_lt_mono_r; lia).
  rewrite float_small by lia. by rewrite nearest_exact.
Qed.

Lemma ratio_bounds w t :
  0 <= w <= t -> 0 < t -> (0 <= inject_Z w / inject_Z t)%Q /\ (inject_Z w / inject_Z t <= 1)%Q.
Proof.
  intros Hw Ht. unfold Qdiv, Qmult, Qinv, Qle. destruct t as [|p|p]; try lia.
  simpl. split; lia.
Qed.

Lemma float_raises n e : float n = Raise e -> e = OverflowError.
Proof. unfold float. cbv zeta. destruct (Qle_bool _ _); congruence. Qed.

Lemma float_returns n f : float n = Return f -> f = round64 (inject_Z n).
Proof. unfold float. cbv zeta. destruct (Qle_bool _ _); congruence. Qed.

(** [float(x) / y] *)
Lemma nearest_pos n : 0 < n -> 0 < nearest n.
Proof.
  intros Hn. pose proof (nearest_binade n Hn) as [H _].
  pose proof (Z.pow_pos_nonneg 2 (Z.log2 n) ltac:(lia) (Z.log2_nonneg n)). lia.
Qed.

Lemma round64_nonzero y : y <> 0 -> Qeq_bool (round64 (inject_Z y)) 0 = false.
Proof.
  intros Hy. destruct (Z.lt_trichotomy y 0) as [H|[H|H]]; [|lia|].
  - assert (E : inject_Z y = (- inject_Z (- y))%Q)
      by (unfold Qopp, inject_Z; simpl; f_equal; lia).
    rewrite E, round64_opp, round64_int by lia.
    pose proof (nearest_pos (- y) ltac:(lia)) as Hp.
    unfold Qeq_bool. simpl. apply Z.eqb_neq. lia.
  - rewrite round64_int by lia. pose proof (nearest_pos y H) as Hp.
    unfold Qeq_bool. simpl. apply Z.eqb_neq. lia.
Qed.

Lemma float_div_raises x y e : float_div x y = Raise e -> y <> 0 -> e = OverflowError.
Proof.
  intros H Hy. unfold float_div in H.
  destruct (float x) as [fx|ex] eqn:Ex; [|injection H as <-; by apply (float_raises x)].
  destruct (float y) as [fy|ey] eqn:Ey; [|injection H as <-; by apply (float_raises y)].
  apply float_returns in Ey. subst fy. by rewrite round64_nonzero in H.
Qed.

Lemma float_div_zero y p : float_div 0 y = Return p -> p = Float 0.
Proof.
  unfold float_div. change (float 0) with (Return (A:=Q) 0%Q).
  destruct (float y) as [fy|]; [|discriminate].
  destruct (Qeq_bool fy 0); [discriminate|]. intros [= <-].
  reflexivity.
Qed.

Lemma float_div_small x y :
  0 <= x < 2 ^ 1023 -> 0 < y < 2 ^ 1023 ->
  float_div x y = Return (Float (round64 (inject_Z (nearest x) / inject_Z (nearest y)))).
Proof.
  intros Hx Hy. unfold float_div. rewrite (float_small x Hx), (float_small y) by lia.
  pose proof (nearest_pos y ltac:(lia)) as Hp.
  destruct (Qeq_bool (inject_Z (nearest y)) 0) eqn:E; [|reflexivity].
  apply Qeq_bool_iff in E. unfold Qeq in E. simpl in E. lia.
Qed.

Lemma float_div_exact x y :
  0 <= x <= 2 ^ 53 -> 0 < y <= 2 ^ 53 ->
  float_div x y = Return (Float (round64 (inject_Z x / inject_Z y))).
Proof.
  intros Hx Hy. assert (2 ^ 53 < 2 ^ 1023) by (apply Z.pow_lt_mono_r; lia).
  rewrite float_div_small by lia. by rewrite !nearest_exact by lia.
Qed.

Lemma float_div_unit x y p :
  0 <= x <= y -> 0 < y -> float_div x y = Return p ->
  (0 <= num_value p)%Q /\ (num_value p <= 1)%Q.
Proof.
  intros Hx Hy H. unfold float_div in H.
  destruct (float x) as [fx|] eqn:Ex; [|discriminate].
  destruct (float y) as [fy|] eqn:Ey; [|discriminate].
  destruct (Qeq_bool fy 0); [discriminate|]. injection H as <-.
  apply float_returns in Ex, Ey. rewrite round64_int in Ex, Ey by lia. subst fx fy.
  simpl. apply round64_unit; apply ratio_bounds; try by apply nearest_pos.
  all: destruct (Z.eq_dec x 0) as [->|Hne];
    [change (nearest 0) with 0; pose proof (nearest_pos y Hy); lia
    |pose proof (nearest_pos x ltac:(lia)); pose proof (nearest_mono x y ltac:(lia) ltac:(lia)); lia].
Qed.

(** The model agrees with the Standard Library's specification of IEEE 754
    arithmetic (binary64: a precision of 53 bits, exponents up to 1024) on
    conversions around the 53 bits of a double and around the largest
    double, and on quotients that are exact, rounded, and subnormal. *)
Example float_agrees_with_specification :
  forallb (fun n => match float n, spec_value (spec_float_of n) with
                    | Return f, Some q => Qeq_bool f q
                    | Raise OverflowError, None => true
                    | _, _ => false
                    end)
          [0; 1; -3; 2 ^ 53 + 1; 2 ^ 53 + 3; - (2 ^ 53 + 1); 12345678901234567;
           2 ^ 1024 - 2 ^ 970 - 1; 2 ^ 1024 - 2 ^ 970; 2 ^ 1024; - 2 ^ 1024] = true.
Proof. vm_compute. reflexivity. Qed.

Example float_div_agrees_with_specification :
  forallb (fun xy => match float_div (fst xy) (snd xy), spec_float_div (fst xy) (snd xy) with
                     | Return (Float q), Some q' => Qeq_bool q q'
                     | _, _ => false
                     end)
          [(1, 3); (2, 3); (5, 10); (-1, 3); (1, -3); (12345678901234567, 7);
           (2 ^ 80 + 1, 2 ^ 30 + 7); (1, 2 ^ 1023); (1, 2 ^ 1023 + 12345);
           (3, 2 ^ 1024 - 2 ^ 971); (1, 2 ^ 1022 + 1); (7, 2 ^ 1021 + 99)] = true.
Proof. vm_compute. reflexivity. Qed.

(** ** The tests of one call *)

Lemma outcomes_length n n_atk n_def g : length (outcomes n n_atk n_def g) = n.
Proof.
  revert g. induction n as [|n IH]; intros g; simpl; [reflexivity|].
  destruct (AI.battle n_atk n_def g) as [[a d] g']. simpl. by rewrite IH.
Qed.

Lemma wins_bounds os : 0 <= wins os <= Z.of_nat (length os).
Proof.
  unfold wins. pose proof (List.filter_length_le attacker_won os). lia.
Qed.

Lemma wins_samples os : Z.of_nat (length (attacker_samples os)) = wins os.
Proof. unfold attacker_samples, wins. by rewrite length_map. Qed.

Lemma samples_cons a d os :
  attacker_samples ((a, d) :: os) =
    (if d =? 0 then a :: attacker_samples os else attacker_samples os) /\
  defender_samples ((a, d) :: os) =
    (if d =? 0 then defender_samples os else d :: defender_samples os) /\
  wins ((a, d) :: os) = (if d =? 0 then wins os + 1 else wins os).
Proof.
  unfold attacker_samples, defender_samples, wins, attacker_won. cbn [List.filter snd].
  destruct (d =? 0); cbn [negb map length fst snd]; repeat split; lia.
Qed.

(** The accumulators after [n] tests are the samples and the number of wins
    of the [n] battles, appended to what was there. *)
Lemma run_tests_outcomes n n_atk n_def t g :
  let os := outcomes n n_atk n_def g in
  fst (AI.run_tests n n_atk n_def (t, g)) =
  AI.mkTally (AI.a_survive t ++ attacker_samples os)
             (AI.d_survive t ++ defender_samples os)
             (AI.victory t + wins os).
Proof.
  revert t g. induction n as [|n IH]; intros t g; cbn [outcomes AI.run_tests].
  - destruct t; simpl. rewrite !app_nil_r. f_equal. unfold wins. simpl. lia.
  - unfold AI.test. destruct (AI.battle n_atk n_def g) as [[a d] g'] eqn:Eb.
    cbv zeta. destruct (samples_cons a d (outcomes n n_atk n_def g')) as (-> & -> & ->).
    destruct (d =? 0); rewrite IH; cbn [AI.a_survive AI.d_survive AI.victory];
      rewrite <- ?app_assoc; simpl; f_equal; lia.
Qed.

Lemma defeats_samples os :
  Z.of_nat (length (defender_samples os)) = Z.of_nat (length os) - wins os.
Proof.
  unfold defender_samples, wins. rewrite length_map.
  pose proof (List.filter_length attacker_won os). lia.
Qed.

(** ** How a battle ends *)

(** An exchange removes as many pieces as there are pairs of dice. *)
Lemma exchange_total a d g :
  1 < a -> 0 < d ->
  let '(a', d', _) := AI.exchange a d g in
  a' + d' = a + d - Z.min (Z.min (a - 1) 3) (Z.min d 2) /\ a' <= a /\ d' <= d.
Proof.
  intros Ha Hd. rewrite exchange_rolls.
  pose proof (exchange_paired a d g Ha Hd) as Hp. cbv zeta in Hp.
  match goal with
  | |- context [attacker_losses ?x ?y] =>
      pose proof (losses_total x y); pose proof (losses_nonneg x y)
  end.
  lia.
Qed.

Lemma battle_loop_settles fuel a d g a' d' g' :
  AI.battle_loop fuel a d g = Some (a', d', g') ->
  1 <= a -> 0 <= d -> 2 <= a \/ 1 <= d ->
  ((d' = 0 /\ 2 <= a') \/ (a' = 1 /\ 1 <= d')) /\ a' <= a /\ d' <= d.
Proof.
  revert a d g. induction fuel as [|fuel IH]; intros a d g Hl Ha Hd Hor.
  - simpl in Hl. destruct ((1 <? a) && (0 <? d)) eqn:Hc; [discriminate|].
    injection Hl as <- <- <-.
    apply andb_false_iff in Hc as [H|H]; apply Z.ltb_ge in H; lia.
  - destruct ((1 <? a) && (0 <? d)) eqn:Hc.
    + rewrite battle_loop_step in Hl by exact Hc.
      apply andb_true_iff in Hc as [Ha' Hd']. apply Z.ltb_lt in Ha', Hd'.
      pose proof (exchange_total a d g Ha' Hd') as Hx.
      pose proof (exchange_decreases a d g Ha' Hd') as Hy.
      destruct (AI.exchange a d g) as [[a1 d1] g1].
      destruct (IH a1 d1 g1 Hl) as (H1 & H2 & H3); lia.
    + rewrite battle_loop_exit in Hl by exact Hc. injection Hl as <- <- <-.
      apply andb_false_iff in Hc as [H|H]; apply Z.ltb_ge in H; lia.
Qed.

Lemma outcomes_settle n n_atk n_def g :
  1 <= n_atk -> 1 <= n_def ->
  Forall (fun o => (snd o = 0 /\ 2 <= fst o <= n_atk) \/ (fst o = 1 /\ 1 <= snd o <= n_def))
         (outcomes n n_atk n_def g).
Proof.
  intros Ha Hd. revert g. induction n as [|n IH]; intros g; simpl; [constructor|].
  pose proof (battle_loop_battle (Z.to_nat (n_atk + n_def)) n_atk n_def g (le_n _)) as Hl.
  destruct (AI.battle n_atk n_def g) as [[a d] g'].
  destruct (battle_loop_settles _ _ _ _ _ _ _ Hl) as (H1 & H2 & H3); try lia.
  constructor; [simpl; lia|apply IH].
Qed.

Lemma samples_ranges os n_atk n_def :
  Forall (fun o => (snd o = 0 /\ 2 <= fst o <= n_atk) \/ (fst o = 1 /\ 1 <= snd o <= n_def)) os ->
  Forall (fun x => 2 <= x <= n_atk) (attacker_samples os) /\
  Forall (fun x => 1 <= x <= n_def) (defender_samples os).
Proof.
  induction 1 as [|[a d] os Ho _ [IH1 IH2]].
  - split; constructor.
  - destruct (samples_cons a d os) as (-> & -> & _). simpl in Ho.
    destruct (Z.eqb_spec d 0); split; try assumption; constructor; try assumption; lia.
Qed.

Lemma fold_add_bounds lo hi l acc :
  Forall (fun x => lo <= x <= hi) l ->
  acc + lo * Z.of_nat (length l) <= fold_left Z.add l acc <= acc + hi * Z.of_nat (length l).
Proof.
  intros H. revert acc. induction H as [|x l Hx _ IH]; intros acc; simpl fold_left.
  - simpl. lia.
  - specialize (IH (acc + x)). rewrite length_cons. lia.
Qed.

Lemma sum_bounds lo hi l :
  Forall (fun x => lo <= x <= hi) l ->
  lo * Z.of_nat (length l) <= sum l <= hi * Z.of_nat (length l).
Proof. intros H. pose proof (fold_add_bounds lo hi l 0 H). unfold sum. lia. Qed.

Lemma average_bounds lo hi s n :
  0 < n -> lo * n <= s <= hi * n ->
  (inject_Z lo <= inject_Z s / inject_Z n)%Q /\ (inject_Z s / inject_Z n <= inject_Z hi)%Q.
Proof.
  intros Hn Hs. split.
  - apply Qle_shift_div_l.
    + change (inject_Z 0 < inject_Z n)%Q. by rewrite <- Zlt_Qlt.
    + rewrite <- inject_Z_mult, <- Zle_Qle. lia.
  - apply Qle_shift_div_r.
    + change (inject_Z 0 < inject_Z n)%Q. by rewrite <- Zlt_Qlt.
    + rewrite <- inject_Z_mult, <- Zle_Qle. lia.
Qed.

(** The samples of [tests] battles: every win leaves between 2 and [n_atk]
    attackers, every defeat between 1 and [n_def] defenders. *)
Lemma tally_bounds n_atk n_def tests g :
  1 <= n_atk -> 1 <= n_def -> 0 <= tests ->
  let os := outcomes (Z.to_nat tests) n_atk n_def g in
  0 <= wins os <= tests /\
  2 * wins os <= sum (attacker_samples os) <= n_atk * wins os /\
  tests - wins os <= sum (defender_samples os) <= n_def * (tests - wins os).
Proof.
  intros Ha Hd Ht os.
  destruct (samples_ranges os n_atk n_def (outcomes_settle _ _ _ _ Ha Hd)) as [Has Hds].
  pose proof (sum_bounds _ _ _ Has) as Hsa. pose proof (sum_bounds _ _ _ Hds) as Hsd.
  pose proof (wins_samples os) as Hw. pose proof (defeats_samples os) as Hl.
  pose proof (wins_bounds os) as Hwb.
  pose proof (outcomes_length (Z.to_nat tests) n_atk n_def g) as Hn. fold os in Hn.
  rewrite Hw in Hsa. rewrite Hl, Hn, Z2Nat.id in Hsd by lia. rewrite Hn, Z2Nat.id in Hwb by lia.
  split; [exact Hwb|]. split; [exact Hsa|lia].
Qed.

(** ** The statistics *)

(** With [tests] other than 0 the statistics fail only where an integer is
    beyond the doubles. *)
Lemma summary_raises t tests e :
  AI.summary t tests = Raise e -> tests <> 0 -> e = OverflowError.
Proof.
  unfold AI.summary. intros H Ht.
  destruct (float_div (AI.victory t) tests) as [p|e1] eqn:E1;
    [|injection H as <-; by apply (float_div_raises _ _ _ E1)].
  destruct (Z.eqb_spec (AI.victory t) 0) as [Hv|Hv].
  - destruct (Z.eqb_spec (tests - AI.victory t) 0) as [Hd|Hd]; [discriminate|].
    destruct (float_div (sum (AI.d_survive t)) (tests - AI.victory t)) as [sd|e3] eqn:E3;
      [discriminate|].
    injection H as <-. by apply (float_div_raises _ _ _ E3).
  - destruct (float_div (sum (AI.a_survive t)) (AI.victory t)) as [sa|e2] eqn:E2;
      [|injection H as <-; by apply (float_div_raises _ _ _ E2)].
    destruct (Z.eqb_spec (tests - AI.victory t) 0) as [Hd|Hd]; [discriminate|].
    destruct (float_div (sum (AI.d_survive t)) (tests - AI.victory t)) as [sd|e3] eqn:E3;
      [discriminate|].
    injection H as <-. by apply (float_div_raises _ _ _ E3).
Qed.

(** The statistics returned are the three quotients, each one as the float
    division gives it. *)
Lemma summary_returns t tests v :
  AI.summary t tests = Return v ->
  float_div (AI.victory t) tests = Return (probability_of_victory v) /\
  (if AI.victory t =? 0 then avg_surviving_attackers v = Int 0
   else float_div (sum (AI.a_survive t)) (AI.victory t) =
        Return (avg_surviving_attackers v)) /\
  (if tests - AI.victory t =? 0 then avg_surviving_defenders v = Int 0
   else float_div (sum (AI.d_survive t)) (tests - AI.victory t) =
        Return (avg_surviving_defenders v)).
Proof.
  unfold AI.summary. intros H.
  destruct (float_div (AI.victory t) tests) as [p|e1]; [|discriminate].
  destruct (AI.victory t =? 0).
  - destruct (tests - AI.victory t =? 0).
    + injection H as <-. by repeat split.
    + destruct (float_div (sum (AI.d_survive t)) (tests - AI.victory t)); [|discriminate].
      injection H as <-. by repeat split.
  - destruct (float_div (sum (AI.a_survive t)) (AI.victory t)); [|discriminate].
    destruct (tests - AI.victory t =? 0).
    + injection H as <-. by repeat split.
    + destruct (float_div (sum (AI.d_survive t)) (tests - AI.victory t)); [|discriminate].
      injection H as <-. by repeat split.
Qed.

(** Counts within the doubles give statistics. *)
Lemma summary_small t tests :
  0 <= AI.victory t <= tests -> 0 < tests < 2 ^ 1023 ->
  0 <= sum (AI.a_survive t) < 2 ^ 1023 -> 0 <= sum (AI.d_survive t) < 2 ^ 1023 ->
  exists v, AI.summary t tests = Return v.
Proof.
  intros Hv Ht Ha Hd. unfold AI.summary.
  rewrite (float_div_small (AI.victory t) tests) by lia.
  destruct (Z.eqb_spec (AI.victory t) 0) as [E|E];
    [|rewrite (float_div_small (sum (AI.a_survive t)) (AI.victory t)) by lia];
    (destruct (Z.eqb_spec (tests - AI.victory t) 0) as [E'|E'];
      [|rewrite (float_div_small (sum (AI.d_survive t)) (tests - AI.victory t)) by lia]);
    eauto.
Qed.

(** Counts of at most 53 bits are converted as they are, and each quotient is
    rounded once. *)
Lemma summary_exact t tests :
  0 <= AI.victory t <= tests -> 0 < tests <= 2 ^ 53 ->
  0 <= sum (AI.a_survive t) <= 2 ^ 53 -> 0 <= sum (AI.d_survive t) <= 2 ^ 53 ->
  AI.summary t tests =
  Return (mkStats
            (Float (round64 (inject_Z (AI.victory t) / inject_Z tests)))
            (if AI.victory t =? 0 then Int 0
             else Float (round64 (inject_Z (sum (AI.a_survive t)) / inject_Z (AI.victory t))))
            (if tests - AI.victory t =? 0 then Int 0
             else Float (round64 (inject_Z (sum (AI.d_survive t)) /
                                  inject_Z (tests - AI.victory t))))).
Proof.
  intros Hv Ht Ha Hd. unfold AI.summary.
  rewrite (float_div_exact (AI.victory t) tests) by lia.
  destruct (Z.eqb_spec (AI.victory t) 0) as [E|E];
    [|rewrite (float_div_exact (sum (AI.a_survive t)) (AI.victory t)) by lia];
    (destruct (Z.eqb_spec (tests - AI.victory t) 0) as [E'|E'];
      [|rewrite (float_div_exact (sum (AI.d_survive t)) (tests - AI.victory t)) by lia]);
    reflexivity.
Qed.

Lemma summary_zero_tests t : AI.summary t 0 = Raise ZeroDivisionError \/
                             AI.summary t 0 = Raise OverflowError.
Proof.
  unfold AI.summary, float_div. destruct (float (AI.victory t)) as [f|e] eqn:E.
  - left. reflexivity.
  - right. by rewrite (float_raises _ _ E).
Qed.

Lemma simulate_hit n_atk n_def tests s v :
  _sim_cache s !! (n_atk, n_def) = Some v ->
  AI.simulate n_atk n_def tests s = (Return v, s).
Proof. intros H. unfold AI.simulate. by rewrite H. Qed.

(** A call whose key is not in the cache: the statistics of the outcomes of
    its tests, stored when there is no error. *)
Lemma simulate_fresh n_atk n_def tests s :
  _sim_cache s !! (n_atk, n_def) = None ->
  let os := outcomes (Z.to_nat tests) n_atk n_def (rand s) in
  let g := snd (AI.run_tests (Z.to_nat tests) n_atk n_def (AI.mkTally [] [] 0, rand s)) in
  AI.simulate n_atk n_def tests s =
  match AI.summary (AI.mkTally (attacker_samples os) (defender_samples os) (wins os)) tests with
  | Return v => (Return v, mkProcess (<[(n_atk, n_def) := v]> (_sim_cache s)) g)
  | Raise e => (Raise e, mkProcess (_sim_cache s) g)
  end.
Proof.
  intros Hc os g. unfold AI.simulate. rewrite Hc.
  pose proof (run_tests_outcomes (Z.to_nat tests) n_atk n_def (AI.mkTally [] [] 0) (rand s)) as Ho.
  subst g. destruct (AI.run_tests (Z.to_nat tests) n_atk n_def (AI.mkTally [] [] 0, rand s))
    as [t g] eqn:Er.
  cbn [fst snd AI.a_survive AI.d_survive AI.victory app] in Ho. rewrite Z.add_0_l in Ho.
  fold os in Ho. rewrite Ho. by destruct (AI.summary _ tests).
Qed.


(** With [tests] other than 0 a call whose key is not in the cache returns
    statistics, stored under its key, or raises [OverflowError] and stores
    nothing. *)
Lemma simulate_miss n_atk n_def tests s :
  _sim_cache s !! (n_atk, n_def) = None ->
  tests <> 0 ->
  (exists v g,
     AI.simulate n_atk n_def tests s =
     (Return v, mkProcess (<[(n_atk, n_def) := v]> (_sim_cache s)) g)) \/
  (exists g,
     AI.simulate n_atk n_def tests s =
     (Raise OverflowError, mkProcess (_sim_cache s) g)).
Proof.
  intros Hc Ht. rewrite (simulate_fresh n_atk n_def tests s Hc). cbv zeta.
  destruct (AI.summary _ tests) as [v|e] eqn:E; [left; eauto|right].
  rewrite (summary_raises _ _ _ E Ht). eauto.
Qed.

(** The call returns when the forces of all the tests together are within
    the doubles. *)
Lemma simulate_returns n_atk n_def tests s :
  1 <= n_atk -> 1 <= n_def -> 1 <= tests ->
  n_atk * tests < 2 ^ 1023 -> n_def * tests < 2 ^ 1023 ->
  exists v s', AI.simulate n_atk n_def tests s = (Return v, s').
Proof.
  intros Ha Hd Ht Hba Hbd. destruct (_sim_cache s !! (n_atk, n_def)) as [v|] eqn:Hc.
  - exists v, s. by apply simulate_hit.
  - rewrite (simulate_fresh n_atk n_def tests s Hc). cbv zeta.
    destruct (tally_bounds n_atk n_def tests (rand s) Ha Hd ltac:(lia)) as (Hw & Hsa & Hsd).
    cbv zeta in Hw, Hsa, Hsd.
    set (os := outcomes (Z.to_nat tests) n_atk n_def (rand s)) in *.
    destruct (summary_small (AI.mkTally (attacker_samples os) (defender_samples os) (wins os))
                tests) as [v Hv]; cbn [AI.victory AI.a_survive AI.d_survive]; try nia.
    rewrite Hv. eauto.
Qed.

(** C6. Termination: an iteration of the battle loop, entered with
    [a > 1] and [d > 0], strictly decreases [a + d]; hence for initial forces
    [n_atk >= 1] and [n_def >= 1] the loop of every test reaches its exit
    within [n_atk + n_def] iterations, whatever the dice, and [simulate]
    with [tests >= 1] ends: it returns statistics, or, once the tests are
    over, raises [OverflowError] for a count beyond the doubles; it returns
    whenever [n_atk * tests] and [n_def * tests] are below [2 ^ 1023]. *)
Theorem simulate_terminates (n_atk n_def tests : Z) (s : process) :
  1 <= n_atk -> 1 <= n_def -> 1 <= tests ->
  (forall a d g, 1 < a -> 0 < d ->
     let '(a', d', _) := AI.exchange a d g in a' + d' <= a + d - 1) /\
  (forall g,
     (forall fuel, (Z.to_nat (n_atk + n_def) <= fuel)%nat ->
        AI.battle_loop fuel n_atk n_def g = Some (AI.battle n_atk n_def g)) /\
     let '(a', d', _) := AI.battle n_atk n_def g in ~ (1 < a' /\ 0 < d')) /\
  ((exists v s', AI.simulate n_atk n_def tests s = (Return v, s')) \/
   (exists s', AI.simulate n_atk n_def tests s = (Raise OverflowError, s'))) /\
  (n_atk * tests < 2 ^ 1023 -> n_def * tests < 2 ^ 1023 ->
   exists v s', AI.simulate n_atk n_def tests s = (Return v, s')).
Proof.
  intros Ha Hd Ht. split; [|split; [|split]].
  - intros a d g Ha' Hd'. pose proof (exchange_decreases a d g Ha' Hd') as Hx.
    destruct (AI.exchange a d g) as [[a' d'] g']. simpl in *. lia.
  - intros g. split.
    + intros fuel Hf. by apply battle_loop_battle.
    + pose proof (battle_final n_atk n_def g) as Hexit.
      destruct (AI.battle n_atk n_def g) as [[a' d'] g'].
      apply andb_false_iff in Hexit as [H|H]; apply Z.ltb_ge in H; lia.
  - destruct (_sim_cache s !! (n_atk, n_def)) as [v|] eqn:Hc.
    + left. exists v, s. by apply simulate_hit.
    + destruct (simulate_miss n_atk n_def tests s Hc ltac:(lia)) as [(v & g & Hs)|(g & Hs)];
        [left|right]; eauto.
  - intros Hba Hbd. by apply simulate_returns.
Qed.

Lemma simulate_terminates_witness :
  1 <= 3 /\ 1 <= 2 /\ 1 <= 2 /\
  exists v s', AI.simulate 3 2 2 example_process = (Return v, s').
Proof.
  split; [lia|split; [lia|split; [lia|]]].
  destruct (simulate_terminates 3 2 2 example_process) as (_ & _ & _ & H); [lia|lia|lia|].
  apply H; reflexivity.
Defined.

(** C4. One exchange, entered with [a > 1] and [d > 0]: the attacker rolls
    [min(a-1, 3)] dice and then the defender [min(d, 2)], each die in
    [1..6]; each roll is put in descending order; the dice are paired
    position by position up to the shorter roll, the others having no
    effect; a pair costs the defender one piece when the attacker's die is
    strictly greater and the attacker one piece otherwise.  With the rolls
    [6,5,4] and [6,3] the exchange costs one attacker and one defender. *)
Theorem exchange_resolution (a d : Z) (g : rng) :
  1 < a -> 0 < d ->
  exists atk_raw def_raw g1 g2,
    AI.roll (Z.to_nat (Z.min (a - 1) 3)) g = (atk_raw, g1) /\
    AI.roll (Z.to_nat (Z.min d 2)) g1 = (def_raw, g2) /\
    Z.of_nat (length atk_raw) = Z.min (a - 1) 3 /\
    Z.of_nat (length def_raw) = Z.min d 2 /\
    Forall (fun x => 1 <= x <= 6) atk_raw /\
    Forall (fun x => 1 <= x <= 6) def_raw /\
    let atk_roll := sorted id true atk_raw in
    let def_roll := sorted id true def_raw in
    Permutation atk_roll atk_raw /\ descending atk_roll /\
    Permutation def_roll def_raw /\ descending def_roll /\
    AI.exchange a d g =
      (a - attacker_losses atk_roll def_roll,
       d - defender_losses atk_roll def_roll, g2) /\
    attacker_losses atk_roll def_roll + defender_losses atk_roll def_roll =
      Z.of_nat (Nat.min (length atk_roll) (length def_roll)) /\
    (atk_roll = [6; 5; 4] -> def_roll = [6; 3] ->
     AI.exchange a d g = (a - 1, d - 1, g2)).
Proof.
  intros Ha Hd.
  pose proof (exchange_rolls a d g) as Hx. cbv zeta in Hx.
  pose proof (roll_length (Z.to_nat (Z.min (a - 1) 3)) g) as Hla.
  pose proof (roll_range (Z.to_nat (Z.min (a - 1) 3)) g) as Hra.
  destruct (AI.roll (Z.to_nat (Z.min (a - 1) 3)) g) as [atk_raw g1] eqn:Ea.
  cbn [fst snd] in *.
  pose proof (roll_length (Z.to_nat (Z.min d 2)) g1) as Hld.
  pose proof (roll_range (Z.to_nat (Z.min d 2)) g1) as Hrd.
  destruct (AI.roll (Z.to_nat (Z.min d 2)) g1) as [def_raw g2] eqn:Ed.
  cbn [fst snd] in *.
  exists atk_raw, def_raw, g1, g2.
  split; [reflexivity|]. split; [exact Ed|].
  split; [lia|]. split; [lia|]. split; [exact Hra|]. split; [exact Hrd|].
  cbv zeta.
  split; [apply sorted_perm|]. split; [apply sorted_descending|].
  split; [apply sorted_perm|]. split; [apply sorted_descending|].
  split; [exact Hx|]. split; [apply losses_total|].
  intros Eatk Edef. rewrite Hx, Eatk, Edef. reflexivity.
Qed.

Lemma exchange_resolution_witness :
  1 < 4 /\ 0 < 2 /\
  exists g2, AI.exchange 4 2 (generator [3; 5; 4; 2; 5]) = (4 - 1, 2 - 1, g2).
Proof.
  split; [lia|split; [lia|]].
  destruct (exchange_resolution 4 2 (generator [3; 5; 4; 2; 5]))
    as (atk_raw & def_raw & g1 & g2 & Ha & Hd & _ & _ & _ & _ & _ & _ & _ & _ & _ & _ & Hex);
    [lia|lia|].
  exists g2. vm_compute in Ha. injection Ha as <- <-.
  vm_compute in Hd. injection Hd as <- <-.
  apply Hex; reflexivity.
Defined.

(** ** The aggregate of a fresh call *)

Lemma ratio_cancel d t : t <> 0 -> (inject_Z (d * t) / inject_Z t == inject_Z d)%Q.
Proof.
  intros Ht. rewrite inject_Z_mult. apply Qdiv_mult_l.
  intros H. apply (inject_Z_injective t 0) in H. contradiction.
Qed.

Lemma fold_add_repeat d n acc : fold_left Z.add (repeat d n) acc = acc + d * Z.of_nat n.
Proof.
  revert acc. induction n as [|n IH]; intros acc; simpl repeat; simpl fold_left; [lia|].
  rewrite IH. lia.
Qed.

Lemma sum_repeat d n : sum (repeat d n) = d * Z.of_nat n.
Proof. unfold sum. rewrite fold_add_repeat. lia. Qed.

(** When the loop is not entered the battle leaves the generator alone. *)
Lemma run_tests_exit n a d t g :
  (1 <? a) && (0 <? d) = false ->
  snd (AI.run_tests n a d (t, g)) = g /\ outcomes n a d g = repeat (a, d) n.
Proof.
  intros Hc. revert t. induction n as [|n IH]; intros t; cbn [AI.run_tests outcomes repeat].
  - split; reflexivity.
  - unfold AI.test. rewrite (battle_exit a d g Hc). cbv zeta.
    destruct (d =? 0).
    + destruct (IH (AI.mkTally (AI.a_survive t ++ [a]) (AI.d_survive t) (AI.victory t + 1)))
        as [-> ->]. split; reflexivity.
    + destruct (IH (AI.mkTally (AI.a_survive t) (AI.d_survive t ++ [d]) (AI.victory t)))
        as [-> ->]. split; reflexivity.
Qed.

Lemma samples_repeat_defended a d n :
  d <> 0 ->
  wins (repeat (a, d) n) = 0 /\
  attacker_samples (repeat (a, d) n) = [] /\
  defender_samples (repeat (a, d) n) = repeat d n.
Proof.
  intros Hd. induction n as [|n (IH1 & IH2 & IH3)]; cbn [repeat].
  - repeat split.
  - destruct (samples_cons a d (repeat (a, d) n)) as (-> & -> & ->).
    destruct (Z.eqb_spec d 0); [contradiction|].
    rewrite IH1, IH2, IH3. repeat split.
Qed.

(** When the battle loop is not entered no die is rolled: the call gives the
    statistics of [tests] copies of the forces. *)
Lemma simulate_idle n_atk n_def tests s :
  _sim_cache s !! (n_atk, n_def) = None ->
  (1 <? n_atk) && (0 <? n_def) = false ->
  let os := repeat (n_atk, n_def) (Z.to_nat tests) in
  AI.simulate n_atk n_def tests s =
  match AI.summary (AI.mkTally (attacker_samples os) (defender_samples os) (wins os)) tests with
  | Return v => (Return v, mkProcess (<[(n_atk, n_def) := v]> (_sim_cache s)) (rand s))
  | Raise e => (Raise e, s)
  end.
Proof.
  intros Hc Hx os. rewrite (simulate_fresh _ _ _ _ Hc). cbv zeta.
  destruct (run_tests_exit (Z.to_nat tests) n_atk n_def (AI.mkTally [] [] 0) (rand s) Hx)
    as [-> ->].
  fold os. destruct (AI.summary _ tests); [reflexivity|by destruct s].
Qed.

(** C3, as the code has it.  A fresh [simulate(1, n_def, tests)] with
    [n_def >= 1] and [tests >= 1] never enters the battle loop (no die is
    rolled) and every test ends with the attacker at 1 and the defender at
    [n_def].  The call raises [OverflowError], or it stores and returns
    statistics with probability of victory 0, the integer 0 for the
    attackers, and for the defenders the float quotient of [n_def * tests] by
    [tests].  When [n_def * tests] is at most [2 ^ 53] it returns, and the
    average of the surviving defenders is [n_def]. *)
Theorem simulate_single_attacker (n_def tests : Z) (s : process) :
  1 <= n_def -> 1 <= tests -> _sim_cache s !! (1, n_def) = None ->
  outcomes (Z.to_nat tests) 1 n_def (rand s) = repeat (1, n_def) (Z.to_nat tests) /\
  ((exists v,
      AI.simulate 1 n_def tests s =
        (Return v, mkProcess (<[(1, n_def) := v]> (_sim_cache s)) (rand s)) /\
      (num_value (probability_of_victory v) == 0)%Q /\
      avg_surviving_attackers v = Int 0 /\
      float_div (n_def * tests) tests = Return (avg_surviving_defenders v)) \/
   AI.simulate 1 n_def tests s = (Raise OverflowError, s)) /\
  (n_def * tests <= 2 ^ 53 ->
   exists v,
     AI.simulate 1 n_def tests s =
       (Return v, mkProcess (<[(1, n_def) := v]> (_sim_cache s)) (rand s)) /\
     (num_value (probability_of_victory v) == 0)%Q /\
     avg_surviving_attackers v = Int 0 /\
     (num_value (avg_surviving_defenders v) == inject_Z n_def)%Q).
Proof.
  intros Hd Ht Hc.
  destruct (run_tests_exit (Z.to_nat tests) 1 n_def (AI.mkTally [] [] 0) (rand s) eq_refl)
    as [_ Ho].
  split; [exact Ho|].
  pose proof (simulate_idle 1 n_def tests s Hc eq_refl) as Hs. cbv zeta in Hs.
  destruct (samples_repeat_defended 1 n_def (Z.to_nat tests) ltac:(lia)) as (Hw & Ha & Hds).
  rewrite Hw, Ha, Hds in Hs.
  assert (Hsum : sum (repeat n_def (Z.to_nat tests)) = n_def * tests)
    by (rewrite sum_repeat, Z2Nat.id by lia; reflexivity).
  split.
  - destruct (AI.summary _ tests) as [v|e] eqn:E.
    + left. exists v. split; [exact Hs|].
      apply summary_returns in E as (E1 & E2 & E3).
      cbn [AI.victory AI.a_survive AI.d_survive Z.eqb] in E1, E2, E3.
      apply float_div_zero in E1. rewrite E1.
      destruct (Z.eqb_spec (tests - 0) 0) as [|_]; [lia|].
      rewrite Hsum, Z.sub_0_r in E3. by repeat split.
    + right. by rewrite (summary_raises _ _ _ E ltac:(lia)) in Hs.
  - intros Hb.
    rewrite summary_exact in Hs; cbn [AI.victory AI.a_survive AI.d_survive];
      rewrite ?Hsum; try (change (sum []) with 0); try nia.
    cbn [AI.victory AI.a_survive AI.d_survive Z.eqb] in Hs. rewrite Hsum in Hs.
    destruct (Z.eqb_spec (tests - 0) 0) as [|_]; [lia|].
    eexists. split; [exact Hs|].
    cbn [probability_of_victory avg_surviving_attackers avg_surviving_defenders num_value].
    split; [|split; [reflexivity|]].
    + rewrite round64_zero; [reflexivity|]. unfold Qdiv. apply Qmult_0_l.
    + rewrite Z.sub_0_r, (round64_Qeq _ (inject_Z n_def)) by (apply ratio_cancel; lia).
      rewrite round64_int, nearest_exact by nia. reflexivity.
Qed.

Lemma simulate_single_attacker_witness :
  1 <= 4 /\ 1 <= 3 /\ 4 * 3 <= 2 ^ 53 /\
  fst (AI.simulate 1 4 3 (fresh [])) = Return (mkStats (Float 0) (Int 0) (Float 4)).
Proof.
  split; [lia|split; [lia|]].
  destruct (simulate_single_attacker 4 3 (fresh [])) as (_ & _ & H);
    [lia|lia|reflexivity|].
  assert (Hb : 4 * 3 <= 2 ^ 53) by (vm_compute; discriminate).
  split; [exact Hb|]. destruct (H Hb) as (v & Hs & _). reflexivity.
Defined.

(** C3 fails as stated: the average is a float.  One test with
    [2 ^ 53 + 1] defenders returns the average [2 ^ 53], the double nearest
    to the number of the surviving defenders, which is not [n_def]. *)
Lemma simulate_single_attacker_rounded :
  fst (AI.simulate 1 (2 ^ 53 + 1) 1 (fresh [])) =
    Return (mkStats (Float 0) (Int 0) (Float (inject_Z (2 ^ 53)))) /\
  ~ (inject_Z (2 ^ 53) == inject_Z (2 ^ 53 + 1))%Q.
Proof.
  split.
  - rewrite (simulate_idle 1 (2 ^ 53 + 1) 1 (fresh []) eq_refl eq_refl). reflexivity.
  - intros H. vm_compute in H. discriminate H.
Qed.

(** Nor does the call always return: forces beyond the doubles raise
    [OverflowError], whichever count they are in. *)
Example simulate_overflow_defenders :
  AI.simulate 1 (2 ^ 1024) 1 (fresh []) = (Raise OverflowError, fresh []).
Proof. rewrite (simulate_idle 1 (2 ^ 1024) 1 (fresh []) eq_refl eq_refl). reflexivity. Qed.

Example simulate_overflow_attackers :
  AI.simulate (2 ^ 1024) 0 1 (fresh []) = (Raise OverflowError, fresh []).
Proof. rewrite (simulate_idle (2 ^ 1024) 0 1 (fresh []) eq_refl eq_refl). reflexivity. Qed.

Example simulate_overflow_tests :
  AI.simulate 3 2 (- 2 ^ 1024) (fresh []) = (Raise OverflowError, fresh []).
Proof. reflexivity. Qed.

(** C5, as the code has it.  When the key is cached, [simulate] returns the
    stored statistics and runs no test.  Otherwise, for [n_atk, n_def,
    tests >= 1], it runs [tests] battles, [wins] of them won.  It raises
    [OverflowError], or returns statistics: the probability of victory is
    the float quotient of [wins] by [tests] and lies between 0 and 1; the
    average of the surviving attackers is the float quotient of their sum by
    [wins], or the integer 0 without a win; the average of the surviving
    defenders is the float quotient of their sum by [tests - wins], or the
    integer 0 when every test was won.  When [n_atk * tests] and
    [n_def * tests] are at most [2 ^ 53] the call returns and each float
    quotient is the double nearest to the exact quotient. *)
Theorem simulate_aggregation (n_atk n_def tests : Z) (s : process) :
  1 <= n_atk -> 1 <= n_def -> 1 <= tests ->
  match _sim_cache s !! (n_atk, n_def) with
  | Some v => AI.simulate n_atk n_def tests s = (Return v, s)
  | None =>
      let os := outcomes (Z.to_nat tests) n_atk n_def (rand s) in
      Z.of_nat (length os) = tests /\
      Z.of_nat (length (attacker_samples os)) = wins os /\
      Z.of_nat (length (defender_samples os)) = tests - wins os /\
      ((exists v s',
          AI.simulate n_atk n_def tests s = (Return v, s') /\
          float_div (wins os) tests = Return (probability_of_victory v) /\
          (0 <= num_value (probability_of_victory v))%Q /\
          (num_value (probability_of_victory v) <= 1)%Q /\
          (wins os = 0 -> avg_surviving_attackers v = Int 0) /\
          (wins os <> 0 ->
           float_div (sum (attacker_samples os)) (wins os) =
             Return (avg_surviving_attackers v)) /\
          (wins os = tests -> avg_surviving_defenders v = Int 0) /\
          (wins os <> tests ->
           float_div (sum (defender_samples os)) (tests - wins os) =
             Return (avg_surviving_defenders v))) \/
       (exists s', AI.simulate n_atk n_def tests s = (Raise OverflowError, s'))) /\
      (n_atk * tests <= 2 ^ 53 -> n_def * tests <= 2 ^ 53 ->
       exists v s',
         AI.simulate n_atk n_def tests s = (Return v, s') /\
         probability_of_victory v =
           Float (round64 (inject_Z (wins os) / inject_Z tests)) /\
         (wins os <> 0 ->
          avg_surviving_attackers v =
            Float (round64 (inject_Z (sum (attacker_samples os)) / inject_Z (wins os)))) /\
         (wins os <> tests ->
          avg_surviving_defenders v =
            Float (round64 (inject_Z (sum (defender_samples os)) /
                            inject_Z (tests - wins os)))))
  end.
Proof.
  intros Ha Hd Ht.
  destruct (_sim_cache s !! (n_atk, n_def)) as [w|] eqn:Hc; [by apply simulate_hit|].
  intros os.
  pose proof (simulate_fresh n_atk n_def tests s Hc) as Hs. cbv zeta in Hs. fold os in Hs.
  pose proof (outcomes_length (Z.to_nat tests) n_atk n_def (rand s)) as Hl. fold os in Hl.
  destruct (tally_bounds n_atk n_def tests (rand s) Ha Hd ltac:(lia)) as (Hw & Hsa & Hsd).
  cbv zeta in Hw, Hsa, Hsd. fold os in Hw, Hsa, Hsd.
  split; [lia|]. split; [apply wins_samples|].
  split; [rewrite defeats_samples; lia|]. split.
  - destruct (AI.summary _ tests) as [v|e] eqn:E.
    + left. eexists. eexists. split; [exact Hs|].
      apply summary_returns in E as (E1 & E2 & E3).
      cbn [AI.victory AI.a_survive AI.d_survive] in E1, E2, E3.
      split; [exact E1|].
      destruct (float_div_unit _ _ _ Hw ltac:(lia) E1) as [Hlo Hhi].
      split; [exact Hlo|]. split; [exact Hhi|].
      destruct (Z.eqb_spec (wins os) 0) as [Ew|Ew];
        destruct (Z.eqb_spec (tests - wins os) 0) as [Ed|Ed];
        (split; [intros ?; try exact E2; lia|]);
        (split; [intros ?; try exact E2; lia|]);
        (split; [intros ?; try exact E3; lia|]);
        intros ?; try exact E3; lia.
    + right. rewrite (summary_raises _ _ _ E ltac:(lia)) in Hs. eauto.
  - intros Hba Hbd.
    rewrite summary_exact in Hs; cbn [AI.victory AI.a_survive AI.d_survive]; try nia.
    cbn [AI.victory AI.a_survive AI.d_survive] in Hs.
    eexists. eexists. split; [exact Hs|].
    cbn [probability_of_victory avg_surviving_attackers avg_surviving_defenders].
    split; [reflexivity|]. split.
    + intros Hn. destruct (Z.eqb_spec (wins os) 0); [contradiction|reflexivity].
    + intros Hn. destruct (Z.eqb_spec (tests - wins os) 0); [lia|reflexivity].
Qed.

Lemma simulate_aggregation_witness :
  1 <= 3 /\ 1 <= 2 /\ 1 <= 2 /\ 3 * 2 <= 2 ^ 53 /\ 2 * 2 <= 2 ^ 53 /\
  exists v s', AI.simulate 3 2 2 example_process = (Return v, s') /\
               probability_of_victory v = Float (1 / 2).
Proof.
  split; [lia|split; [lia|split; [lia|]]].
  assert (Hba : 3 * 2 <= 2 ^ 53) by (vm_compute; discriminate).
  assert (Hbd : 2 * 2 <= 2 ^ 53) by (vm_compute; discriminate).
  split; [exact Hba|]. split; [exact Hbd|].
  pose proof (simulate_aggregation 3 2 2 example_process
                ltac:(lia) ltac:(lia) ltac:(lia)) as H.
  assert (Hc : _sim_cache example_process !! (3, 2) = None) by reflexivity.
  rewrite Hc in H. destruct H as (_ & _ & _ & _ & H).
  destruct (H Hba Hbd) as (v & s' & Hs & Hp & _).
  exists v, s'. split; [exact Hs|]. rewrite Hp. reflexivity.
Defined.

(** C5 fails as stated when the key is cached: the tests are not run and
    the statistics are those of the earlier call.  After
    [simulate(3, 2, 2)] has stored the probability 1/2, [simulate(3, 2, 1)]
    returns it, and 1/2 is no number of wins out of one test. *)
Lemma simulate_cached_not_aggregated :
  AI.simulate 3 2 1 example_cached = (Return example_stats, example_cached) /\
  forall wins : Z,
    ~ (num_value (probability_of_victory example_stats) == inject_Z wins / inject_Z 1)%Q.
Proof.
  split; [reflexivity|].
  intros w H. unfold Qeq in H. simpl in H. lia.
Qed.

(** ** The cache *)

Lemma simulate_stores n_atk n_def tests s v s' :
  AI.simulate n_atk n_def tests s = (Return v, s') ->
  _sim_cache s' !! (n_atk, n_def) = Some v.
Proof.
  unfold AI.simulate. destruct (_sim_cache s !! (n_atk, n_def)) as [w|] eqn:Hc.
  - intros [= <- <-]. exact Hc.
  - destruct (AI.run_tests _ _ _ _) as [t g].
    destruct (AI.summary t tests) as [w|e]; intros [= <- <-].
    simpl. apply lookup_insert_eq.
Qed.

(** A call keeps every entry of the cache as it is. *)
Lemma simulate_keeps n_atk n_def tests s k w :
  _sim_cache s !! k = Some w ->
  _sim_cache (snd (AI.simulate n_atk n_def tests s)) !! k = Some w.
Proof.
  intros Hk. unfold AI.simulate.
  destruct (_sim_cache s !! (n_atk, n_def)) as [v|] eqn:Hc; [exact Hk|].
  destruct (AI.run_tests _ _ _ _) as [t g].
  destruct (AI.summary t tests) as [v|e]; simpl; [|exact Hk].
  rewrite lookup_insert_ne; [exact Hk|]. intros <-. congruence.
Qed.

Lemma run_calls_keeps calls s k w :
  _sim_cache s !! k = Some w -> _sim_cache (run_calls calls s) !! k = Some w.
Proof.
  unfold run_calls. revert s. induction calls as [|[[a d] t] calls IH]; intros s Hk.
  - exact Hk.
  - simpl. apply IH. by apply simulate_keeps.
Qed.



(** Negative [tests] are not rejected either, and [tests = 0] fails in the
    arithmetic. *)
Example simulate_negative_tests :
  fst (AI.simulate 3 2 (-1) (fresh [])) = Return (mkStats (Float 0) (Int 0) (Float 0)).
Proof. reflexivity. Qed.

Example simulate_zero_tests :
  AI.simulate 3 2 0 (fresh []) = (Raise ZeroDivisionError, fresh []).
Proof. reflexivity. Qed.

(** C2. The cache is idempotent and append-only: once [simulate(n_atk,
    n_def, tests)] has returned statistics they are stored under the key;
    the call has kept every entry that was there; and after any further
    calls of [simulate], whatever their arguments and results, every entry
    is still there unchanged and a call with the same key returns the very
    same statistics without drawing from the random source or touching the
    cache. *)
Theorem simulate_cache_idempotent (n_atk n_def tests : Z) (s s1 : process) (v : stats) :
  AI.simulate n_atk n_def tests s = (Return v, s1) ->
  _sim_cache s1 !! (n_atk, n_def) = Some v /\
  (forall k w, _sim_cache s !! k = Some w -> _sim_cache s1 !! k = Some w) /\
  forall (calls : list (Z * Z * Z)) (tests' : Z),
    let s2 := run_calls calls s1 in
    (forall k w, _sim_cache s1 !! k = Some w -> _sim_cache s2 !! k = Some w) /\
    AI.simulate n_atk n_def tests' s2 = (Return v, s2).
Proof.
  intros Hs. pose proof (simulate_stores _ _ _ _ _ _ Hs) as Hv.
  split; [exact Hv|]. split.
  - intros k w Hk. pose proof (simulate_keeps n_atk n_def tests s k w Hk) as H.
    by rewrite Hs in H.
  - intros calls tests' s2. split.
    + intros k w Hk. by apply run_calls_keeps.
    + apply simulate_hit. by apply run_calls_keeps.
Qed.

Lemma simulate_cache_idempotent_witness :
  AI.simulate 3 2 2 example_process = (Return example_stats, example_cached) /\
  AI.simulate 3 2 2 (run_calls [(2, 1, 1); (3, 2, 0); (4, 4, 0)] example_cached) =
  (Return example_stats, run_calls [(2, 1, 1); (3, 2, 0); (4, 4, 0)] example_cached).
Proof.
  split; [reflexivity|].
  apply (simulate_cache_idempotent 3 2 2 example_process example_cached example_stats).
  reflexivity.
Defined.

(** C10. The number of tests is not part of the cache key: once
    [simulate(n_atk, n_def, tests1)] has stored its statistics, a call
    [simulate(n_atk, n_def, tests2)] with another number of tests returns
    those statistics and runs no test of its own (the process is left as it
    was). *)
Theorem simulate_ignores_tests (n_atk n_def tests1 tests2 : Z) (s s1 : process) (v : stats) :
  AI.simulate n_atk n_def tests1 s = (Return v, s1) ->
  tests2 <> tests1 ->
  AI.simulate n_atk n_def tests2 s1 = (Return v, s1).
Proof.
  intros Hs _. apply simulate_hit. eapply simulate_stores; exact Hs.
Qed.

Lemma simulate_ignores_tests_witness :
  AI.simulate 3 2 2 example_process = (Return example_stats, example_cached) /\
  1 <> 2 /\
  fst (AI.simulate 3 2 1 example_process) =
    Return (mkStats (Float (1 / 1)) (Float (3 / 1)) (Int 0)) /\
  AI.simulate 3 2 1 example_cached = (Return example_stats, example_cached).
Proof.
  split; [reflexivity|]. split; [lia|]. split; [reflexivity|].
  apply (simulate_ignores_tests 3 2 2 1 example_process example_cached example_stats).
  - reflexivity.
  - lia.
Defined.

(** ** The decision methods *)

Lemma index_In (l : list string) (x : string) :
  In x l -> exists i, index l x = Return i.
Proof.
  induction l as [|y l IH]; intros Hin; [destruct Hin|]. simpl.
  destruct (bool_decide (y = x)) eqn:E; [eauto|].
  apply bool_decide_eq_false in E. destruct Hin as [->|Hin]; [contradiction|].
  destruct (IH Hin) as [i ->]. eauto.
Qed.

Lemma with_keys_returns {A : Type} (key : A -> outcome Z) (l : list A) :
  Forall (fun x => exists k, key x = Return k) l ->
  exists kl, with_keys key l = Return kl /\ map snd kl = l.
Proof.
  induction 1 as [|x l [k Hk] _ (kl & Hkl & Hm)]; simpl.
  - exists []. split; reflexivity.
  - rewrite Hk, Hkl. exists ((k, x) :: kl). split; [reflexivity|]. simpl. by rewrite Hm.
Qed.

Lemma sorted_by_returns {A : Type} (key : A -> outcome Z) (l : list A) :
  Forall (fun x => exists k, key x = Return k) l ->
  exists l', sorted_by key l = Return l' /\ Permutation l' l.
Proof.
  intros Hk. destruct (with_keys_returns key l Hk) as (kl & Hkl & Hm).
  unfold sorted_by. rewrite Hkl. eexists. split; [reflexivity|].
  rewrite <- Hm. apply Permutation_map, sorted_perm.
Qed.

Lemma areas_known_keys (self : Self) (l : list Territory) :
  areas_known self l ->
  Forall (fun x => exists k, BetterAI.area_key self x = Return k) l.
Proof.
  unfold areas_known. intros H. eapply Forall_impl; [exact H|].
  intros t Ht. simpl in Ht. by apply index_In.
Qed.

Lemma filter_border_In (l : list Territory) (t : Territory) :
  In t (filter (fun t => border t = true) l) <-> border t = true /\ In t l.
Proof. rewrite <- !list_elem_of_In, list_elem_of_filter. reflexivity. Qed.

(** [priority] returns owned territories, and at least one when the player
    owns any. *)
Lemma priority_owned (self : Self) :
  areas_known self (territories (player self)) ->
  exists p, BetterAI.priority self = Return p /\
            (forall t, In t p -> In t (territories (player self))) /\
            (territories (player self) <> [] -> p <> []).
Proof.
  intros Hk. unfold BetterAI.priority.
  set (borders := filter (fun t => border t = true) (territories (player self))).
  assert (Hb : forall t, In t borders -> In t (territories (player self))).
  { intros t Ht. by apply filter_border_In in Ht as [_ Ht]. }
  assert (Hkb : areas_known self borders).
  { unfold areas_known in *. rewrite List.Forall_forall in *. auto. }
  destruct (sorted_by_returns _ _ (areas_known_keys self borders Hkb)) as (l' & -> & Hp).
  destruct l' as [|p0 l'].
  - simpl. eexists. split; [reflexivity|]. split; [auto|auto].
  - cbn [filter list_filter hd]. rewrite decide_True by reflexivity.
    eexists. split; [reflexivity|]. split; [|discriminate].
    intros t Ht. apply Hb. apply (Permutation_in _ Hp).
    destruct Ht as [<-|Ht]; [by left|right].
    apply list_elem_of_In. apply list_elem_of_In in Ht.
    by apply list_elem_of_filter in Ht as [_ Ht].
Qed.

(** *** Reinforcement dictionaries *)

Lemma total_insert_fresh (t : Territory) (n : Z) (m : gmap Territory Z) :
  m !! t = None -> total (<[t := n]> m) = n + total m.
Proof.
  intros Hn. unfold total. apply (map_fold_insert_L (fun _ v acc => v + acc)); [|exact Hn].
  intros. lia.
Qed.

Lemma total_incr (t : Territory) (m : gmap Territory Z) :
  total (incr t m) = total m + 1.
Proof.
  unfold incr. destruct (m !! t) as [n|] eqn:Hl; simpl.
  - rewrite <- (insert_delete_eq m).
    rewrite total_insert_fresh by apply lookup_delete_eq.
    rewrite <- (insert_delete_id m t n Hl) at 2.
    rewrite total_insert_fresh by apply lookup_delete_eq. lia.
  - rewrite total_insert_fresh by exact Hl. lia.
Qed.

Lemma counts_on_empty (pool : list Territory) : counts_on pool ∅.
Proof. intros t n H. by rewrite lookup_empty in H. Qed.

Lemma counts_on_incr (pool : list Territory) (t : Territory) (m : gmap Territory Z) :
  In t pool -> counts_on pool m -> counts_on pool (incr t m).
Proof.
  intros Ht Hm k n. unfold incr. rewrite lookup_insert. case_decide as Hk.
  - subst k. intros [= <-]. split; [|exact Ht].
    destruct (m !! t) as [n0|] eqn:E; simpl; [|lia].
    destruct (Hm t n0 E). lia.
  - apply Hm.
Qed.

Lemma better_loop_exit fuel priority result g :
  BetterAI.reinforce_loop fuel priority result 0 g = Some (Return result, g).
Proof. destruct fuel; reflexivity. Qed.

Lemma better_loop_step fuel priority result available g t g' :
  available <> 0 ->
  choice priority g = (Return t, g') ->
  BetterAI.reinforce_loop (S fuel) priority result available g =
  BetterAI.reinforce_loop fuel priority (incr t result) (available - 1) g'.
Proof.
  intros Ha Hc. cbn [BetterAI.reinforce_loop].
  destruct (Z.eqb_spec available 0); [contradiction|]. by rewrite Hc.
Qed.

(** The loop [while available] of [BetterAI.reinforce] ends after
    [available] iterations, each of which adds one piece to a territory of
    [priority]. *)
Lemma better_loop_contract (pool priority : list Territory) (n : nat) :
  priority <> [] -> (forall t, In t priority -> In t pool) ->
  forall (result : gmap Territory Z) (g : rng),
    counts_on pool result ->
    exists m g',
      (forall fuel, (n <= fuel)%nat ->
         BetterAI.reinforce_loop fuel priority result (Z.of_nat n) g = Some (Return m, g')) /\
      total m = total result + Z.of_nat n /\ counts_on pool m.
Proof.
  intros Hne Hsub. induction n as [|n IH]; intros result g Hres.
  - exists result, g. split; [|split; [simpl; lia|exact Hres]].
    intros fuel _. apply better_loop_exit.
  - destruct (choice_In priority g Hne) as (t & Ht & Hc).
    destruct (IH (incr t result) (advance g)) as (m & g' & Hrun & Htot & Hcnt).
    { apply counts_on_incr; auto. }
    exists m, g'. split; [|split; [|exact Hcnt]].
    + intros fuel Hf. destruct fuel as [|fuel]; [lia|].
      rewrite (better_loop_step fuel priority result _ g t (advance g)) by (lia || exact Hc).
      replace (Z.of_nat (S n) - 1) with (Z.of_nat n) by lia. apply Hrun. lia.
    + rewrite Htot, total_incr. lia.
Qed.

Lemma stupid_loop_contract (pool border : list Territory) (n : nat) :
  border <> [] -> (forall t, In t border -> In t pool) ->
  forall (result : gmap Territory Z) (g : rng),
    counts_on pool result ->
    exists m g',
      StupidAI.reinforce_loop n border result g = (Return m, g') /\
      total m = total result + Z.of_nat n /\ counts_on pool m.
Proof.
  intros Hne Hsub. induction n as [|n IH]; intros result g Hres.
  - exists result, g. split; [reflexivity|split; [simpl; lia|exact Hres]].
  - destruct (choice_In border g Hne) as (t & Ht & Hc).
    destruct (IH (incr t result) (advance g)) as (m & g' & Hrun & Htot & Hcnt).
    { apply counts_on_incr; auto. }
    exists m, g'. split; [|split; [|exact Hcnt]].
    + cbn [StupidAI.reinforce_loop]. unfold bind. rewrite Hc. exact Hrun.
    + rewrite Htot, total_incr. lia.
Qed.

(** [BetterAI.reinforce] honours the contract of [reinforce] whenever the
    player owns a territory: the loop ends, and the dictionary returned
    holds non-negative counts on owned territories that sum to
    [available]. *)
Lemma better_reinforce_contract (self : Self) (available : Z) (g : rng) :
  0 <= available ->
  territories (player self) <> [] ->
  areas_known self (territories (player self)) ->
  exists result g',
    (forall fuel, (Z.to_nat available <= fuel)%nat ->
       BetterAI.reinforce fuel self available g = Some (Return result, g')) /\
    total result = available /\
    counts_on (territories (player self)) result.
Proof.
  intros Ha Hne Hk. destruct (priority_owned self Hk) as (p & Hp & Hsub & Hpne).
  destruct (better_loop_contract (territories (player self)) p (Z.to_nat available)
              (Hpne Hne) Hsub ∅ g (counts_on_empty _)) as (m & g' & Hrun & Htot & Hcnt).
  exists m, g'. split; [|split; [|exact Hcnt]].
  - intros fuel Hf. unfold BetterAI.reinforce. rewrite Hp.
    specialize (Hrun fuel Hf). by rewrite Z2Nat.id in Hrun.
  - rewrite Htot. unfold total. rewrite map_fold_empty. lia.
Qed.

(** So does [StupidAI.reinforce] when the player owns a border territory,
    or when there is nothing to place. *)
Lemma stupid_reinforce_contract (self : Self) (available : Z) (g : rng) :
  0 <= available ->
  (exists t, In t (territories (player self)) /\ border t = true) \/ available = 0 ->
  exists result g',
    StupidAI.reinforce self available g = (Return result, g') /\
    total result = available /\
    counts_on (territories (player self)) result.
Proof.
  intros Ha Hb. unfold StupidAI.reinforce.
  destruct Hb as [(t & Ht & Hbt)| ->].
  - destruct (stupid_loop_contract (territories (player self))
                (filter (fun t => border t = true) (territories (player self)))
                (Z.to_nat available)) with (result := (∅ : gmap Territory Z)) (g := g)
      as (m & g' & Hrun & Htot & Hcnt).
    + intros E. assert (Hin : In t (filter (fun t => border t = true) (territories (player self))))
        by (by apply filter_border_In). rewrite E in Hin. destruct Hin.
    + intros t' Ht'. by apply filter_border_In in Ht' as [_ Ht'].
    + apply counts_on_empty.
    + exists m, g'. split; [exact Hrun|]. split; [|exact Hcnt].
      rewrite Htot. unfold total. rewrite map_fold_empty. lia.
  - exists ∅, g. split; [reflexivity|]. split; [reflexivity|apply counts_on_empty].
Qed.

(** C8 fails for [StupidAI]: a player who owns territories, none of them a
    border, gets [IndexError] from [random.choice] instead of a dictionary
    for one piece to place. *)
Theorem stupid_reinforce_without_border :
  territories (player inland_agent) = [chile] /\
  StupidAI.reinforce inland_agent 1 (generator []) = (Raise IndexError, generator []).
Proof. split; reflexivity. Qed.

(** On the same input [BetterAI.reinforce] falls back on all the owned
    territories. *)
Example better_reinforce_without_border :
  exists g', BetterAI.reinforce 1 inland_agent 1 (generator []) =
             Some (Return {[ chile := 1 ]}, g').
Proof. eexists. reflexivity. Qed.

(** C7, as the code has it.  On the base class [initial_placement],
    [reinforce] and [attack] raise [NotImplementedError]; [freemove] has a
    default and returns [None] (no move), which a subclass that does not
    override it, such as [StupidAI], inherits. *)
Theorem base_class_decisions (self : Self) (empty : option (list Territory))
    (remaining available : Z) (g : rng) :
  AI.initial_placement self empty remaining g = (Raise NotImplementedError, g) /\
  AI.reinforce self available g = (Raise NotImplementedError, g) /\
  AI.attack self g = (Raise NotImplementedError, g) /\
  AI.freemove self g = (Return None, g) /\
  StupidAI.freemove self g = (Return None, g).
Proof. repeat split. Qed.

(** C7 fails as stated for [freemove]: called on the base class it does not
    raise, it returns [None]. *)
Lemma base_freemove_returns_none :
  AI.freemove agent (generator []) = (Return None, generator []) /\
  fst (AI.freemove agent (generator [])) <> Raise NotImplementedError.
Proof. split; [reflexivity|discriminate]. Qed.

(** C9. Initial placement: for an agent whose [area_priority] lists the
    areas involved, [BetterAI.initial_placement] and
    [StupidAI.initial_placement] return a member of [empty] when [empty] is a
    non-empty list; and when [empty] is [None] or the empty list, a
    territory the player owns (the player owning at least one). *)
Theorem initial_placement_contract (self : Self) (empty : option (list Territory))
    (remaining : Z) (g : rng) :
  areas_known self (default [] empty) ->
  areas_known self (territories (player self)) ->
  (truthy empty = false -> territories (player self) <> []) ->
  (exists t g',
     BetterAI.initial_placement self empty remaining g = (Return t, g') /\
     if truthy empty then In t (default [] empty) else In t (territories (player self))) /\
  (exists t g',
     StupidAI.initial_placement self empty remaining g = (Return t, g') /\
     if truthy empty then In t (default [] empty) else In t (territories (player self))).
Proof.
  intros Hke Hkt Hown. split.
  - unfold BetterAI.initial_placement. destruct (truthy empty) eqn:Et.
    + destruct (sorted_by_returns _ _ (areas_known_keys self _ Hke)) as (l' & Hl' & Hp).
      unfold bind, lift. rewrite Hl'.
      destruct l' as [|t l'].
      * destruct empty as [[|? ?]|]; try discriminate.
        apply Permutation_nil in Hp. discriminate.
      * exists t, g. split; [reflexivity|]. apply (Permutation_in _ Hp). by left.
    + destruct (priority_owned self Hkt) as (p & Hp & Hsub & Hpne).
      unfold bind, lift. rewrite Hp.
      destruct (choice_In p g (Hpne (Hown eq_refl))) as (t & Ht & Hc).
      exists t, (advance g). split; [exact Hc|auto].
  - unfold StupidAI.initial_placement. destruct (truthy empty) eqn:Et.
    + destruct empty as [[|t0 l]|]; try discriminate. cbn [default].
      destruct (choice_In (t0 :: l) g ltac:(discriminate)) as (t & Ht & Hc).
      exists t, (advance g). split; [exact Hc|exact Ht].
    + destruct (choice_In (territories (player self)) g (Hown eq_refl)) as (t & Ht & Hc).
      exists t, (advance g). split; [|exact Ht].
      unfold bind. rewrite Hc. reflexivity.
Qed.

Lemma initial_placement_contract_witness :
  areas_known agent [alaska; chile; peru] /\
  areas_known agent (territories (player agent)) /\
  (exists g', BetterAI.initial_placement agent (Some [alaska; chile; peru]) 5 (generator [7])
              = (Return chile, g')) /\
  (exists g', StupidAI.initial_placement agent (Some [alaska; chile; peru]) 5 (generator [7])
              = (Return chile, g')).
Proof.
  assert (H1 : areas_known agent [alaska; chile; peru]).
  { repeat constructor; simpl; tauto. }
  assert (H2 : areas_known agent (territories (player agent))).
  { repeat constructor; simpl; tauto. }
  split; [exact H1|]. split; [exact H2|].
  destruct (initial_placement_contract agent (Some [alaska; chile; peru]) 5 (generator [7])
              H1 H2 ltac:(discriminate)) as [(t & g' & Hb & _) (t' & g'' & Hs & _)].
  split.
  - exists g'. rewrite Hb. vm_compute in Hb. injection Hb as <- _. reflexivity.
  - exists g''. rewrite Hs. vm_compute in Hs. injection Hs as <- _. reflexivity.
Defined.

(** * Further properties of the simulator *)

(** X1. How a battle ends: for [n_atk >= 1] and [n_def >= 1] either the
    defender is wiped out and at least two of the attackers, and no more than
    [n_atk], are left; or the attacker is down to one piece and at least one
    of the defenders, and no more than [n_def], is left. *)
Theorem battle_settles (n_atk n_def : Z) (g : rng) :
  1 <= n_atk -> 1 <= n_def ->
  let '(a, d, _) := AI.battle n_atk n_def g in
  (d = 0 /\ 2 <= a <= n_atk) \/ (a = 1 /\ 1 <= d <= n_def).
Proof.
  intros Ha Hd.
  pose proof (battle_loop_battle (Z.to_nat (n_atk + n_def)) n_atk n_def g (le_n _)) as Hl.
  destruct (AI.battle n_atk n_def g) as [[a d] g'].
  destruct (battle_loop_settles _ _ _ _ _ _ _ Hl) as (H1 & H2 & H3); lia.
Qed.

Lemma battle_settles_witness :
  1 <= 3 /\ 1 <= 2 /\
  exists g', AI.battle 3 2 (generator [5; 4; 0; 0]) = (3, 0, g').
Proof.
  split; [lia|split; [lia|]].
  pose proof (battle_settles 3 2 (generator [5; 4; 0; 0]) ltac:(lia) ltac:(lia)) as H.
  destruct (AI.battle 3 2 (generator [5; 4; 0; 0])) as [[a d] g'] eqn:E.
  exists g'. vm_compute in E. injection E as <- <- _. reflexivity.
Defined.

(** X2. The averages of a computed entry: for [n_atk, n_def, tests >= 1]
    with [n_atk * tests] and [n_def * tests] below [2 ^ 53], and a key not
    yet cached, the call returns; the average of the surviving attackers is
    the integer 0 (no win) or lies between 2 and [n_atk]; the average of the
    surviving defenders is the integer 0 (no defeat) or lies between 1 and
    [n_def]. *)
Theorem simulate_survivor_bounds (n_atk n_def tests : Z) (s : process) :
  1 <= n_atk -> 1 <= n_def -> 1 <= tests ->
  n_atk * tests < 2 ^ 53 -> n_def * tests < 2 ^ 53 ->
  _sim_cache s !! (n_atk, n_def) = None ->
  exists v s',
    AI.simulate n_atk n_def tests s = (Return v, s') /\
    (avg_surviving_attackers v = Int 0 \/
     (2 <= num_value (avg_surviving_attackers v))%Q /\
     (num_value (avg_surviving_attackers v) <= inject_Z n_atk)%Q) /\
    (avg_surviving_defenders v = Int 0 \/
     (1 <= num_value (avg_surviving_defenders v))%Q /\
     (num_value (avg_surviving_defenders v) <= inject_Z n_def)%Q).
Proof.
  intros Ha Hd Ht Hba Hbd Hc.
  pose proof (simulate_fresh n_atk n_def tests s Hc) as Hs. cbv zeta in Hs.
  destruct (tally_bounds n_atk n_def tests (rand s) Ha Hd ltac:(lia)) as (Hw & Hsa & Hsd).
  cbv zeta in Hw, Hsa, Hsd.
  set (os := outcomes (Z.to_nat tests) n_atk n_def (rand s)) in *.
  rewrite summary_exact in Hs; cbn [AI.victory AI.a_survive AI.d_survive]; try nia.
  cbn [AI.victory AI.a_survive AI.d_survive] in Hs.
  eexists. eexists. split; [exact Hs|].
  cbn [avg_surviving_attackers avg_surviving_defenders]. split.
  - destruct (Z.eqb_spec (wins os) 0); [by left|right]. cbn [num_value].
    apply (round64_between 2 n_atk); [lia|nia|apply (average_bounds 2 n_atk); lia..].
  - destruct (Z.eqb_spec (tests - wins os) 0); [by left|right]. cbn [num_value].
    apply (round64_between 1 n_def); [lia|nia|apply (average_bounds 1 n_def); lia..].
Qed.

Lemma simulate_survivor_bounds_witness :
  1 <= 3 /\ 1 <= 2 /\ 1 <= 2 /\ 3 * 2 < 2 ^ 53 /\ 2 * 2 < 2 ^ 53 /\
  exists v s', AI.simulate 3 2 2 example_process = (Return v, s') /\
               (2 <= num_value (avg_surviving_attackers v))%Q.
Proof.
  split; [lia|split; [lia|split; [lia|]]].
  assert (Hba : 3 * 2 < 2 ^ 53) by reflexivity.
  assert (Hbd : 2 * 2 < 2 ^ 53) by reflexivity.
  split; [exact Hba|]. split; [exact Hbd|].
  destruct (simulate_survivor_bounds 3 2 2 example_process)
    as (v & s' & Hs & Ha & _); [lia|lia|lia|exact Hba|exact Hbd|reflexivity|].
  exists v, s'. split; [exact Hs|].
  destruct Ha as [Ha|[Ha _]]; [|exact Ha].
  vm_compute in Hs. injection Hs as <- _. discriminate Ha.
Defined.

(** Beyond [2 ^ 53] the rounding can take an average past the forces: one
    test with [2 ^ 53 + 3] defenders averages [2 ^ 53 + 4] of them. *)
Example simulate_average_rounded_up :
  fst (AI.simulate 1 (2 ^ 53 + 3) 1 (fresh [])) =
  Return (mkStats (Float 0) (Int 0) (Float (inject_Z (2 ^ 53 + 4)))).
Proof. rewrite (simulate_idle 1 (2 ^ 53 + 3) 1 (fresh []) eq_refl eq_refl). reflexivity. Qed.

Lemma exchange_rng a d g :
  let '(_, _, g') := AI.exchange a d g in
  tape g' = tape g /\
  draws g' = (draws g + Z.to_nat (Z.min (a - 1) 3) + Z.to_nat (Z.min d 2))%nat.
Proof.
  rewrite exchange_rolls. split.
  - by rewrite !roll_tape.
  - by rewrite !roll_draws.
Qed.

Lemma battle_loop_rng fuel a d g a' d' g' :
  AI.battle_loop fuel a d g = Some (a', d', g') ->
  tape g' = tape g /\ (draws g <= draws g')%nat.
Proof.
  revert a d g. induction fuel as [|fuel IH]; intros a d g Hl.
  - simpl in Hl. destruct ((1 <? a) && (0 <? d)); [discriminate|].
    injection Hl as <- <- <-. split; [reflexivity|lia].
  - destruct ((1 <? a) && (0 <? d)) eqn:Hc.
    + rewrite battle_loop_step in Hl by exact Hc.
      pose proof (exchange_rng a d g) as Hx.
      destruct (AI.exchange a d g) as [[a1 d1] g1]. destruct Hx as [Hx1 Hx2].
      destruct (IH a1 d1 g1 Hl) as [H1 H2]. split; [congruence|lia].
    + rewrite battle_loop_exit in Hl by exact Hc. injection Hl as <- <- <-.
      split; [reflexivity|lia].
Qed.

Lemma battle_rng a d g :
  let '(_, _, g') := AI.battle a d g in
  tape g' = tape g /\ (draws g <= draws g')%nat.
Proof.
  pose proof (battle_loop_battle (Z.to_nat (a + d)) a d g (le_n _)) as Hl.
  destruct (AI.battle a d g) as [[a' d'] g']. by apply battle_loop_rng in Hl.
Qed.

Lemma run_tests_rng n n_atk n_def t g :
  tape (snd (AI.run_tests n n_atk n_def (t, g))) = tape g /\
  (draws g <= draws (snd (AI.run_tests n n_atk n_def (t, g))))%nat.
Proof.
  revert t g. induction n as [|n IH]; intros t g; cbn [AI.run_tests].
  - split; [reflexivity|simpl; lia].
  - unfold AI.test. pose proof (battle_rng n_atk n_def g) as Hb.
    destruct (AI.battle n_atk n_def g) as [[a d] g']. destruct Hb as [Hb1 Hb2].
    destruct (d =? 0).
    + destruct (IH (AI.mkTally (AI.a_survive t ++ [a]) (AI.d_survive t) (AI.victory t + 1)) g')
        as [H1 H2]. split; [congruence|lia].
    + destruct (IH (AI.mkTally (AI.a_survive t) (AI.d_survive t ++ [d]) (AI.victory t)) g')
        as [H1 H2]. split; [congruence|lia].
Qed.

(** X3. A call works on its own key only: whatever the arguments and the
    result, the entry of every other key is after the call what it was
    before (present with the same statistics, or absent); the tape of the
    random source is unchanged and the count of the draws does not go
    back. *)
Theorem simulate_other_keys (n_atk n_def tests : Z) (s : process) (k : Z * Z) :
  k <> (n_atk, n_def) ->
  let s' := snd (AI.simulate n_atk n_def tests s) in
  _sim_cache s' !! k = _sim_cache s !! k /\
  tape (rand s') = tape (rand s) /\
  (draws (rand s) <= draws (rand s'))%nat.
Proof.
  intros Hk. unfold AI.simulate.
  destruct (_sim_cache s !! (n_atk, n_def)) as [v|]; [simpl; repeat split; lia|].
  pose proof (run_tests_rng (Z.to_nat tests) n_atk n_def (AI.mkTally [] [] 0) (rand s))
    as [Ht Hd].
  destruct (AI.run_tests _ _ _ _) as [t g].
  destruct (AI.summary t tests) as [v|e]; simpl in *; repeat split; try assumption.
  by apply lookup_insert_ne.
Qed.

Lemma simulate_other_keys_witness :
  (2, 3) <> (3, 2) /\ _sim_cache example_cached !! (2, 3) = None.
Proof.
  split; [discriminate|].
  destruct (simulate_other_keys 3 2 2 example_process (2, 3)) as [H _]; [discriminate|].
  unfold example_cached. rewrite H. reflexivity.
Defined.

Lemma simulate_keeps_probabilities n_atk n_def tests s :
  (forall k v, _sim_cache s !! k = Some v ->
     (0 <= num_value (probability_of_victory v))%Q /\
     (num_value (probability_of_victory v) <= 1)%Q) ->
  forall k v, _sim_cache (snd (AI.simulate n_atk n_def tests s)) !! k = Some v ->
     (0 <= num_value (probability_of_victory v))%Q /\
     (num_value (probability_of_victory v) <= 1)%Q.
Proof.
  intros Hinv k v.
  destruct (_sim_cache s !! (n_atk, n_def)) as [w|] eqn:Hc.
  - rewrite (simulate_hit _ _ tests _ _ Hc). apply Hinv.
  - rewrite (simulate_fresh n_atk n_def tests s Hc). cbv zeta.
    destruct (AI.summary _ tests) as [w|e] eqn:E; cbn [snd _sim_cache]; [|apply Hinv].
    rewrite lookup_insert. case_decide as Hk; [|apply Hinv].
    intros [= <-]. apply summary_returns in E as (E1 & _). cbn [AI.victory] in E1.
    pose proof (wins_bounds (outcomes (Z.to_nat tests) n_atk n_def (rand s))) as Hw.
    rewrite outcomes_length in Hw.
    destruct (Z.lt_ge_cases 0 tests) as [Hpos|Hneg].
    + eapply float_div_unit; [| |exact E1]; lia.
    + assert (Hw0 : wins (outcomes (Z.to_nat tests) n_atk n_def (rand s)) = 0) by lia.
      rewrite Hw0 in E1. apply float_div_zero in E1. rewrite E1. simpl. split; discriminate.
Qed.

(** X4. Every probability in the cache is a probability: after any calls
    of [simulate] on a process that started with an empty cache, whatever
    their arguments (also non-positive ones) and results, each entry has a
    probability of victory between 0 and 1. *)
Theorem cached_probabilities (calls : list (Z * Z * Z)) (g : rng) (k : Z * Z) (v : stats) :
  _sim_cache (run_calls calls (mkProcess ∅ g)) !! k = Some v ->
  (0 <= num_value (probability_of_victory v))%Q /\
  (num_value (probability_of_victory v) <= 1)%Q.
Proof.
  assert (Hgen : forall s,
    (forall k v, _sim_cache s !! k = Some v ->
       (0 <= num_value (probability_of_victory v))%Q /\
       (num_value (probability_of_victory v) <= 1)%Q) ->
    forall k v, _sim_cache (run_calls calls s) !! k = Some v ->
       (0 <= num_value (probability_of_victory v))%Q /\
       (num_value (probability_of_victory v) <= 1)%Q).
  { unfold run_calls. induction calls as [|[[a d] t] calls IH]; intros s Hs; [exact Hs|].
    simpl. apply IH. by apply simulate_keeps_probabilities. }
  apply Hgen. intros k' v' H. simpl in H. by rewrite lookup_empty in H.
Qed.

Lemma cached_probabilities_witness :
  _sim_cache (run_calls [(3, 2, 2); (0, -1, -4); (2, 2, 0)] (mkProcess ∅ (generator [5; 4])))
    !! (0, -1) = Some (mkStats (Float 0) (Int 0) (Float 0)) /\
  (0 <= 1)%Q.
Proof.
  split; [reflexivity|].
  apply (cached_probabilities [(3, 2, 2); (0, -1, -4); (2, 2, 0)] (generator [5; 4]) (0, -1)
           (mkStats (Float 0) (Int 0) (Float 0))).
  reflexivity.
Defined.

Lemma samples_repeat_won a n :
  wins (repeat (a, 0) n) = Z.of_nat n /\
  attacker_samples (repeat (a, 0) n) = repeat a n /\
  defender_samples (repeat (a, 0) n) = [].
Proof.
  induction n as [|n (IH1 & IH2 & IH3)]; cbn [repeat].
  - repeat split.
  - destruct (samples_cons a 0 (repeat (a, 0) n)) as (-> & -> & ->).
    cbn [Z.eqb]. rewrite IH1, IH2, IH3. repeat split. lia.
Qed.

(** X5. No defender: [simulate(n_atk, 0, tests)] with [n_atk >= 1],
    [tests >= 1] and [n_atk * tests] at most [2 ^ 53], on a key not yet
    cached, rolls no die; every test counts as a win with all of [n_atk]
    surviving, so the probability of victory is 1, the average of the
    surviving attackers is [n_atk] and that of the defenders the integer
    0. *)
Theorem simulate_no_defender (n_atk tests : Z) (s : process) :
  1 <= n_atk -> 1 <= tests -> n_atk * tests <= 2 ^ 53 ->
  _sim_cache s !! (n_atk, 0) = None ->
  exists v,
    AI.simulate n_atk 0 tests s =
      (Return v, mkProcess (<[(n_atk, 0) := v]> (_sim_cache s)) (rand s)) /\
    (num_value (probability_of_victory v) == 1)%Q /\
    (num_value (avg_surviving_attackers v) == inject_Z n_atk)%Q /\
    avg_surviving_defenders v = Int 0.
Proof.
  intros Ha Ht Hb Hc.
  pose proof (simulate_idle n_atk 0 tests s Hc (andb_false_r _)) as Hs. cbv zeta in Hs.
  destruct (samples_repeat_won n_atk (Z.to_nat tests)) as (Hw & Has & Hds).
  rewrite Hw, Has, Hds, Z2Nat.id in Hs by lia.
  assert (Hsum : sum (repeat n_atk (Z.to_nat tests)) = n_atk * tests)
    by (rewrite sum_repeat, Z2Nat.id by lia; reflexivity).
  rewrite summary_exact in Hs; cbn [AI.victory AI.a_survive AI.d_survive];
    rewrite ?Hsum; try (change (sum []) with 0); try nia.
  cbn [AI.victory AI.a_survive AI.d_survive] in Hs. rewrite Hsum, Z.sub_diag in Hs.
  destruct (Z.eqb_spec tests 0) as [|_]; [lia|]. cbn [Z.eqb] in Hs.
  eexists. split; [exact Hs|].
  cbn [probability_of_victory avg_surviving_attackers avg_surviving_defenders num_value].
  split; [|split; [|reflexivity]].
  - rewrite (round64_Qeq _ 1); [reflexivity|].
    apply Qmult_inv_r. intros H. apply (inject_Z_injective tests 0) in H. lia.
  - rewrite (round64_Qeq _ (inject_Z n_atk)) by (apply ratio_cancel; lia).
    rewrite round64_int, nearest_exact by nia. reflexivity.
Qed.

Lemma simulate_no_defender_witness :
  1 <= 5 /\ 1 <= 2 /\ 5 * 2 <= 2 ^ 53 /\
  fst (AI.simulate 5 0 2 (fresh [])) = Return (mkStats (Float 1) (Float 5) (Int 0)).
Proof.
  split; [lia|split; [lia|]].
  assert (Hb : 5 * 2 <= 2 ^ 53) by (vm_compute; discriminate).
  split; [exact Hb|].
  destruct (simulate_no_defender 5 2 (fresh [])) as (v & Hs & _);
    [lia|lia|exact Hb|reflexivity|].
  reflexivity.
Defined.

(** * Further properties of the decision methods *)

(** ** Sorting by a key *)

(** The head of an ascending [sorted] list is the first element of the
    input whose key is the least. *)
Lemma sorted_head_first_min {A : Type} (key : A -> Z) (l : list A) (h : A) (rest : list A) :
  sorted key false l = h :: rest ->
  exists l1 l2, l = l1 ++ h :: l2 /\
                Forall (fun e => key h < key e) l1 /\
                Forall (fun e => key h <= key e) l2.
Proof.
  revert h rest. induction l as [|x l IH]; intros h rest Hs; [discriminate|].
  cbn [sorted] in Hs. destruct (sorted key false l) as [|h' rest'] eqn:E.
  - injection Hs as <- <-. assert (l = []) as ->.
    { apply length_zero_iff_nil. rewrite <- (sorted_length key false l), E. reflexivity. }
    exists [], []. repeat split; constructor.
  - destruct (IH h' rest' eq_refl) as (m1 & m2 & -> & H1 & H2).
    cbn [insert_sorted] in Hs. unfold goes_before in Hs.
    destruct (Z.leb_spec (key x) (key h')) as [Hle|Hgt]; injection Hs as <- <-.
    + exists [], (m1 ++ h' :: m2). split; [reflexivity|]. split; [constructor|].
      apply Forall_app. split; [|constructor].
      * eapply Forall_impl; [exact H1|]. intros; simpl in *; lia.
      * exact Hle.
      * eapply Forall_impl; [exact H2|]. intros; simpl in *; lia.
    + exists (x :: m1), m2. split; [reflexivity|]. split; [by constructor|exact H2].
Qed.

(** The tail of an ascending [sorted] list ends with the last element of
    the input whose key is the greatest. *)
Lemma sorted_last_max {A : Type} (key : A -> Z) (l : list A) (x : A) :
  last (sorted key false l) = Some x ->
  In x l /\ Forall (fun e => key e <= key x) l.
Proof.
  intros Hl. apply last_Some in Hl as [l' Hl].
  pose proof (sorted_ordered key false l) as Hs. rewrite Hl in Hs.
  assert (Hin : In x (sorted key false l)) by (rewrite Hl; apply in_or_app; right; by left).
  split; [by apply sorted_In in Hin|].
  apply List.Forall_forall. intros e He. apply (sorted_In key false) in He.
  rewrite Hl in He. apply in_app_or in He as [He|[<-|[]]]; [|lia].
  clear Hl Hin. induction l' as [|y l' IH]; [destruct He|].
  simpl in Hs. inversion Hs as [|? ? Hs' Hy]; subst.
  destruct He as [<-|He].
  - rewrite Forall_forall in Hy. specialize (Hy x).
    unfold in_order in Hy. apply Hy. apply list_elem_of_In, in_or_app. right. by left.
  - by apply IH.
Qed.

Lemma with_keys_spec {A : Type} (key : A -> outcome Z) (l : list A) (kl : list (Z * A)) :
  with_keys key l = Return kl ->
  map snd kl = l /\ Forall (fun kx => key (snd kx) = Return (fst kx)) kl.
Proof.
  revert kl. induction l as [|x l IH]; intros kl H; simpl in H.
  - injection H as <-. split; [reflexivity|constructor].
  - destruct (key x) as [k|e] eqn:Hk; [|discriminate].
    destruct (with_keys key l) as [kl'|e] eqn:Hl; [|discriminate].
    injection H as <-. destruct (IH kl' eq_refl) as [<- Hf].
    split; [reflexivity|]. by constructor.
Qed.

(** [sorted(l, key=key)[0]] is the first element of [l] with the least
    key. *)
Lemma sorted_by_head {A : Type} (key : A -> outcome Z) (l : list A) (h : A) (rest : list A) :
  sorted_by key l = Return (h :: rest) ->
  exists k l1 l2,
    key h = Return k /\ l = l1 ++ h :: l2 /\
    (forall e i, In e l1 -> key e = Return i -> k < i) /\
    (forall e i, In e l2 -> key e = Return i -> k <= i).
Proof.
  unfold sorted_by. destruct (with_keys key l) as [kl|e] eqn:Hk; [|discriminate].
  intros [= Hs]. destruct (with_keys_spec key l kl Hk) as [Hm Hf].
  destruct (sorted fst false kl) as [|[k h'] srest] eqn:E; [discriminate|].
  simpl in Hs. injection Hs as -> <-.
  destruct (sorted_head_first_min fst kl (k, h) srest E) as (m1 & m2 & -> & H1 & H2).
  rewrite map_app in Hm. simpl in Hm.
  apply Forall_app in Hf as [Hf1 Hf2]. inversion Hf2 as [|? ? Hh Hf2']; subst.
  simpl in Hh. exists k, (map snd m1), (map snd m2).
  split; [exact Hh|]. split; [reflexivity|]. split.
  - intros e i He Hi. apply in_map_iff in He as ([k' e'] & <- & He).
    rewrite List.Forall_forall in H1, Hf1.
    specialize (H1 _ He). specialize (Hf1 _ He). simpl in *. congruence.
  - intros e i He Hi. apply in_map_iff in He as ([k' e'] & <- & He).
    rewrite List.Forall_forall in H2, Hf2'.
    specialize (H2 _ He). specialize (Hf2' _ He). simpl in *. congruence.
Qed.

Lemma index_not_In (l : list string) (x : string) :
  ~ In x l -> index l x = Raise ValueError.
Proof.
  induction l as [|y l IH]; intros Hn; [reflexivity|]. simpl.
  destruct (bool_decide (y = x)) eqn:E.
  - apply bool_decide_eq_true in E. subst. exfalso. apply Hn. by left.
  - rewrite IH; [reflexivity|]. intros H. apply Hn. by right.
Qed.

Lemma index_raises (l : list string) (x : string) (e : exn) :
  index l x = Raise e -> e = ValueError.
Proof.
  induction l as [|y l IH]; simpl; [by intros [= <-]|].
  destruct (bool_decide (y = x)); [discriminate|].
  destruct (index l x); [discriminate|]. intros [= <-]. by apply IH.
Qed.

(** Sorting by area priority raises [ValueError] when an area is not
    listed. *)
Lemma sorted_by_area_unknown (self : Self) (l : list Territory) (t : Territory) :
  In t l -> ~ In (area_name (area t)) (area_priority self) ->
  sorted_by (BetterAI.area_key self) l = Raise ValueError.
Proof.
  intros Hin Hn. unfold sorted_by.
  assert (H : with_keys (BetterAI.area_key self) l = Raise ValueError).
  { induction l as [|x l IH]; [destruct Hin|]. simpl.
    destruct (BetterAI.area_key self x) as [k|e] eqn:Hk.
    - destruct Hin as [->|Hin].
      + unfold BetterAI.area_key in Hk. rewrite index_not_In in Hk by exact Hn. discriminate.
      + by rewrite IH.
    - unfold BetterAI.area_key in Hk. apply index_raises in Hk. by subst. }
  by rewrite H.
Qed.

(** ** [BetterAI.priority] *)

Lemma priority_without_border (self : Self) :
  filter (fun t => border t = true) (territories (player self)) = [] ->
  BetterAI.priority self = Return (territories (player self)).
Proof. intros H. unfold BetterAI.priority. rewrite H. reflexivity. Qed.

Lemma priority_with_border (self : Self) :
  areas_known self (territories (player self)) ->
  filter (fun t => border t = true) (territories (player self)) <> [] ->
  exists t0 rest k0,
    BetterAI.priority self = Return (t0 :: rest) /\
    BetterAI.area_key self t0 = Return k0 /\
    (forall t, In t (t0 :: rest) <->
               In t (territories (player self)) /\ border t = true /\ area t = area t0) /\
    (forall t k, In t (territories (player self)) -> border t = true ->
                 BetterAI.area_key self t = Return k -> k0 <= k).
Proof.
  intros Hk Hne. unfold BetterAI.priority.
  set (borders := filter (fun t => border t = true) (territories (player self))) in *.
  assert (Hkb : areas_known self borders).
  { unfold areas_known in *. rewrite List.Forall_forall in *.
    intros t Ht. apply Hk. by apply filter_border_In in Ht as [_ Ht]. }
  destruct (sorted_by_returns _ _ (areas_known_keys self borders Hkb)) as (l' & Hl' & Hp).
  rewrite Hl'. destruct l' as [|h r].
  { apply Permutation_nil in Hp. congruence. }
  destruct (sorted_by_head _ _ _ _ Hl') as (k0 & l1 & l2 & Hh & Hsplit & Hlt & Hle).
  cbn [filter list_filter hd]. rewrite decide_True by reflexivity.
  exists h, (filter (fun t => area t = area h) r), k0.
  split; [reflexivity|]. split; [exact Hh|]. split.
  - intros t. split.
    + intros Ht. assert (Ht' : In t (h :: r) /\ area t = area h).
      { destruct Ht as [<-|Ht]; [split; [by left|reflexivity]|].
        apply list_elem_of_In, list_elem_of_filter in Ht as [Ha Ht].
        split; [right; by apply list_elem_of_In|exact Ha]. }
      destruct Ht' as [Ht' Ha]. apply (Permutation_in _ Hp) in Ht'.
      apply filter_border_In in Ht' as [Hb Ho]. auto.
    + intros (Ho & Hb & Ha).
      assert (Ht : In t (h :: r)).
      { apply (Permutation_in _ (Permutation_sym Hp)). by apply filter_border_In. }
      destruct Ht as [<-|Ht]; [by left|right].
      apply list_elem_of_In, list_elem_of_filter. split; [exact Ha|by apply list_elem_of_In].
  - intros t k Ho Hb Hkt.
    assert (Ht : In t borders) by (by apply filter_border_In).
    rewrite Hsplit in Ht. apply in_app_or in Ht as [Ht|[<-|Ht]].
    + specialize (Hlt _ _ Ht Hkt). lia.
    + rewrite Hh in Hkt. injection Hkt as <-. lia.
    + exact (Hle _ _ Ht Hkt).
Qed.

(** X6. What [priority] is: when the player owns a border territory (and
    [area_priority] lists the areas of the owned territories), [priority()]
    returns exactly the owned border territories of one area, and no owned
    border territory lies in an area that comes earlier in
    [area_priority]. *)
Theorem priority_best_area (self : Self) (b0 : Territory) :
  areas_known self (territories (player self)) ->
  In b0 (territories (player self)) -> border b0 = true ->
  exists t0 rest k0,
    BetterAI.priority self = Return (t0 :: rest) /\
    index (area_priority self) (area_name (area t0)) = Return k0 /\
    (forall t, In t (t0 :: rest) <->
               In t (territories (player self)) /\ border t = true /\ area t = area t0) /\
    (forall t k, In t (territories (player self)) -> border t = true ->
                 index (area_priority self) (area_name (area t)) = Return k -> k0 <= k).
Proof.
  intros Hk Hin Hb. apply priority_with_border; [exact Hk|].
  intros E. assert (H : In b0 (filter (fun t => border t = true) (territories (player self))))
    by (by apply filter_border_In).
  rewrite E in H. destruct H.
Qed.

Lemma agent_areas_known : areas_known agent (territories (player agent)).
Proof. repeat constructor; simpl; tauto. Qed.

Lemma priority_best_area_witness :
  areas_known agent (territories (player agent)) /\
  In peru (territories (player agent)) /\ border peru = true /\
  BetterAI.priority agent = Return [peru; brazil].
Proof.
  split; [exact agent_areas_known|]. split; [simpl; tauto|]. split; [reflexivity|].
  destruct (priority_best_area agent peru agent_areas_known) as (t0 & rest & k0 & Hp & _);
    [simpl; tauto|reflexivity|].
  rewrite Hp. vm_compute in Hp. injection Hp as <- <-. reflexivity.
Defined.

(** X7. [BetterAI.initial_placement] with a non-empty list [empty] uses no
    randomness: it returns the first territory of [empty] whose area comes
    earliest in [area_priority] (the areas of [empty] being listed). *)
Theorem initial_placement_best_area (self : Self) (empty : list Territory)
    (available : Z) (g : rng) :
  empty <> [] -> areas_known self empty ->
  exists t k l1 l2,
    BetterAI.initial_placement self (Some empty) available g = (Return t, g) /\
    empty = l1 ++ t :: l2 /\
    index (area_priority self) (area_name (area t)) = Return k /\
    (forall e i, In e l1 -> index (area_priority self) (area_name (area e)) = Return i -> k < i) /\
    (forall e i, In e l2 -> index (area_priority self) (area_name (area e)) = Return i -> k <= i).
Proof.
  intros Hne Hk. unfold BetterAI.initial_placement.
  destruct empty as [|e0 l]; [congruence|]. cbn [truthy].
  change (default [] (Some (e0 :: l))) with (e0 :: l).
  destruct (sorted_by_returns _ _ (areas_known_keys self _ Hk)) as (l' & Hl' & Hp).
  unfold bind, lift. rewrite Hl'. destruct l' as [|h r].
  { apply Permutation_nil in Hp. discriminate. }
  destruct (sorted_by_head _ _ _ _ Hl') as (k & l1 & l2 & Hh & Hsplit & Hlt & Hle).
  exists h, k, l1, l2. repeat split; assumption.
Qed.

Lemma initial_placement_best_area_witness :
  [alaska; chile; peru] <> [] /\ areas_known agent [alaska; chile; peru] /\
  BetterAI.initial_placement agent (Some [alaska; chile; peru]) 5 (generator [7]) =
  (Return chile, generator [7]).
Proof.
  assert (H : areas_known agent [alaska; chile; peru]) by (repeat constructor; simpl; tauto).
  split; [discriminate|]. split; [exact H|].
  destruct (initial_placement_best_area agent [alaska; chile; peru] 5 (generator [7]))
    as (t & k & l1 & l2 & Hi & _); [discriminate|exact H|].
  rewrite Hi. vm_compute in Hi. injection Hi as <-. reflexivity.
Defined.

(** X8. An area that [area_priority] does not list: [priority()] raises
    [ValueError] when the player owns a border territory in such an area, and
    then so does [reinforce], whatever [available]; [initial_placement]
    raises [ValueError] when such a territory is in the list [empty].  No
    draw is consumed. *)
Theorem unlisted_area_raises (self : Self) (t : Territory) (g : rng) :
  ~ In (area_name (area t)) (area_priority self) ->
  (In t (territories (player self)) -> border t = true ->
   BetterAI.priority self = Raise ValueError /\
   forall fuel available,
     BetterAI.reinforce fuel self available g = Some (Raise ValueError, g)) /\
  (forall empty available,
     In t empty ->
     BetterAI.initial_placement self (Some empty) available g = (Raise ValueError, g)).
Proof.
  intros Hn. split.
  - intros Hin Hb.
    assert (Hp : BetterAI.priority self = Raise ValueError).
    { unfold BetterAI.priority.
      rewrite (sorted_by_area_unknown self _ t); [reflexivity| |exact Hn].
      by apply filter_border_In. }
    split; [exact Hp|]. intros fuel available. unfold BetterAI.reinforce. by rewrite Hp.
  - intros empty available Hin. unfold BetterAI.initial_placement.
    destruct empty as [|e0 l]; [destruct Hin|]. cbn [truthy].
    change (default [] (Some (e0 :: l))) with (e0 :: l).
    unfold bind, lift. by rewrite (sorted_by_area_unknown self _ t Hin Hn).
Qed.

Lemma unlisted_area_raises_witness :
  ~ In (area_name (area alaska)) (area_priority (mkSelf (mkPlayer [alaska]) ["South America"])) /\
  BetterAI.priority (mkSelf (mkPlayer [alaska]) ["South America"]) = Raise ValueError.
Proof.
  assert (H : ~ In (area_name (area alaska))
                   (area_priority (mkSelf (mkPlayer [alaska]) ["South America"]))).
  { simpl. intros [H|[]]. discriminate H. }
  split; [exact H|].
  destruct (unlisted_area_raises (mkSelf (mkPlayer [alaska]) ["South America"]) alaska
              (generator []) H) as [Hp _].
  apply Hp; [by left|reflexivity].
Defined.

(** ** [reinforce] *)

Lemma better_loop_pieces (pool priority : list Territory) (n : nat) :
  priority <> [] -> (forall t, In t priority -> In t pool) ->
  forall (result : gmap Territory Z) (g : rng),
    counts_on pool result ->
    exists m g',
      (forall fuel, (n <= fuel)%nat ->
         BetterAI.reinforce_loop fuel priority result (Z.of_nat n) g = Some (Return m, g')) /\
      total m = total result + Z.of_nat n /\ counts_on pool m /\
      tape g' = tape g /\ draws g' = (draws g + n)%nat.
Proof.
  intros Hne Hsub. induction n as [|n IH]; intros result g Hres.
  - exists result, g. split; [intros; apply better_loop_exit|].
    split; [simpl; lia|]. split; [exact Hres|]. split; [reflexivity|lia].
  - destruct (choice_In priority g Hne) as (t & Ht & Hc).
    destruct (IH (incr t result) (advance g)) as (m & g' & Hrun & Htot & Hcnt & Htape & Hdr).
    { apply counts_on_incr; auto. }
    exists m, g'. split; [|split; [|split; [|split]]].
    + intros fuel Hf. destruct fuel as [|fuel]; [lia|].
      rewrite (better_loop_step fuel priority result _ g t (advance g)) by (lia || exact Hc).
      replace (Z.of_nat (S n) - 1) with (Z.of_nat n) by lia. apply Hrun. lia.
    + rewrite Htot, total_incr. lia.
    + exact Hcnt.
    + exact Htape.
    + rewrite Hdr. simpl. lia.
Qed.

Lemma stupid_loop_pieces (pool border : list Territory) (n : nat) :
  border <> [] -> (forall t, In t border -> In t pool) ->
  forall (result : gmap Territory Z) (g : rng),
    counts_on pool result ->
    exists m g',
      StupidAI.reinforce_loop n border result g = (Return m, g') /\
      total m = total result + Z.of_nat n /\ counts_on pool m /\
      tape g' = tape g /\ draws g' = (draws g + n)%nat.
Proof.
  intros Hne Hsub. induction n as [|n IH]; intros result g Hres.
  - exists result, g. split; [reflexivity|].
    split; [simpl; lia|]. split; [exact Hres|]. split; [reflexivity|lia].
  - destruct (choice_In border g Hne) as (t & Ht & Hc).
    destruct (IH (incr t result) (advance g)) as (m & g' & Hrun & Htot & Hcnt & Htape & Hdr).
    { apply counts_on_incr; auto. }
    exists m, g'. split; [|split; [|split; [|split]]].
    + cbn [StupidAI.reinforce_loop]. unfold bind. rewrite Hc. exact Hrun.
    + rewrite Htot, total_incr. lia.
    + exact Hcnt.
    + exact Htape.
    + rewrite Hdr. simpl. lia.
Qed.

Lemma total_empty : total ∅ = 0.
Proof. unfold total. apply map_fold_empty. Qed.

(** X9. [BetterAI.reinforce] places every piece on a territory of
    [priority()]: for [available >= 0] and a player owning a territory
    (areas listed), the loop ends after [available] iterations, one draw
    each, and the dictionary returned sums to [available] with all its keys
    in the list [priority()] returns. *)
Theorem better_reinforce_on_priority (self : Self) (available : Z) (g : rng) :
  0 <= available ->
  territories (player self) <> [] ->
  areas_known self (territories (player self)) ->
  exists p result g',
    BetterAI.priority self = Return p /\
    (forall fuel, (Z.to_nat available <= fuel)%nat ->
       BetterAI.reinforce fuel self available g = Some (Return result, g')) /\
    total result = available /\
    counts_on p result /\
    tape g' = tape g /\ draws g' = (draws g + Z.to_nat available)%nat.
Proof.
  intros Ha Hne Hk. destruct (priority_owned self Hk) as (p & Hp & Hsub & Hpne).
  destruct (better_loop_pieces p p (Z.to_nat available) (Hpne Hne) (fun _ H => H)
              ∅ g (counts_on_empty _)) as (m & g' & Hrun & Htot & Hcnt & Htape & Hdr).
  exists p, m, g'. split; [exact Hp|]. split; [|split; [|split; [exact Hcnt|by split]]].
  - intros fuel Hf. unfold BetterAI.reinforce. rewrite Hp.
    specialize (Hrun fuel Hf). by rewrite Z2Nat.id in Hrun.
  - rewrite Htot, total_empty. lia.
Qed.

Lemma better_reinforce_on_priority_witness :
  0 <= 3 /\ territories (player agent) <> [] /\
  exists g', BetterAI.reinforce 3 agent 3 (generator [1; 0; 1]) =
             Some (Return {[ brazil := 2; peru := 1 ]}, g').
Proof.
  split; [lia|]. split; [discriminate|].
  destruct (better_reinforce_on_priority agent 3 (generator [1; 0; 1]))
    as (p & m & g' & _ & Hrun & _); [lia|discriminate|exact agent_areas_known|].
  exists g'. specialize (Hrun 3%nat ltac:(simpl; lia)).
  assert (E : exists g0, BetterAI.reinforce 3 agent 3 (generator [1; 0; 1]) =
                         Some (Return {[ brazil := 2; peru := 1 ]}, g0))
    by (eexists; reflexivity).
  destruct E as [g0 E]. rewrite E in Hrun. injection Hrun as <- <-. exact E.
Defined.

(** X10. [StupidAI.reinforce] places every piece on a border territory: for
    [available >= 0] and a player owning a border territory it returns, after
    [available] draws, a dictionary that sums to [available] with owned
    border territories for keys. *)
Theorem stupid_reinforce_on_border (self : Self) (available : Z) (g : rng) (b0 : Territory) :
  0 <= available ->
  In b0 (territories (player self)) -> border b0 = true ->
  exists result g',
    StupidAI.reinforce self available g = (Return result, g') /\
    total result = available /\
    (forall t n, result !! t = Some n ->
       0 <= n /\ In t (territories (player self)) /\ border t = true) /\
    tape g' = tape g /\ draws g' = (draws g + Z.to_nat available)%nat.
Proof.
  intros Ha Hin Hb. unfold StupidAI.reinforce.
  set (borders := filter (fun t => border t = true) (territories (player self))).
  assert (Hne : borders <> []).
  { intros E. assert (H : In b0 borders) by (by apply filter_border_In).
    rewrite E in H. destruct H. }
  destruct (stupid_loop_pieces borders borders (Z.to_nat available) Hne (fun _ H => H)
              ∅ g (counts_on_empty _)) as (m & g' & Hrun & Htot & Hcnt & Htape & Hdr).
  exists m, g'. split; [exact Hrun|]. split; [rewrite Htot, total_empty; lia|].
  split; [|by split].
  intros t n Hl. destruct (Hcnt t n Hl) as [Hn Ht].
  apply filter_border_In in Ht as [Hbt Ht]. auto.
Qed.

Lemma stupid_reinforce_on_border_witness :
  0 <= 3 /\ In peru (territories (player agent)) /\ border peru = true /\
  exists g', StupidAI.reinforce agent 3 (generator [1; 0; 1]) =
             (Return {[ alaska := 1; peru := 2 ]}, g').
Proof.
  split; [lia|]. split; [simpl; tauto|]. split; [reflexivity|].
  destruct (stupid_reinforce_on_border agent 3 (generator [1; 0; 1]) peru)
    as (m & g' & Hrun & _); [lia|simpl; tauto|reflexivity|].
  exists g'.
  assert (E : exists g0, StupidAI.reinforce agent 3 (generator [1; 0; 1]) =
                         (Return {[ alaska := 1; peru := 2 ]}, g0))
    by (eexists; reflexivity).
  destruct E as [g0 E]. rewrite E in Hrun. injection Hrun as <- <-. exact E.
Defined.

(** X11. [StupidAI.reinforce] without a border territory: when none of the
    owned territories is a border and there is at least one piece to place,
    the call raises [IndexError] before any draw. *)
Theorem stupid_reinforce_no_border (self : Self) (available : Z) (g : rng) :
  1 <= available ->
  (forall t, In t (territories (player self)) -> border t = false) ->
  StupidAI.reinforce self available g = (Raise IndexError, g).
Proof.
  intros Ha Hnb. unfold StupidAI.reinforce.
  assert (E : filter (fun t => border t = true) (territories (player self)) = []).
  { destruct (filter _ _) as [|t l] eqn:E; [reflexivity|].
    assert (H : In t (t :: l)) by (by left). rewrite <- E in H.
    apply filter_border_In in H as [Hb Ht]. rewrite (Hnb t Ht) in Hb. discriminate. }
  rewrite E. destruct (Z.to_nat available) as [|n] eqn:En; [lia|]. reflexivity.
Qed.

Lemma stupid_reinforce_no_border_witness :
  1 <= 2 /\
  (forall t, In t (territories (player inland_agent)) -> border t = false) /\
  StupidAI.reinforce inland_agent 2 (generator [4]) = (Raise IndexError, generator [4]).
Proof.
  assert (H : forall t, In t (territories (player inland_agent)) -> border t = false).
  { intros t [<-|[]]. reflexivity. }
  split; [lia|]. split; [exact H|].
  apply (stupid_reinforce_no_border inland_agent 2 (generator [4])); [lia|exact H].
Defined.

Lemma better_loop_negative (priority : list Territory) (available : Z) :
  priority <> [] -> available < 0 ->
  forall fuel result g, BetterAI.reinforce_loop fuel priority result available g = None.
Proof.
  intros Hne Ha fuel. revert available Ha.
  induction fuel as [|fuel IH]; intros available Ha result g; cbn [BetterAI.reinforce_loop];
    destruct (Z.eqb_spec available 0); try lia; [reflexivity|].
  destruct (choice_In priority g Hne) as (t & _ & ->). apply IH. lia.
Qed.

(** X12. A negative [available]: [BetterAI.reinforce] counts [available]
    down and never reaches 0, so for a player owning a territory its loop
    outlasts any number of iterations; [StupidAI.reinforce] iterates over an
    empty range and returns the empty dictionary without a draw. *)
Theorem reinforce_negative (self : Self) (available : Z) (g : rng) :
  available < 0 ->
  territories (player self) <> [] ->
  areas_known self (territories (player self)) ->
  (forall fuel, BetterAI.reinforce fuel self available g = None) /\
  StupidAI.reinforce self available g = (Return ∅, g).
Proof.
  intros Ha Hne Hk. split.
  - intros fuel. destruct (priority_owned self Hk) as (p & Hp & _ & Hpne).
    unfold BetterAI.reinforce. rewrite Hp. apply better_loop_negative; auto.
  - unfold StupidAI.reinforce. destruct (Z.to_nat available) eqn:E; [reflexivity|lia].
Qed.

Lemma reinforce_negative_witness :
  -1 < 0 /\ territories (player agent) <> [] /\
  BetterAI.reinforce 1000 agent (-1) (generator []) = None /\
  StupidAI.reinforce agent (-1) (generator []) = (Return ∅, generator []).
Proof.
  split; [lia|]. split; [discriminate|].
  destruct (reinforce_negative agent (-1) (generator [])) as [Hb Hs];
    [lia|discriminate|exact agent_areas_known|].
  split; [apply Hb|exact Hs].
Defined.

(** X13. A player without territories: when [empty] is [None] or the empty
    list, [initial_placement] of both classes raises [IndexError]; so does
    [BetterAI.reinforce] as soon as there is a piece to place, while it
    returns the empty dictionary for [available = 0].  No draw is
    consumed. *)
Theorem nothing_owned (self : Self) (empty : option (list Territory))
    (remaining available : Z) (fuel : nat) (g : rng) :
  territories (player self) = [] ->
  (truthy empty = false ->
   BetterAI.initial_placement self empty remaining g = (Raise IndexError, g) /\
   StupidAI.initial_placement self empty remaining g = (Raise IndexError, g)) /\
  (available <> 0 -> BetterAI.reinforce (S fuel) self available g = Some (Raise IndexError, g)) /\
  BetterAI.reinforce fuel self 0 g = Some (Return ∅, g).
Proof.
  intros E.
  assert (Hp : BetterAI.priority self = Return []).
  { rewrite priority_without_border; rewrite E; reflexivity. }
  split; [|split].
  - intros Ht. unfold BetterAI.initial_placement, StupidAI.initial_placement.
    rewrite Ht. unfold bind, lift. rewrite Hp, E. split; reflexivity.
  - intros Ha. unfold BetterAI.reinforce. rewrite Hp. cbn [BetterAI.reinforce_loop].
    destruct (Z.eqb_spec available 0); [contradiction|reflexivity].
  - unfold BetterAI.reinforce. rewrite Hp. apply better_loop_exit.
Qed.

Lemma nothing_owned_witness :
  territories (player (mkSelf (mkPlayer []) [])) = [] /\
  StupidAI.initial_placement (mkSelf (mkPlayer []) []) None 3 (generator [2]) =
  (Raise IndexError, generator [2]).
Proof.
  split; [reflexivity|].
  destruct (nothing_owned (mkSelf (mkPlayer []) []) None 3 1 0 (generator [2]) eq_refl)
    as [H _].
  apply H. reflexivity.
Defined.

(** ** [BetterAI.start] *)

Lemma insert_Permutation {A : Type} (l : list A) (i : nat) (a : A) :
  l !! i = Some a ->
  exists R, Permutation l (a :: R) /\ forall y, Permutation (<[i := y]> l) (y :: R).
Proof.
  revert i. induction l as [|h t IH]; intros i Hi; [destruct i; discriminate|].
  destruct i as [|i].
  - injection Hi as ->. exists t. split; [reflexivity|]. intros y. reflexivity.
  - destruct (IH i Hi) as (R & H1 & H2). exists (h :: R). split.
    + rewrite H1. apply perm_swap.
    + intros y. cbn. rewrite (H2 y). apply perm_swap.
Qed.

Lemma swap_Permutation {A : Type} (x : list A) (i j : nat) : Permutation (swap x i j) x.
Proof.
  unfold swap. destruct (x !! i) as [xi|] eqn:Hi; [|reflexivity].
  destruct (x !! j) as [xj|] eqn:Hj; [|reflexivity].
  destruct (decide (i = j)) as [->|Hne].
  - assert (xi = xj) as -> by congruence.
    rewrite (list_insert_id x j xj Hj). by rewrite (list_insert_id x j xj Hj).
  - destruct (insert_Permutation x i xi Hi) as (R0 & Hx & Hins0).
    assert (Hj' : <[i := xj]> x !! j = Some xj) by (by rewrite list_lookup_insert_ne).
    destruct (insert_Permutation _ j xj Hj') as (R1 & Hl1 & Hins1).
    rewrite (Hins1 xi), Hx. constructor.
    apply (Permutation_cons_inv (a := xj)). by rewrite <- Hl1, <- (Hins0 xj).
Qed.

Lemma shuffle_from_spec {A : Type} (i : nat) (x : list A) (g : rng) :
  Permutation (fst (shuffle_from i x g)) x /\
  tape (snd (shuffle_from i x g)) = tape g /\
  draws (snd (shuffle_from i x g)) = (draws g + i)%nat.
Proof.
  revert x g. induction i as [|i IH]; intros x g.
  - simpl. repeat split; [reflexivity|lia].
  - cbn [shuffle_from].
    destruct (IH (swap x (S i) (Z.to_nat (tape g (draws g) mod Z.of_nat (S (S i))))) (advance g))
      as (Hp & Ht & Hd).
    split; [|split].
    + rewrite Hp. apply swap_Permutation.
    + exact Ht.
    + rewrite Hd. simpl. lia.
Qed.

(** X14. What [start] sets up: it changes nothing but [area_priority],
    which becomes a permutation of the names of the areas of the world,
    produced with one draw less than there are areas; from then on every
    territory lying in an area of the world has its area listed, and
    [priority()] returns a list instead of raising [ValueError] when that is
    so for the owned territories. *)
Theorem start_sets_priority (world : World) (self : Self) (g : rng) :
  exists self' g',
    BetterAI.start world self g = (Return self', g') /\
    player self' = player self /\
    Permutation (area_priority self') (areas world) /\
    tape g' = tape g /\
    draws g' = (draws g + (length (areas world) - 1))%nat /\
    (forall l, Forall (fun t => In (area_name (area t)) (areas world)) l ->
               areas_known self' l) /\
    (Forall (fun t => In (area_name (area t)) (areas world)) (territories (player self)) ->
     exists p, BetterAI.priority self' = Return p).
Proof.
  unfold BetterAI.start, shuffle.
  destruct (shuffle_from_spec (length (areas world) - 1) (areas world) g) as (Hp & Ht & Hd).
  destruct (shuffle_from (length (areas world) - 1) (areas world) g) as [ap g'].
  cbn [fst snd] in *.
  assert (Hk : forall l, Forall (fun t => In (area_name (area t)) (areas world)) l ->
                         areas_known (mkSelf (player self) ap) l).
  { intros l Hl. unfold areas_known. eapply Forall_impl; [exact Hl|].
    intros t Hin. simpl in *. by apply (Permutation_in _ (Permutation_sym Hp)). }
  exists (mkSelf (player self) ap), g'.
  split; [reflexivity|]. split; [reflexivity|]. split; [exact Hp|].
  split; [exact Ht|]. split; [exact Hd|]. split; [exact Hk|].
  intros Hl. destruct (priority_owned (mkSelf (player self) ap) (Hk _ Hl)) as (p & Hpr & _).
  eauto.
Qed.

(** ** [BetterAI.freemove] *)

Lemma filter_interior_In (l : list Territory) (t : Territory) :
  In t (filter (fun t => border t = false) l) <-> border t = false /\ In t l.
Proof. rewrite <- !list_elem_of_In, list_elem_of_filter. reflexivity. Qed.

Lemma freemove_source (b : Board) (self : Self) (i0 : Territory) :
  In i0 (territories (player self)) -> border i0 = false ->
  exists src,
    last (sorted (forces b) false
            (filter (fun t => border t = false) (territories (player self)))) = Some src /\
    In src (territories (player self)) /\ border src = false /\
    (forall t, In t (territories (player self)) -> border t = false ->
               forces b t <= forces b src).
Proof.
  intros Hin Hb.
  set (inner := filter (fun t => border t = false) (territories (player self))).
  destruct (last (sorted (forces b) false inner)) as [src|] eqn:Hl.
  - destruct (sorted_last_max _ _ _ Hl) as [Hs Hmax].
    apply filter_interior_In in Hs as [Hsb Hso].
    exists src. split; [reflexivity|]. split; [exact Hso|]. split; [exact Hsb|].
    intros t Ht Htb. rewrite List.Forall_forall in Hmax. apply Hmax.
    by apply filter_interior_In.
  - apply last_None in Hl.
    assert (Hi : In i0 (sorted (forces b) false inner))
      by (apply sorted_In; by apply filter_interior_In).
    rewrite Hl in Hi. destruct Hi.
Qed.

(** X15. The order [BetterAI.freemove] returns: when the player owns an
    interior territory (areas listed), the source is an owned interior
    territory with the most forces among those, the count is all of its
    forces but one, and the destination is owned; when the player also owns
    a border territory the destination is a border territory, hence not the
    source.  No draw is consumed. *)
Theorem freemove_order (b : Board) (self : Self) (i0 : Territory) (g : rng) :
  areas_known self (territories (player self)) ->
  In i0 (territories (player self)) -> border i0 = false ->
  exists src dest,
    BetterAI.freemove b self g = (Return (Some (src, dest, forces b src - 1)), g) /\
    In src (territories (player self)) /\ border src = false /\
    (forall t, In t (territories (player self)) -> border t = false ->
               forces b t <= forces b src) /\
    In dest (territories (player self)) /\
    (forall b0, In b0 (territories (player self)) -> border b0 = true ->
                border dest = true /\ dest <> src).
Proof.
  intros Hk Hin Hb.
  destruct (freemove_source b self i0 Hin Hb) as (src & Hl & Hso & Hsb & Hmax).
  destruct (priority_owned self Hk) as (p & Hp & Hsub & Hpne).
  destruct p as [|dest rest]; [exfalso; apply Hpne; [|reflexivity]; intros E; by rewrite E in Hin|].
  exists src, dest. unfold BetterAI.freemove. rewrite Hl. unfold bind, lift. rewrite Hp.
  split; [reflexivity|]. split; [exact Hso|]. split; [exact Hsb|]. split; [exact Hmax|].
  split; [apply Hsub; by left|].
  intros b0 Hb0 Hbb.
  assert (Hne : filter (fun t => border t = true) (territories (player self)) <> []).
  { intros E. assert (H : In b0 (filter (fun t => border t = true) (territories (player self))))
      by (by apply filter_border_In). rewrite E in H. destruct H. }
  destruct (priority_with_border self Hk Hne) as (t0 & r & k0 & Hp' & _ & Hmem & _).
  rewrite Hp in Hp'. injection Hp' as -> ->.
  destruct (proj1 (Hmem t0) (or_introl eq_refl)) as (_ & Hbd & _).
  split; [exact Hbd|]. intros ->. congruence.
Qed.

Lemma freemove_order_witness :
  areas_known agent (territories (player agent)) /\
  In chile (territories (player agent)) /\ border chile = false /\
  BetterAI.freemove (mkBoard (fun _ => None) (fun _ => 4) (fun _ => [])) agent (generator []) =
  (Return (Some (chile, peru, 3)), generator []).
Proof.
  split; [exact agent_areas_known|]. split; [simpl; tauto|]. split; [reflexivity|].
  destruct (freemove_order (mkBoard (fun _ => None) (fun _ => 4) (fun _ => [])) agent chile
              (generator []) agent_areas_known) as (src & dest & Hf & _);
    [simpl; tauto|reflexivity|].
  rewrite Hf. vm_compute in Hf. injection Hf as <- <-. reflexivity.
Defined.

(** X16. No interior territory, no move: when every owned territory is a
    border (or none is owned) [BetterAI.freemove] returns [None]; it does
    not look at [area_priority], so it cannot raise. *)
Theorem freemove_none (b : Board) (self : Self) (g : rng) :
  (forall t, In t (territories (player self)) -> border t = true) ->
  BetterAI.freemove b self g = (Return None, g).
Proof.
  intros Hall. unfold BetterAI.freemove.
  assert (E : filter (fun t => border t = false) (territories (player self)) = []).
  { destruct (filter _ _) as [|t l] eqn:E; [reflexivity|].
    assert (H : In t (t :: l)) by (by left). rewrite <- E in H.
    apply filter_interior_In in H as [Hb Ht]. rewrite (Hall t Ht) in Hb. discriminate. }
  rewrite E. reflexivity.
Qed.

Lemma freemove_none_witness :
  (forall t, In t (territories (player (mkSelf (mkPlayer [alaska; peru]) []))) ->
             border t = true) /\
  BetterAI.freemove (mkBoard (fun _ => None) (fun _ => 4) (fun _ => []))
                    (mkSelf (mkPlayer [alaska; peru]) []) (generator []) =
  (Return None, generator []).
Proof.
  assert (H : forall t, In t (territories (player (mkSelf (mkPlayer [alaska; peru]) []))) ->
                        border t = true).
  { intros t [<-|[<-|[]]]; reflexivity. }
  split; [exact H|]. by apply freemove_none.
Defined.

Lemma no_border_filter (l : list Territory) :
  (forall t, In t l -> border t = false) -> filter (fun t => border t = true) l = [].
Proof.
  intros Hall. destruct (filter (fun t => border t = true) l) as [|t r] eqn:E; [reflexivity|].
  assert (H : In t (t :: r)) by (by left). rewrite <- E in H.
  apply filter_border_In in H as [Hb Ht]. rewrite (Hall t Ht) in Hb. discriminate.
Qed.

(** X17. A move onto the source: when none of the owned territories is a
    border, [priority()] is the list of all of them and the destination is
    the first owned territory; for a player whose only territory is interior
    [BetterAI.freemove] orders a move from that territory to itself. *)
Theorem freemove_onto_itself (b : Board) (self : Self) (t0 : Territory)
    (rest : list Territory) (g : rng) :
  territories (player self) = t0 :: rest ->
  (forall t, In t (territories (player self)) -> border t = false) ->
  (exists src,
     BetterAI.freemove b self g = (Return (Some (src, t0, forces b src - 1)), g)) /\
  (rest = [] ->
   BetterAI.freemove b self g = (Return (Some (t0, t0, forces b t0 - 1)), g)).
Proof.
  intros Et Hall.
  assert (Hin : In t0 (territories (player self))) by (rewrite Et; by left).
  destruct (freemove_source b self t0 Hin (Hall _ Hin)) as (src & Hl & Hso & _).
  assert (Hp : BetterAI.priority self = Return (t0 :: rest)).
  { rewrite priority_without_border; [by rewrite Et|]. by apply no_border_filter. }
  assert (Hf : BetterAI.freemove b self g = (Return (Some (src, t0, forces b src - 1)), g)).
  { unfold BetterAI.freemove. rewrite Hl. unfold bind, lift. rewrite Hp. reflexivity. }
  split; [eauto|]. intros ->. rewrite Et in Hso. destruct Hso as [<-|[]]. exact Hf.
Qed.

Lemma freemove_onto_itself_witness :
  territories (player inland_agent) = [chile] /\
  (forall t, In t (territories (player inland_agent)) -> border t = false) /\
  BetterAI.freemove (mkBoard (fun _ => None) (fun _ => 4) (fun _ => [])) inland_agent
                    (generator []) =
  (Return (Some (chile, chile, 3)), generator []).
Proof.
  assert (H : forall t, In t (territories (player inland_agent)) -> border t = false).
  { intros t [<-|[]]. reflexivity. }
  split; [reflexivity|]. split; [exact H|].
  destruct (freemove_onto_itself (mkBoard (fun _ => None) (fun _ => 4) (fun _ => []))
              inland_agent chile [] (generator []) eq_refl H) as [_ Hf].
  by apply Hf.
Defined.

(** ** [StupidAI.attack] *)

Lemma stupid_scan_spec (b : Board) (self : Self) (t : Territory) (adj : list Territory) :
  match StupidAI.attack_scan b self t adj with
  | Some (a, adj') =>
      StupidAI.attackable b self t a = true /\ In a adj /\ incl adj' adj /\
      List.filter (StupidAI.attackable b self t) adj =
      a :: List.filter (StupidAI.attackable b self t) adj'
  | None => List.filter (StupidAI.attackable b self t) adj = []
  end.
Proof.
  induction adj as [|a adj IH]; cbn [StupidAI.attack_scan List.filter]; [reflexivity|].
  destruct (StupidAI.attackable b self t a) eqn:Ea.
  - split; [exact Ea|]. split; [by left|]. split; [|reflexivity].
    intros x Hx. by right.
  - destruct (StupidAI.attack_scan b self t adj) as [[a' adj']|]; [|exact IH].
    destruct IH as (H1 & H2 & H3 & H4). split; [exact H1|]. split; [by right|].
    split; [|exact H4]. intros x Hx. right. by apply H3.
Qed.

Lemma stupid_from_spec (b : Board) (self : Self) (ts : list Territory) :
  match StupidAI.attack_from b self ts with
  | Some (o, st') =>
      stupid_orders b self ts = o :: stupid_orders_left b self st' /\
      incl (StupidAI.remaining st') ts /\
      exists t a adj', o = (t, a, None, None) /\ StupidAI.pending st' = Some (t, adj') /\
                       In t ts /\ In a (connect b t) /\ incl adj' (connect b t) /\
                       StupidAI.attackable b self t a = true
  | None => stupid_orders b self ts = []
  end.
Proof.
  induction ts as [|t ts IH]; cbn [StupidAI.attack_from]; [reflexivity|].
  pose proof (stupid_scan_spec b self t (connect b t)) as Hs.
  destruct (StupidAI.attack_scan b self t (connect b t)) as [[a adj']|].
  - destruct Hs as (H1 & H2 & H3 & H4). split; [|split].
    + unfold stupid_orders_left, stupid_orders. cbn [flat_map StupidAI.pending StupidAI.remaining].
      rewrite H4. reflexivity.
    + intros x Hx. by right.
    + exists t, a, adj'. repeat split; try assumption. by left.
  - unfold stupid_orders. cbn [flat_map]. rewrite Hs. cbn [map app].
    destruct (StupidAI.attack_from b self ts) as [[o st']|]; [|exact IH].
    destruct IH as (H1 & H2 & t' & a & adj' & Ho & Hp & Ht & Ha & Hadj & Hatt).
    split; [exact H1|]. split; [intros x Hx; right; by apply H2|].
    exists t', a, adj'. repeat split; try assumption. by right.
Qed.

Lemma stupid_next_spec (b : Board) (self : Self) (st : StupidAI.attack_state) :
  match StupidAI.attack_next b self st with
  | Some (o, st') => stupid_orders_left b self st = o :: stupid_orders_left b self st'
  | None => stupid_orders_left b self st = []
  end.
Proof.
  unfold StupidAI.attack_next, stupid_orders_left at 1 3.
  destruct (StupidAI.pending st) as [[t adj]|].
  - pose proof (stupid_scan_spec b self t adj) as Hs.
    destruct (StupidAI.attack_scan b self t adj) as [[a adj']|].
    + destruct Hs as (_ & _ & _ & ->). reflexivity.
    + rewrite Hs. cbn [map app].
      pose proof (stupid_from_spec b self (StupidAI.remaining st)) as Hf.
      destruct (StupidAI.attack_from b self (StupidAI.remaining st)) as [[o st']|];
        [exact (proj1 Hf)|exact Hf].
  - cbn [app]. pose proof (stupid_from_spec b self (StupidAI.remaining st)) as Hf.
    destruct (StupidAI.attack_from b self (StupidAI.remaining st)) as [[o st']|];
      [exact (proj1 Hf)|exact Hf].
Qed.

Lemma stupid_all_spec (fuel : nat) (b : Board) (self : Self) (st : StupidAI.attack_state) :
  StupidAI.attack_all fuel b self st = firstn fuel (stupid_orders_left b self st).
Proof.
  revert st. induction fuel as [|fuel IH]; intros st; [reflexivity|].
  cbn [StupidAI.attack_all]. pose proof (stupid_next_spec b self st) as Hn.
  destruct (StupidAI.attack_next b self st) as [[o st']|].
  - rewrite Hn, IH. reflexivity.
  - rewrite Hn. reflexivity.
Qed.

(** X18. The generator of [StupidAI.attack] and the nested loops: run on a
    board that stays as it is, the generator yields, one [next] after the
    other, the orders [(t, a, None, None)] for each owned territory [t] in
    turn and each connection [a] of [t] that is not the player's and has
    fewer forces than [t]; after the last of them it is exhausted. *)
Theorem stupid_attack_orders (fuel : nat) (b : Board) (self : Self) :
  StupidAI.attack_all fuel b self (StupidAI.attack self) =
    firstn fuel (stupid_orders b self (territories (player self))) /\
  ((length (stupid_orders b self (territories (player self))) < fuel)%nat ->
   StupidAI.attack_all fuel b self (StupidAI.attack self) =
     stupid_orders b self (territories (player self))).
Proof.
  assert (E : StupidAI.attack_all fuel b self (StupidAI.attack self) =
              firstn fuel (stupid_orders b self (territories (player self)))).
  { rewrite stupid_all_spec. reflexivity. }
  split; [exact E|]. intros Hl. rewrite E. apply firstn_all2. lia.
Qed.

(** X19. Each order of [StupidAI.attack] is good on the board it is produced
    on: whatever happened on the board between the calls of [next], as long
    as the connections are the same, the order [next] yields on the board
    [b] goes from an owned territory to one of its connections that on [b] is
    not the player's and has fewer forces; both strategies are [None]. *)
Theorem stupid_attack_next_valid (b : Board) (self : Self) (st st' : StupidAI.attack_state)
    (t a : Territory) (atk_strategy : option (Z -> Z -> bool)) (move_strategy : option (Z -> Z)) :
  stupid_state_ok (connect b) self st ->
  StupidAI.attack_next b self st = Some ((t, a, atk_strategy, move_strategy), st') ->
  In t (territories (player self)) /\ In a (connect b t) /\
  owner b a <> Some (player self) /\ forces b a < forces b t /\
  atk_strategy = None /\ move_strategy = None /\
  stupid_state_ok (connect b) self st'.
Proof.
  intros [Hpend Hrem] Hn.
  assert (Hatt : forall t a, StupidAI.attackable b self t a = true ->
                             owner b a <> Some (player self) /\ forces b a < forces b t).
  { intros t1 a1 H. unfold StupidAI.attackable in H. apply andb_true_iff in H as [H1 H2].
    apply bool_decide_eq_true in H1. apply Z.ltb_lt in H2. auto. }
  assert (Hfrom : StupidAI.attack_from b self (StupidAI.remaining st) =
                  Some ((t, a, atk_strategy, move_strategy), st') ->
                  In t (territories (player self)) /\ In a (connect b t) /\
                  owner b a <> Some (player self) /\ forces b a < forces b t /\
                  atk_strategy = None /\ move_strategy = None /\
                  stupid_state_ok (connect b) self st').
  { intros Hf. pose proof (stupid_from_spec b self (StupidAI.remaining st)) as Hs.
    rewrite Hf in Hs.
    destruct Hs as (_ & Hinc & t1 & a1 & adj' & Ho & Hp & Ht & Ha & Hadj & Hat).
    injection Ho as -> -> -> ->. destruct (Hatt _ _ Hat) as [Ho Hfo].
    split; [by apply Hrem|]. split; [exact Ha|]. split; [exact Ho|]. split; [exact Hfo|].
    split; [reflexivity|]. split; [reflexivity|]. split.
    - intros t2 adj2 Hp2. rewrite Hp in Hp2. injection Hp2 as <- <-.
      split; [by apply Hrem|exact Hadj].
    - intros x Hx. by apply Hrem, Hinc. }
  unfold StupidAI.attack_next in Hn.
  destruct (StupidAI.pending st) as [[t1 adj]|] eqn:Ep; [|by apply Hfrom].
  pose proof (stupid_scan_spec b self t1 adj) as Hs.
  destruct (StupidAI.attack_scan b self t1 adj) as [[a1 adj']|]; [|by apply Hfrom].
  injection Hn as -> -> <- <- <-. destruct Hs as (Hat & Hin & Hinc & _).
  destruct (Hpend t adj eq_refl) as [Ht Hadj]. destruct (Hatt _ _ Hat) as [Ho Hfo].
  split; [exact Ht|]. split; [by apply Hadj|]. split; [exact Ho|]. split; [exact Hfo|].
  split; [reflexivity|]. split; [reflexivity|]. split; [|exact Hrem].
  intros t2 adj2 Hp2. cbn in Hp2. injection Hp2 as <- <-.
  split; [exact Ht|]. intros x Hx. by apply Hadj, Hinc.
Qed.

Lemma stupid_state_ok_attack (c : Territory -> list Territory) (self : Self) :
  stupid_state_ok c self (StupidAI.attack self).
Proof. split; [discriminate|]. intros x Hx. exact Hx. Qed.

Lemma stupid_attack_next_valid_witness :
  stupid_state_ok (connect example_board) agent (StupidAI.attack agent) /\
  (exists st', StupidAI.attack_next example_board agent (StupidAI.attack agent) =
               Some ((alaska, kamchatka, None, None), st')) /\
  forces example_board kamchatka < forces example_board alaska.
Proof.
  split; [apply stupid_state_ok_attack|].
  destruct (StupidAI.attack_next example_board agent (StupidAI.attack agent))
    as [[[[[t a] s] m] st']|] eqn:E; [|discriminate E].
  destruct (stupid_attack_next_valid example_board agent (StupidAI.attack agent) st' t a s m
              (stupid_state_ok_attack _ _) E) as (_ & _ & _ & Hf & _).
  vm_compute in E. injection E as <- <- <- <- _.
  split; [eexists; reflexivity|exact Hf].
Defined.

Example stupid_attack_example :
  StupidAI.attack_all 10 example_board agent (StupidAI.attack agent) =
  [(alaska, kamchatka, None, None); (alaska, argentina, None, None);
   (peru, argentina, None, None)].
Proof. reflexivity. Qed.

(** ** [BetterAI.attack] *)

Lemma better_orders_cons (b : Board) (t : Territory) (ts : list Territory) :
  better_orders b (t :: ts) = better_orders_of b t ++ better_orders b ts.
Proof. reflexivity. Qed.

Lemma better_frame_cons (b : Board) (t : Territory) (ts : list Territory) fr :
  better_frame b (t :: ts) fr = better_frame b ts (better_frame_of b fr t).
Proof. reflexivity. Qed.

Lemma last_or_cons {A : Type} (d : option A) (x : A) (l : list A) :
  last_or d (x :: l) = last_or (Some x) l.
Proof. reflexivity. Qed.

(** The outer loop up to its next [yield]: the order is the first of those
    of the territories, the generator is left with the others to give, and
    the variables will end as the loop body leaves them. *)
Lemma better_from_spec (b : Board) (total : option Z) (adj : option Territory)
    (ts : list Territory) :
  let '(o, st') := BetterAI.attack_from b total adj ts in
  better_frame_left b st' = better_frame b ts (total, adj) /\
  match o with
  | Some o => better_orders b ts = o :: better_orders_left b st'
  | None =>
      better_orders b ts = [] /\
      st' = BetterAI.mkAttack (fst (better_frame b ts (total, adj)))
                              (snd (better_frame b ts (total, adj))) None []
  end.
Proof.
  revert total adj. induction ts as [|t ts IH]; intros total adj;
    cbn [BetterAI.attack_from]; [by repeat split|].
  rewrite better_orders_cons, better_frame_cons. unfold better_orders_of, better_frame_of.
  destruct (1 <? forces b t) eqn:Ef; [|apply IH].
  destruct (BetterAI.adjacent b t) as [|a [|a' more]] eqn:Ea.
  - cbn [snd last_or fold_left app]. apply IH.
  - split; reflexivity.
  - split; reflexivity.
Qed.

Lemma better_next_spec (b : Board) (st : BetterAI.attack_state) :
  let '(o, st') := BetterAI.attack_next b st in
  better_frame_left b st' = better_frame_left b st /\
  match o with
  | Some o => better_orders_left b st = o :: better_orders_left b st'
  | None =>
      better_orders_left b st = [] /\
      st' = BetterAI.mkAttack (fst (better_frame_left b st)) (snd (better_frame_left b st))
                              None []
  end.
Proof.
  unfold BetterAI.attack_next.
  pose proof (better_from_spec b (BetterAI.total st) (BetterAI.adj st) (BetterAI.remaining st))
    as Hf.
  unfold better_frame_left at 2 3 4, better_orders_left at 1 3.
  destruct (BetterAI.pending st) as [[t [|x more]]|]; [exact Hf|by split|exact Hf].
Qed.

Lemma better_all_spec (fuel : nat) (b : Board) (st : BetterAI.attack_state) :
  fst (BetterAI.attack_all fuel b st) = firstn fuel (better_orders_left b st) /\
  ((length (better_orders_left b st) < fuel)%nat ->
   snd (BetterAI.attack_all fuel b st) =
     BetterAI.mkAttack (fst (better_frame_left b st)) (snd (better_frame_left b st)) None []).
Proof.
  revert st. induction fuel as [|fuel IH]; intros st; [split; [reflexivity|lia]|].
  cbn [BetterAI.attack_all]. pose proof (better_next_spec b st) as Hn.
  destruct (BetterAI.attack_next b st) as [[o|] st'].
  - destruct Hn as [Hfr Ho]. destruct (IH st') as [IH1 IH2].
    destruct (BetterAI.attack_all fuel b st') as [os st''].
    cbn [fst snd] in *. rewrite Ho. cbn [firstn length]. split; [by rewrite IH1|].
    intros Hl. rewrite IH2 by lia. by rewrite Hfr.
  - destruct Hn as [_ [Ho ->]]. rewrite Ho. split; reflexivity.
Qed.

(** X20. The generator of [BetterAI.attack] and its loop: run on a board
    that stays as it is, the generator yields, one [next] after the other,
    for each owned territory with more than one piece in turn: the order by
    name for its only target, or else the orders by object for each of its
    targets; after the last of them it is exhausted, and its variables
    [total] and [adj], which the strategies of the orders by object read
    when they are called, are left as the last territory with other than one
    target set them. *)
Theorem better_attack_orders (fuel : nat) (b : Board) (self : Self) :
  fst (BetterAI.attack_all fuel b (BetterAI.attack self)) =
    firstn fuel (better_orders b (territories (player self))) /\
  ((length (better_orders b (territories (player self))) < fuel)%nat ->
   let fr := better_frame b (territories (player self)) (None, None) in
   BetterAI.attack_all fuel b (BetterAI.attack self) =
     (better_orders b (territories (player self)),
      BetterAI.mkAttack (fst fr) (snd fr) None [])).
Proof.
  destruct (better_all_spec fuel b (BetterAI.attack self)) as [E1 E2].
  split; [exact E1|]. intros Hl fr.
  specialize (E2 Hl).
  destruct (BetterAI.attack_all fuel b (BetterAI.attack self)) as [os st].
  cbn [fst snd] in *. rewrite E1, E2. f_equal. apply firstn_all2.
  change (better_orders_left b (BetterAI.attack self))
    with (better_orders b (territories (player self))). lia.
Qed.

Lemma fold_add_acc (l : list Z) (acc : Z) :
  fold_left Z.add l acc = acc + fold_left Z.add l 0.
Proof.
  revert acc. induction l as [|x l IH]; intros acc; cbn [fold_left]; [lia|].
  rewrite (IH (acc + x)), (IH (0 + x)). lia.
Qed.

Lemma sum_middle (pre post : list Z) (x : Z) :
  sum (pre ++ x :: post) = x + sum (pre ++ post).
Proof.
  unfold sum. rewrite !fold_left_app. cbn [fold_left].
  rewrite (fold_add_acc post (fold_left Z.add pre 0 + x)).
  rewrite (fold_add_acc post (fold_left Z.add pre 0)). lia.
Qed.

Lemma adjacent_In (b : Board) (t a : Territory) :
  In a (BetterAI.adjacent b t) <->
  (owner b a <> owner b t /\ forces b a + 3 <= forces b t) /\ In a (connect b t).
Proof.
  unfold BetterAI.adjacent. rewrite <- !list_elem_of_In, list_elem_of_filter. reflexivity.
Qed.

(** An order for one of several targets, with the generator left at that
    target. *)
Lemma shared_order_spec (b : Board) (self : Self) (st' : BetterAI.attack_state)
    (t a x0 : Territory) (pre more l : list Territory) :
  In t (territories (player self)) -> 1 < forces b t ->
  BetterAI.adjacent b t = pre ++ a :: more -> pre ++ more = x0 :: l ->
  BetterAI.total st' = Some (sum (map (forces b) (BetterAI.adjacent b t))) ->
  BetterAI.adj st' = Some a ->
  In a (connect b t) /\ owner b a <> owner b t /\ forces b a + 3 <= forces b t /\
  Permutation (BetterAI.adjacent b t) (a :: x0 :: l) /\
  (forall b' x y,
     BetterAI.outweigh st' b' x y =
     Return (y + sum (map (forces b) (BetterAI.adjacent b t)) - forces b' a + 3 <? x)) /\
  (forall x y,
     BetterAI.outweigh st' b x y = Return (y + sum (map (forces b) (x0 :: l)) + 3 <? x)).
Proof.
  intros Ht Hf Hadj Hothers Htotal Ha.
  assert (Hin : In a (BetterAI.adjacent b t)).
  { rewrite Hadj. apply in_or_app. right. by left. }
  apply adjacent_In in Hin as [[Hown Hmargin] Hconn].
  split; [exact Hconn|]. split; [exact Hown|]. split; [exact Hmargin|]. split.
  { rewrite Hadj, <- Hothers. symmetry. apply Permutation_middle. }
  assert (Hb : forall b' x y,
            BetterAI.outweigh st' b' x y =
            Return (y + sum (map (forces b) (BetterAI.adjacent b t)) - forces b' a + 3 <? x)).
  { intros b' x y. unfold BetterAI.outweigh. by rewrite Htotal, Ha. }
  split; [exact Hb|]. intros x y. rewrite Hb.
  assert (E : sum (map (forces b) (BetterAI.adjacent b t)) =
              forces b a + sum (map (forces b) (x0 :: l))).
  { rewrite Hadj, map_app. cbn [map]. by rewrite sum_middle, <- map_app, Hothers. }
  rewrite E. f_equal. f_equal. lia.
Qed.

(** X21. An order of [BetterAI.attack] and its strategies, on a board that
    stays as it is while the generator runs: the order [next] yields goes
    from an owned territory with more than one piece to one of its
    connections, owned by someone else (or by nobody) and weaker by at least
    3 forces.  The order for an only target names the territories, attacks on
    while the attackers outnumber the defenders and leaves the move to the
    default.  With several targets the order holds the territories and moves
    one piece; its attack strategy reads the variables of the generator when
    it is called: called before the next [next], on a board [b'], it attacks
    on while the attackers exceed the defenders plus the forces the targets
    had at the yield, less those the target has on [b'], plus 3; on the
    board of the yield that is the defenders plus the forces of the other
    targets plus 3. *)
Theorem better_attack_targets (b : Board) (self : Self) (st st' : BetterAI.attack_state)
    (o : BetterAI.order) :
  better_state_ok b self st ->
  BetterAI.attack_next b st = (Some o, st') ->
  better_state_ok b self st' /\
  exists t a others,
    In t (territories (player self)) /\ 1 < forces b t /\
    In a (connect b t) /\ owner b a <> owner b t /\ forces b a + 3 <= forces b t /\
    Permutation (BetterAI.adjacent b t) (a :: others) /\
    match others with
    | [] =>
        exists atk_strategy,
          o = (BetterAI.ByName (name t), BetterAI.ByName (name a), atk_strategy, None) /\
          forall st'' b' x y, atk_strategy st'' b' x y = Return (y <? x)
    | _ :: _ =>
        exists atk_strategy move_strategy,
          o = (BetterAI.ByObject t, BetterAI.ByObject a, atk_strategy, Some move_strategy) /\
          (forall b' x y,
             atk_strategy st' b' x y =
             Return (y + sum (map (forces b) (BetterAI.adjacent b t)) - forces b' a + 3 <? x)) /\
          (forall x y,
             atk_strategy st' b x y = Return (y + sum (map (forces b) others) + 3 <? x)) /\
          (forall x, move_strategy x = 1)
    end.
Proof.
  intros [Hpend Hrem] Hn.
  assert (Hfrom : forall total adj ts,
            incl ts (territories (player self)) ->
            BetterAI.attack_from b total adj ts = (Some o, st') ->
            better_state_ok b self st' /\
            exists t a others,
              In t (territories (player self)) /\ 1 < forces b t /\
              In a (connect b t) /\ owner b a <> owner b t /\ forces b a + 3 <= forces b t /\
              Permutation (BetterAI.adjacent b t) (a :: others) /\
              match others with
              | [] =>
                  exists atk_strategy,
                    o = (BetterAI.ByName (name t), BetterAI.ByName (name a), atk_strategy, None) /\
                    forall st'' b' x y, atk_strategy st'' b' x y = Return (y <? x)
              | _ :: _ =>
                  exists atk_strategy move_strategy,
                    o = (BetterAI.ByObject t, BetterAI.ByObject a, atk_strategy,
                         Some move_strategy) /\
                    (forall b' x y,
                       atk_strategy st' b' x y =
                       Return (y + sum (map (forces b) (BetterAI.adjacent b t))
                               - forces b' a + 3 <? x)) /\
                    (forall x y,
                       atk_strategy st' b x y =
                       Return (y + sum (map (forces b) others) + 3 <? x)) /\
                    (forall x, move_strategy x = 1)
              end).
  { intros total adj ts. revert total adj.
    induction ts as [|t ts IH]; intros total adj Hinc Hf; cbn [BetterAI.attack_from] in Hf;
      [discriminate Hf|].
    assert (Ht : In t (territories (player self))) by (apply Hinc; by left).
    assert (Hinc' : incl ts (territories (player self)))
      by (intros x Hx; apply Hinc; by right).
    destruct (Z.ltb_spec 1 (forces b t)) as [Hforces|_]; [|by apply (IH total adj)].
    destruct (BetterAI.adjacent b t) as [|a [|a' more]] eqn:Ea.
    - by apply (IH (Some (sum (map (forces b) []))) adj).
    - injection Hf as <- <-. split; [split; [discriminate|exact Hinc']|].
      assert (Hin : In a (BetterAI.adjacent b t)) by (rewrite Ea; by left).
      apply adjacent_In in Hin as [[Hown Hmargin] Hconn].
      exists t, a, []. rewrite Ea. repeat (split; [done|]).
      eexists. split; reflexivity.
    - injection Hf as <- <-. split.
      + split; [|exact Hinc']. intros t1 more1 [= <- <-].
        split; [exact Ht|]. split; [exact Hforces|]. rewrite Ea. split; [reflexivity|].
        exists [], a. split; reflexivity.
      + destruct (shared_order_spec b self
                    (BetterAI.mkAttack (Some (sum (map (forces b) (a :: a' :: more))))
                                       (Some a) (Some (t, a' :: more)) ts)
                    t a a' [] (a' :: more) more Ht Hforces)
          as (Hconn & Hown & Hmargin & Hperm & Hb' & Hb);
          [by rewrite Ea|reflexivity|by rewrite Ea|reflexivity|].
        exists t, a, (a' :: more). repeat (split; [done|]).
        eexists. eexists. split; [reflexivity|]. split; [exact Hb'|]. split; [exact Hb|done]. }
  unfold BetterAI.attack_next in Hn.
  destruct (BetterAI.pending st) as [[t [|x more]]|] eqn:Ep;
    [exact (Hfrom _ _ _ Hrem Hn)| |exact (Hfrom _ _ _ Hrem Hn)].
  injection Hn as <- <-.
  destruct (Hpend t (x :: more) eq_refl) as (Ht & Hforces & Htotal & pre & x0 & Hx0 & Hadj).
  assert (Hadj' : BetterAI.adjacent b t = (pre ++ [x0]) ++ x :: more)
    by (rewrite <- app_assoc; exact Hadj).
  split.
  - split; [|exact Hrem]. intros t1 more1 [= <- <-].
    split; [exact Ht|]. split; [exact Hforces|]. split; [exact Htotal|].
    exists (pre ++ [x0]), x. split; [reflexivity|exact Hadj'].
  - destruct ((pre ++ [x0]) ++ more) as [|y l] eqn:El;
      [apply app_eq_nil in El as [El _]; apply app_eq_nil in El as [_ El]; discriminate El|].
    destruct (shared_order_spec b self
                (BetterAI.mkAttack (BetterAI.total st) (Some x) (Some (t, more))
                                   (BetterAI.remaining st))
                t x y (pre ++ [x0]) more l Ht Hforces Hadj' El Htotal eq_refl)
      as (Hconn & Hown & Hmargin & Hperm & Hb' & Hb).
    exists t, x, (y :: l). repeat (split; [done|]).
    eexists. eexists. split; [reflexivity|]. split; [exact Hb'|]. split; [exact Hb|done].
Qed.

Lemma better_state_ok_attack (b : Board) (self : Self) :
  better_state_ok b self (BetterAI.attack self).
Proof. split; [discriminate|]. intros x Hx. exact Hx. Qed.

Lemma better_attack_targets_witness :
  better_state_ok example_board agent (BetterAI.attack agent) /\
  (exists st',
     BetterAI.attack_next example_board (BetterAI.attack agent) =
       (Some (BetterAI.shared_order alaska kamchatka), st') /\
     BetterAI.outweigh st' example_board 5 0 = Return false) /\
  forces example_board kamchatka + 3 <= forces example_board alaska.
Proof.
  split; [apply better_state_ok_attack|].
  destruct (BetterAI.attack_next example_board (BetterAI.attack agent)) as [[o|] st'] eqn:E;
    [|discriminate E].
  destruct (better_attack_targets example_board agent (BetterAI.attack agent) st' o
              (better_state_ok_attack _ _) E)
    as (_ & t & a & others & _ & _ & _ & _ & Hm & _ & Hs).
  cbn in E. injection E as <- <-.
  split; [eexists; split; reflexivity|].
  destruct others as [|y l].
  - destruct Hs as (s & Ho & _). discriminate Ho.
  - destruct Hs as (s & mv & Ho & _). injection Ho as <- <- _ _. exact Hm.
Defined.

(** On the example board the generator yields three orders.  The strategy of
    the first, from Alaska to Kamchatka with Argentina the other target,
    refuses 5 attackers against no defender when the order is yielded; once
    the generator is exhausted, [total] is 0 and [adj] is Argentina, and the
    same strategy accepts them. *)
Example better_attack_example :
  BetterAI.attack_all 10 example_board (BetterAI.attack agent) =
  ([BetterAI.shared_order alaska kamchatka; BetterAI.shared_order alaska argentina;
    BetterAI.single_order peru argentina],
   BetterAI.mkAttack (Some 0) (Some argentina) None []).
Proof. reflexivity. Qed.

Example better_attack_late_binding :
  exists s mv yielded exhausted,
    BetterAI.attack_next example_board (BetterAI.attack agent) =
      (Some (BetterAI.ByObject alaska, BetterAI.ByObject kamchatka, s, mv), yielded) /\
    s yielded example_board 5 0 = Return false /\
    snd (BetterAI.attack_all 10 example_board (BetterAI.attack agent)) = exhausted /\
    s exhausted example_board 5 0 = Return true.
Proof. do 4 eexists. split; [reflexivity|]. split; [reflexivity|]. split; reflexivity. Qed.
